(** * micromark-extension-mdx-jsx: the JSX flow scanner, its resolver and
      the extension constructor, embedded and verified.

    Sources embedded here:
    - [jsxFlow] (tokenizeJsxFlow, resolveJsxFlow, tokenizeJsxFlowTag);
    - [mdxJsx] of dev/lib/syntax.js.

    The host tokenizer (micromark) is modelled only as far as the scanner uses
    it: enter / exit / consume / attempt, [markdownSpace],
    [markdownLineEnding], [factorySpace] and the numeric constants of
    micromark-util-symbol. *)

From Stdlib Require Import ZArith Lia Bool List String.
From stdpp Require Import base option list gmap strings.
Import ListNotations.
Local Open Scope Z_scope.

(** ** Codes (micromark-util-symbol [codes]) *)

(** A code is a character code or a negative sentinel; [None] is
    [codes.eof] (JavaScript [null]). *)
Definition Code : Type := option Z.

Module codes.
Definition carriageReturnLineFeed : Z := -5.
Definition lineFeed : Z := -4.
Definition carriageReturn : Z := -3.
Definition horizontalTab : Z := -2.
Definition virtualSpace : Z := -1.
Definition eof : Code := None.
Definition space : Z := 32.
Definition asterisk : Z := 42.
Definition lessThan : Z := 60.
Definition leftCurlyBrace : Z := 123.
End codes.

Module constants.
Definition hardBreakPrefixSizeMin : Z := 2.
End constants.

Module types.
Definition data : string := "data".
Definition lineEnding : string := "lineEnding".
Definition linePrefix : string := "linePrefix".
Definition lineSuffix : string := "lineSuffix".
Definition hardBreakTrailing : string := "hardBreakTrailing".
End types.

(** [code === k] for a numeric constant [k]. *)
Definition code_is (code : Code) (k : Z) : bool :=
  match code with
  | Some c => c =? k
  | None => false
  end.

Definition is_eof (code : Code) : bool :=
  match code with
  | None => true
  | Some _ => false
  end.

(** micromark-util-character:
    [markdownLineEnding(code) = code !== null && code < codes.horizontalTab]. *)
Definition markdownLineEnding (code : Code) : bool :=
  match code with
  | Some c => c <? codes.horizontalTab
  | None => false
  end.

(** micromark-util-character: [markdownSpace(code)] holds for the horizontal
    tab, the virtual space and the space. *)
Definition markdownSpace (code : Code) : bool :=
  code_is code codes.horizontalTab
  || code_is code codes.virtualSpace
  || code_is code codes.space.

(** Results of code that may throw. *)
Inductive Res (A : Type) : Type :=
| Val (a : A)
| Throw (msg : string).
Arguments Val {A} a.
Arguments Throw {A} msg.

(** ** Tokenizer state *)

Inductive EventKind : Type := Enter | Exit.

(** The scanner's events: the kind and the token type (positions are
    tracked by the host and only read by the resolver, below). *)
Definition SEvent : Type := (EventKind * string)%type.

(** The part of the tokenize context the scanner reads and writes: the codes
    still to come (end-of-input after the last), the events emitted so far
    and [self.previous]. *)
Record TState : Type := mkTState {
  input : list Z;
  events : list SEvent;
  previous : Code
}.

(** The code a state function receives. *)
Definition current (st : TState) : Code := head (input st).

Definition enter (ty : string) (st : TState) : TState :=
  mkTState (input st) (events st ++ [(Enter, ty)]) (previous st).

Definition exit (ty : string) (st : TState) : TState :=
  mkTState (input st) (events st ++ [(Exit, ty)]) (previous st).

(** [effects.consume(code)]: the code becomes [previous]. *)
Definition consume (st : TState) : TState :=
  mkTState (tail (input st)) (events st) (current st).

(** ** Constructs and the registry heap *)

(** A construct: optional [name], optional [previous] predicate, and its
    tokenizer run to completion: [Some st'] is its ok continuation reached in
    state [st'], [None] its nok continuation. *)
Record Construct : Type := mkConstruct {
  name : option string;
  cprevious : option (Code -> bool);
  tokenize : TState -> option TState
}.

Definition loc : Type := nat.

(** JavaScript values held by a registry record. *)
Inductive Value : Type :=
| VUndefined
| VRef (l : loc).

(** Heap cells: a registry record (an object used as a map from code to
    entry; the key [None] is the property "null"), an array of construct
    references, a construct object. *)
Inductive Cell : Type :=
| CObj (props : gmap Code Value)
| CArr (items : list loc)
| CCon (c : Construct).

Definition Heap : Type := list Cell.

Module Registry.

(** The own properties of the object at [l] (none when [l] holds no
    record). *)
Definition props_of (h : Heap) (l : loc) : gmap Code Value :=
  match h !! l with
  | Some (CObj p) => p
  | _ => ∅
  end.

(** [o[code]]: a missing property reads as [undefined]. *)
Definition get (h : Heap) (o : loc) (code : Code) : Value :=
  default VUndefined (props_of h o !! code).

(** [o[code] = v]. *)
Definition set_prop (h : Heap) (o : loc) (code : Code) (v : Value) : Heap :=
  match h !! o with
  | Some (CObj p) => <[o := CObj (<[code := v]> p)]> h
  | _ => h
  end.

(** [c.name] of the object at [l]; records and arrays have none. *)
Definition name_of (h : Heap) (l : loc) : option string :=
  match h !! l with
  | Some (CCon c) => name c
  | _ => None
  end.

(** [x === name] for a string [name] and a possibly undefined [x]. *)
Definition name_is (x : option string) (nm : string) : bool :=
  match x with
  | Some s => String.eqb s nm
  | None => false
  end.

(** [Object.assign({}, src)]: a fresh record with a shallow copy of the
    properties of [src]; the arrays and constructs they refer to are shared. *)
Definition object_assign_empty (h : Heap) (src : loc) : loc * Heap :=
  (List.length h, h ++ [CObj (props_of h src)]).

(** [removeConstruct(code, name)] on the overlay record [ic]. *)
Definition removeConstruct (h : Heap) (ic : loc) (code : Z) (nm : string)
  : Heap :=
  match get h ic (Some code) with
  | VUndefined => h
  | VRef l =>
      match h !! l with
      | Some (CArr items) =>
          let filtered :=
            List.filter (fun c => negb (name_is (name_of h c) nm)) items in
          set_prop (h ++ [CArr filtered]) ic (Some code) (VRef (List.length h))
      | _ =>
          if name_is (name_of h l) nm
          then set_prop h ic (Some code) VUndefined
          else h
      end
  end.

(** The head of [tokenizeJsxFlow]: copy [this.parser.constructs.text]
    (at [text]) and remove the constructs the scanner handles itself. *)
Definition overlay (h : Heap) (text : loc) : loc * Heap :=
  let '(ic, h0) := object_assign_empty h text in
  let h1 := removeConstruct h0 ic codes.lessThan "mdxJsxTextTag" in
  let h2 := removeConstruct h1 ic codes.leftCurlyBrace "mdxTextExpression" in
  let h3 := removeConstruct h2 ic codes.carriageReturn "lineEnding" in
  let h4 := removeConstruct h3 ic codes.lineFeed "lineEnding" in
  let h5 := removeConstruct h4 ic codes.carriageReturnLineFeed "lineEnding" in
  (ic, h5).

(** [construct.previous] of the construct at [l]. *)
Definition previous_of (h : Heap) (l : loc) : option (Code -> bool) :=
  match h !! l with
  | Some (CCon c) => cprevious c
  | _ => None
  end.

(** [!construct.previous || construct.previous.call(self, self.previous)]. *)
Definition interested (h : Heap) (prev : Code) (l : loc) : bool :=
  match previous_of h l with
  | None => true
  | Some p => p prev
  end.

(** [isBreak(code)] with [self.previous = prev]; the failed assertion
    throws. *)
Definition isBreak (h : Heap) (ic : loc) (prev : Code) (code : Code)
  : Res bool :=
  if code_is code codes.lessThan
     || code_is code codes.leftCurlyBrace
     || is_eof code
     || markdownLineEnding code
  then Val true
  else
    match get h ic code with
    | VUndefined => Val false
    | VRef l =>
        match h !! l with
        | Some (CArr items) => Val (existsb (interested h prev) items)
        | _ => Throw "constructs is not an array?"
        end
    end.

End Registry.

(** ** The flow chunk scanner, [tokenizeJsxFlow] *)

Module Flow.
Import Registry.

(** The state functions of [tokenizeJsxFlow], of the tokenizer attempted
    by [afterTag] ([tryLine]) and of [factorySpace] ([spaceStart],
    [spacePrefix], carrying the token type and the state to return to).
    [ok] and [nok] are the continuations of [tokenizeJsxFlow] itself;
    [attemptOk] and [attemptNok] those of the attempted tokenizer. *)
Inductive State : Type :=
| start
| afterTag
| tryLine
| afterTagLineEnding
| maybeConstruct
| tryLocalConstructs
| tryInlineConstructs
| notConstruct
| data
| mdxExpression
| afterLineEnding
| end_
| spaceStart (ty : string) (k : State)
| spacePrefix (ty : string) (k : State)
| attemptOk
| attemptNok
| ok
| nok
| threw (msg : string).

(** A pending [effects.attempt]: the state to rewind to and the two
    continuations. *)
Record Frame : Type := mkFrame {
  saved : TState;
  on_ok : State;
  on_nok : State
}.

Definition Config : Type := (State * TState * list Frame)%type.

Definition state_of (c : Config) : State := fst (fst c).
Definition tstate_of (c : Config) : TState := snd (fst c).
Definition frames_of (c : Config) : list Frame := snd c.

Definition is_final (s : State) : bool :=
  match s with
  | ok | nok | threw _ => true
  | _ => false
  end.

(** The constructs the host tries for [effects.attempt(map, ...)] at
    [code]: [map[code]] then [map.null], each an array, one construct or
    nothing. *)
Definition entry_list (h : Heap) (v : Value) : list loc :=
  match v with
  | VUndefined => []
  | VRef l =>
      match h !! l with
      | Some (CArr items) => items
      | _ => [l]
      end
  end.

Definition constructs_at (h : Heap) (map : loc) (code : Code) : list loc :=
  match code with
  | None => []
  | Some _ => entry_list h (get h map code) ++ entry_list h (get h map None)
  end.

Definition tokenize_at (h : Heap) (l : loc) (st : TState) : option TState :=
  match h !! l with
  | Some (CCon c) => tokenize c st
  | _ => None
  end.

(** The host tries the constructs in order from the same state; the first
    whose tokenizer reaches ok wins. *)
Fixpoint attempt_list (h : Heap) (ls : list loc) (st : TState)
  : option TState :=
  match ls with
  | [] => None
  | l :: ls' =>
      match tokenize_at h l st with
      | Some st' => Some st'
      | None => attempt_list h ls' st
      end
  end.

Section Scanner.
(** The tag grammar of factory-tag.js with the flow token types, run to
    completion: [Some st'] is ok, [None] is nok. *)
Variable factoryTag : TState -> option TState.
(** [factoryMdxExpression] with ok = [maybeConstruct]; it takes no nok:
    [None] stands for the exception it throws. *)
Variable factoryMdxExpression : TState -> option TState.
(** The heap after the head of [tokenizeJsxFlow] and the overlay
    [inlineConstructs] in it. *)
Variable h : Heap.
Variable ic : loc.

(** [tokenizeJsxFlowTag]: [start] asserts the code and runs the tag
    grammar. *)
Definition tokenizeJsxFlowTag (st : TState) : Res (option TState) :=
  if code_is (current st) codes.lessThan
  then Val (factoryTag st)
  else Throw "expected `<`".

(** [effects.enter('lineEnding'); effects.consume(code);
    effects.exit('lineEnding')]. *)
Definition eat_line_ending (st : TState) : TState :=
  exit types.lineEnding (consume (enter types.lineEnding st)).

Definition step (c : Config) : Config :=
  let '(s, st, fs) := c in
  let code := current st in
  match s with
  | start =>
      match tokenizeJsxFlowTag st with
      | Val (Some st') => (afterTag, st', fs)
      | Val None => (nok, st, fs)
      | Throw m => (threw m, st, fs)
      end
  | afterTag =>
      (tryLine, st, mkFrame st afterTagLineEnding maybeConstruct :: fs)
  | tryLine =>
      if markdownSpace code then (spaceStart types.lineSuffix tryLine, st, fs)
      else if markdownLineEnding code then (attemptOk, eat_line_ending st, fs)
      else if is_eof code then (attemptOk, st, fs)
      else (attemptNok, st, fs)
  | attemptOk =>
      match fs with
      | f :: fs' => (on_ok f, st, fs')
      | [] => (threw "no attempt", st, fs)
      end
  | attemptNok =>
      match fs with
      | f :: fs' => (on_nok f, saved f, fs')
      | [] => (threw "no attempt", st, fs)
      end
  | afterTagLineEnding =>
      if markdownSpace code
      then (spaceStart types.linePrefix afterTagLineEnding, st, fs)
      else if markdownLineEnding code || is_eof code then (end_, st, fs)
      else (maybeConstruct, st, fs)
  | maybeConstruct =>
      match isBreak h ic (previous st) code with
      | Val true => (tryLocalConstructs, st, fs)
      | Val false => (notConstruct, st, fs)
      | Throw m => (threw m, st, fs)
      end
  | tryLocalConstructs =>
      if code_is code codes.lessThan then
        match tokenizeJsxFlowTag st with
        | Val (Some st') => (afterTag, st', fs)
        | Val None => (tryInlineConstructs, st, fs)
        | Throw m => (threw m, st, fs)
        end
      else if code_is code codes.leftCurlyBrace then (mdxExpression, st, fs)
      else if markdownLineEnding code
      then (afterLineEnding, eat_line_ending st, fs)
      else if is_eof code then (nok, st, fs)
      else (tryInlineConstructs, st, fs)
  | tryInlineConstructs =>
      match attempt_list h (constructs_at h ic code) st with
      | Some st' => (tryLocalConstructs, st', fs)
      | None => (notConstruct, st, fs)
      end
  | notConstruct => (data, consume (enter types.data st), fs)
  | data =>
      match isBreak h ic (previous st) code with
      | Val true => (tryLocalConstructs, exit "data" st, fs)
      | Val false => (data, consume st, fs)
      | Throw m => (threw m, st, fs)
      end
  | mdxExpression =>
      match factoryMdxExpression st with
      | Some st' => (maybeConstruct, st', fs)
      | None => (threw "mdx expression", st, fs)
      end
  | afterLineEnding =>
      if markdownSpace code
      then (spaceStart types.linePrefix afterLineEnding, st, fs)
      else if markdownLineEnding code || is_eof code then (nok, st, fs)
      else (maybeConstruct, st, fs)
  | end_ => (ok, st, fs)
  | spaceStart ty k =>
      if markdownSpace code then (spacePrefix ty k, enter ty st, fs)
      else (k, st, fs)
  | spacePrefix ty k =>
      if markdownSpace code then (spacePrefix ty k, consume st, fs)
      else (k, exit ty st, fs)
  | ok | nok | threw _ => c
  end.

(** [n] steps. *)
Fixpoint steps (n : nat) (c : Config) : Config :=
  match n with
  | O => c
  | S n' => steps n' (step c)
  end.

Definition reaches (c c' : Config) : Prop := exists n, steps n c = c'.

(** The codes [factorySpace] leaves: the input behind its leading
    spaces. *)
Fixpoint skip_space (inp : list Z) : list Z :=
  match inp with
  | c :: r => if markdownSpace (Some c) then skip_space r else inp
  | [] => []
  end.

(** [self.previous] once the leading spaces of [inp] are consumed. *)
Fixpoint space_previous (prev : Code) (inp : list Z) : Code :=
  match inp with
  | c :: r => if markdownSpace (Some c) then space_previous (Some c) r else prev
  | [] => prev
  end.

(** The tokenizer state [factorySpace(effects, k, ty)] hands to [k]:
    untouched when no space is next, else one [ty] token around all the
    spaces. *)
Definition after_space (ty : string) (st : TState) : TState :=
  if markdownSpace (current st)
  then mkTState (skip_space (input st))
                (events st ++ [(Enter, ty); (Exit, ty)])
                (space_previous (previous st) (input st))
  else st.

(** The scanner on a tokenizer state positioned at its trigger. *)
Definition tokenizeJsxFlow (n : nat) (st : TState) : Config :=
  steps n (start, st, []).

End Scanner.

End Flow.

(** ** Extension construction, [mdxJsx] (dev/lib/syntax.js) *)

Module Syntax.

(** An entry point of the parser. *)
Inductive Fn : Type := fn (id : nat).

(** [options.acorn]: an object whose two entry points may be missing. *)
Record Acorn : Type := mkAcorn {
  parse : option Fn;
  parseExpressionAt : option Fn
}.

(** The acorn options the constructor touches; [None] is an absent
    property. *)
Record AcornOptions : Type := mkAcornOptions {
  ecmaVersion : option Z;
  sourceType : option string;
  locations : option bool
}.

Record Options : Type := mkOptions {
  acorn : option Acorn;
  acornOptions : option AcornOptions;
  addResult : option bool
}.

(** The second argument of [jsxFlow] and [jsxText]. *)
Record ConstructOptions : Type := mkConstructOptions {
  co_acornOptions : option AcornOptions;
  co_addResult : option bool
}.

(** The constructs the extension registers: the result of [jsxFlow] (the
    scanner above, named mdxJsxFlow) and of [jsxText] (jsx-text.js) for
    given arguments. *)
Inductive ExtConstruct : Type :=
| jsxFlow (acorn : option Acorn) (options : ConstructOptions)
| jsxText (acorn : option Acorn) (options : ConstructOptions).

Record Extension : Type := mkExtension {
  flow : gmap Z ExtConstruct;
  text : gmap Z ExtConstruct
}.

(** JavaScript truthiness of [boolean | null | undefined]. *)
Definition truthy (b : option bool) : bool :=
  match b with
  | Some true => true
  | _ => false
  end.

Definition or_else {A : Type} (x y : option A) : option A :=
  match x with
  | Some a => Some a
  | None => y
  end.

(** [Object.assign({ecmaVersion: 2024, sourceType: 'module'},
    settings.acornOptions, {locations: true})]. *)
Definition assign_acornOptions (o : option AcornOptions) : AcornOptions :=
  match o with
  | Some a =>
      mkAcornOptions (or_else (ecmaVersion a) (Some 2024))
                     (or_else (sourceType a) (Some "module"%string))
                     (Some true)
  | None => mkAcornOptions (Some 2024) (Some "module"%string) (Some true)
  end.

Definition settings_of (options : option Options) : Options :=
  match options with
  | Some o => o
  | None => mkOptions None None None
  end.

Definition build (a : option Acorn) (ao : option AcornOptions)
    (settings : Options) : Extension :=
  let co :=
    mkConstructOptions ao
      (if truthy (addResult settings) then Some true else None) in
  mkExtension {[ codes.lessThan := jsxFlow a co ]}
              {[ codes.lessThan := jsxText a co ]}.

Definition mdxJsx (options : option Options) : Res Extension :=
  let settings := settings_of options in
  match acorn settings with
  | Some a =>
      match parse a, parseExpressionAt a with
      | Some _, Some _ =>
          Val (build (Some a)
                     (Some (assign_acornOptions (acornOptions settings)))
                     settings)
      | _, _ =>
          Throw "Expected a proper `acorn` instance passed in as `options.acorn`"
      end
  | None =>
      match acornOptions settings with
      | Some _ =>
          Throw "Expected an `acorn` instance passed in as `options.acorn`"
      | None =>
          if truthy (addResult settings)
          then Throw "Expected an `acorn` instance passed in as `options.acorn`"
          else Val (build None None settings)
      end
  end.

End Syntax.

(** ** The resolver, [resolveJsxFlow] *)

Module Resolver.

Record Point : Type := mkPoint {
  line : Z;
  column : Z;
  offset : Z;
  _index : Z;
  _bufferIndex : Z
}.

Record Token : Type := mkToken {
  type : string;
  start : Point;
  end_ : Point
}.

(** Token objects live in a store and events refer to them: the enter and
    the exit event of a token share one object, so an assignment to a
    token is seen through both. An event is [[kind, token, context]]. *)
Abbreviation Store := (list Token).
Abbreviation Event := (EventKind * nat)%type.

(** What [context.sliceStream] yields: strings and numeric codes. *)
Inductive Chunk : Type :=
| ChStr (s : string)
| ChNum (c : Z).

(** [events[i]], undefined out of range. *)
Definition event_at (events : list Event) (i : Z) : option Event :=
  if i <? 0 then None else events !! Z.to_nat i.

(** [events[i][1]]. *)
Definition token_at (store : Store) (events : list Event) (i : Z)
  : option Token :=
  match event_at events i with
  | Some (_, r) => store !! r
  | None => None
  end.

(** [events[i] && events[i][1].type === ty]. *)
Definition is_type (ty : string) (store : Store) (events : list Event)
    (i : Z) : bool :=
  match token_at store events i with
  | Some t => String.eqb (type t) ty
  | None => false
  end.

Definition set_end (t : Token) (p : Point) : Token :=
  mkToken (type t) (start t) p.

(** [events[e][1].end = events[src][1].end]. *)
Definition assign_end (store : Store) (events : list Event) (e src : Z)
  : Store :=
  match event_at events e, token_at store events src with
  | Some (_, r), Some t' => alter (fun t => set_end t (end_ t')) r store
  | _, _ => store
  end.

(** [events.splice(from, count)]. *)
Definition splice_remove (events : list Event) (from count : Z)
  : list Event :=
  take (Z.to_nat from) events ++ drop (Z.to_nat (from + count)) events.

(** [events.splice(at, 0, a, b)]. *)
Definition splice_insert (events : list Event) (at_ : Z) (a b : Event)
  : list Event :=
  take (Z.to_nat at_) events ++ [a; b] ++ drop (Z.to_nat at_) events.

(** The first [while] loop; [index] and [enter] are the variables before
    [++index]. [None] only when the fuel runs out. *)
Fixpoint merge_loop (fuel : nat) (index : Z) (enter : option Z)
    (store : Store) (events : list Event) : option (Store * list Event) :=
  match fuel with
  | O => None
  | S fuel' =>
      let index := index + 1 in
      if index <=? Z.of_nat (List.length events) then
        match enter with
        | None =>
            if is_type types.data store events index
            then merge_loop fuel' (index + 1) (Some index) store events
            else merge_loop fuel' index None store events
        | Some e =>
            if negb (is_type types.data store events index) then
              if negb (index =? e + 2) then
                merge_loop fuel' (e + 2) None
                  (assign_end store events e (index - 1))
                  (splice_remove events (e + 2) (index - e - 2))
              else merge_loop fuel' index None store events
            else merge_loop fuel' index (Some e) store events
        end
      else Some (store, events)
  end.

(** [chunk.charCodeAt(i)]. *)
Definition charCodeAt (chunk : string) (i : nat) : option Z :=
  match String.get i chunk with
  | Some a => Some (Z.of_nat (Ascii.nat_of_ascii a))
  | None => None
  end.

(** [while (chunk.charCodeAt(bufferIndex - 1) === codes.space)
    { size++; bufferIndex-- }]. *)
Fixpoint strip (chunk : string) (bufferIndex : nat) (size : Z) : nat * Z :=
  match bufferIndex with
  | O => (O, size)
  | S b =>
      match charCodeAt chunk b with
      | Some c =>
          if c =? codes.space then strip chunk b (size + 1)
          else (bufferIndex, size)
      | None => (bufferIndex, size)
      end
  end.

(** The variables after the backward scan. *)
Record Scan : Type := mkScan {
  s_index : Z;
  s_bufferIndex : Z;
  s_size : Z;
  s_tabs : bool
}.

(** [while (index--) { ... }]: leaving by the condition leaves [index] at
    [-1]. *)
Fixpoint scan (chunks : list Chunk) (index : nat) (bufferIndex size : Z)
    (tabs : bool) : Scan :=
  match index with
  | O => mkScan (-1) bufferIndex size tabs
  | S i =>
      match chunks !! i with
      | Some (ChStr chunk) =>
          let '(b, size') := strip chunk (String.length chunk) size in
          if negb (b =? 0)%nat then mkScan (Z.of_nat i) (Z.of_nat b) size' tabs
          else scan chunks i (-1) size' tabs
      | Some (ChNum c) =>
          if c =? codes.horizontalTab
          then scan chunks i bufferIndex (size + 1) true
          else if c =? codes.virtualSpace
          then scan chunks i bufferIndex size tabs
          else mkScan (Z.of_nat i + 1) bufferIndex size tabs
      | None => mkScan (Z.of_nat i) bufferIndex size tabs
      end
  end.

Definition scan_chunks (chunks : list Chunk) : Scan :=
  scan chunks (List.length chunks) (-1) 0 false.

(** The token built when [size] is not zero; [last] is
    [eventIndex === events.length]. *)
Definition suffix_token (data : Token) (sc : Scan) (last : bool) : Token :=
  mkToken
    (if last || s_tabs sc || (s_size sc <? constants.hardBreakPrefixSizeMin)
     then types.lineSuffix else types.hardBreakTrailing)
    (mkPoint (line (end_ data))
             (column (end_ data) - s_size sc)
             (offset (end_ data) - s_size sc)
             (_index (start data) + s_index sc)
             (if negb (s_index sc =? 0) then s_bufferIndex sc
              else _bufferIndex (start data) + s_bufferIndex sc))
    (end_ data).

Section WithContext.
(** [context.sliceStream]. *)
Variable sliceStream : Token -> list Chunk.

(** The body of the [if] in the second loop, up to [eventIndex++]: the
    new store, events and [eventIndex]. *)
Definition reclassify (store : Store) (events : list Event)
    (eventIndex : Z) : Store * list Event * Z :=
  match event_at events (eventIndex - 1) with
  | Some (_, r) =>
      match store !! r with
      | Some data =>
          let sc := scan_chunks (sliceStream data) in
          if negb (s_size sc =? 0) then
            let token :=
              suffix_token data sc
                (eventIndex =? Z.of_nat (List.length events)) in
            if offset (start data) =? offset (start token)
            then (<[r := token]> store, events, eventIndex)
            else
              let t := List.length store in
              (<[r := set_end data (start token)]> store ++ [token],
               splice_insert events eventIndex (Enter, t) (Exit, t),
               eventIndex + 2)
          else (store, events, eventIndex)
      | None => (store, events, eventIndex)
      end
  | None => (store, events, eventIndex)
  end.

(** The second [while] loop; [eventIndex] is the variable before
    [++eventIndex]. *)
Fixpoint suffix_loop (fuel : nat) (eventIndex : Z) (store : Store)
    (events : list Event) : option (Store * list Event) :=
  match fuel with
  | O => None
  | S fuel' =>
      let eventIndex := eventIndex + 1 in
      if eventIndex <=? Z.of_nat (List.length events) then
        if ((eventIndex =? Z.of_nat (List.length events))
            || is_type types.lineEnding store events eventIndex)
           && is_type types.data store events (eventIndex - 1)
        then
          let '(store', events', eventIndex') :=
            reclassify store events eventIndex in
          suffix_loop fuel' (eventIndex' + 1) store' events'
        else suffix_loop fuel' eventIndex store events
      else Some (store, events)
  end.

(** [resolveJsxFlow(events, context)] on the events and the store their
    tokens live in. Each loop gets more fuel than it has iterations. *)
Definition resolveJsxFlow (store : Store) (events : list Event)
  : option (Store * list Event) :=
  match merge_loop (List.length events + 2) (-1) None store events with
  | Some (store1, events1) =>
      suffix_loop (List.length events1 + 2) 0 store1 events1
  | None => None
  end.

End WithContext.

End Resolver.

(** ** Shape of the configurations the scanner runs through *)

Module FlowShape.
Import Flow.

(** [factorySpace] is only ever given [tryLine], [afterTagLineEnding] or
    [afterLineEnding] to return to. *)
Definition good_state (s : State) : bool :=
  match s with
  | spaceStart _ k | spacePrefix _ k =>
      match k with
      | tryLine | afterTagLineEnding | afterLineEnding => true
      | _ => false
      end
  | _ => true
  end.

(** The only attempt with a tokenizer of the scanner's own is the one of
    [afterTag]. *)
Definition good_frame (f : Frame) : bool :=
  match on_ok f, on_nok f with
  | afterTagLineEnding, maybeConstruct => true
  | _, _ => false
  end.

Definition good (c : Config) : bool :=
  good_state (state_of c) && forallb good_frame (frames_of c).

(** The code is a line ending or the end of input. *)
Definition at_line_end (st : TState) : bool :=
  markdownLineEnding (current st) || is_eof (current st).

End FlowShape.

(** ** Fixtures of the examples *)

Module Fixtures.
Import Registry.

(** The codes of a tag up to and including its [>]. *)
Fixpoint tag_rest (inp : list Z) : option (list Z) :=
  match inp with
  | [] => None
  | c :: r => if c =? 62 then Some r else tag_rest r
  end.

(** A small tag grammar standing in for factory-tag.js in the examples:
    [<], codes other than [>], [>], as one token. *)
Definition smallTag (st : TState) : option TState :=
  match input st with
  | c :: r =>
      if c =? codes.lessThan then
        match tag_rest r with
        | Some rest =>
            Some (mkTState rest
                    (events st ++ [(Enter, "mdxJsxFlowTag"%string);
                                   (Exit, "mdxJsxFlowTag"%string)])
                    (Some 62))
        | None => None
        end
      else None
  | [] => None
  end.

(** No expression occurs in the examples. *)
Definition noExpression (st : TState) : option TState := None.

(** A heap whose [constructs.text] (at 0) registers nothing, and the
    scanner's overlay of it. *)
Definition emptyText : Heap := [CObj ∅].
Definition emptyOverlay : loc * Heap := overlay emptyText 0%nat.

(** The tokenizer state at the first code of [inp]. *)
Definition at_start (inp : list Z) : TState := mkTState inp [] None.

(** A construct without [previous] whose tokenizer never matches,
    registered for [*], and the overlay of that registry. *)
Definition neverMatches : Construct :=
  mkConstruct (Some "attention"%string) None (fun _ => None).
Definition starText : Heap :=
  [CObj {[ Some codes.asterisk := VRef 1%nat ]}; CArr [2%nat];
   CCon neverMatches].
Definition starOverlay : loc * Heap := overlay starText 0%nat.


End Fixtures.


(** ** Event lists as items, and what the two loops compute on them *)

Module ResolverSpec.
Import Resolver.

(** A well-formed event list read as items: a data token is the adjacent
    pair of its enter and exit event; any other event stands alone. *)
Inductive Item : Type :=
| IData (r : nat)
| IOther (e : Event).

Definition events_of_item (it : Item) : list Event :=
  match it with
  | IData r => [(Enter, r); (Exit, r)]
  | IOther e => [e]
  end.

Fixpoint events_of (items : list Item) : list Event :=
  match items with
  | [] => []
  | it :: tl => events_of_item it ++ events_of tl
  end.

Fixpoint data_refs (items : list Item) : list nat :=
  match items with
  | [] => []
  | IData r :: tl => r :: data_refs tl
  | IOther _ :: tl => data_refs tl
  end.

(** The token at [r] exists and has type [ty]. *)
Definition ref_is (ty : string) (store : Store) (r : nat) : bool :=
  match store !! r with
  | Some t => String.eqb (type t) ty
  | None => false
  end.

Definition item_ok (store : Store) (it : Item) : bool :=
  match it with
  | IData r => ref_is types.data store r
  | IOther (_, r) =>
      match store !! r with
      | Some t => negb (String.eqb (type t) types.data)
      | None => false
      end
  end.

(** The items describe the events of [store]: data items are data tokens,
    each with its own object, and the other events belong to tokens of other
    types. *)
Definition wf (store : Store) (items : list Item) : Prop :=
  NoDup (data_refs items) /\ forallb (item_ok store) items = true.

(** The last token of the run of data items at the head of [items], [a]
    when there is none. *)
Fixpoint run_last (a : nat) (items : list Item) : nat :=
  match items with
  | IData z :: tl => run_last z tl
  | _ => a
  end.

(** [a.end = z.end]. *)
Definition copy_end (store : Store) (a z : nat) : Store :=
  match store !! z with
  | Some t' => alter (fun t => set_end t (end_ t')) a store
  | None => store
  end.

(** The merge pass on items: the head of a run of data items takes the end
    of the last one, the others are dropped. [in_run] says a data item came
    just before. *)
Fixpoint merge_items (store : Store) (in_run : bool) (items : list Item)
  : Store * list Item :=
  match items with
  | [] => (store, [])
  | IOther e :: tl =>
      let '(s, r) := merge_items store false tl in (s, IOther e :: r)
  | IData z :: tl =>
      if in_run then merge_items store true tl
      else
        let store' :=
          match tl with
          | IData _ :: _ => copy_end store z (run_last z tl)
          | _ => store
          end in
        let '(s, r) := merge_items store' true tl in (s, IData z :: r)
  end.

(** Where the first loop stands: outside a run ([enter] is undefined), or
    in the run that starts with the data item [a], past the data events
    [mid] that follow it. *)
Inductive LoopState : Type :=
| Out
| In (a : nat) (mid : list Event).

(** The events of the run entered so far. *)
Definition prefix_events (st : LoopState) : list Event :=
  match st with
  | Out => []
  | In a mid => (Enter, a) :: (Exit, a) :: mid
  end.

Definition enter_of (pre : list Event) (st : LoopState) : option Z :=
  match st with
  | Out => None
  | In _ _ => Some (Z.of_nat (List.length pre))
  end.

Definition starts_data (items : list Item) : bool :=
  match items with
  | IData _ :: _ => true
  | _ => false
  end.

(** The token of the last event of [mid], [a] when [mid] is empty. *)
Definition last_ref (a : nat) (mid : list Event) : nat :=
  match last mid with
  | Some (_, z) => z
  | None => a
  end.

Definition no_events (mid : list Event) : bool :=
  match mid with
  | [] => true
  | _ => false
  end.

(** What the merge pass makes of the run entered so far and the items to
    come. *)
Definition merge_from (st : LoopState) (store : Store) (items : list Item)
  : Store * list Item :=
  match st with
  | Out => merge_items store false items
  | In a mid =>
      let store' :=
        if negb (no_events mid) || starts_data items
        then copy_end store a (run_last (last_ref a mid) items)
        else store in
      let '(s, r) := merge_items store' true items in (s, IData a :: r)
  end.

Definition is_data (it : Item) : bool :=
  match it with
  | IData _ => true
  | IOther _ => false
  end.

(** No two data items are adjacent. *)
Fixpoint separated (items : list Item) : bool :=
  match items with
  | [] => true
  | it :: tl => negb (is_data it && starts_data tl) && separated tl
  end.

(** The last item is a data item. *)
Fixpoint ends_data (items : list Item) : bool :=
  match items with
  | [] => false
  | [it] => is_data it
  | _ :: tl => ends_data tl
  end.

(** The event after a data item is a line ending, or there is none. *)
Definition next_is_line_end (store : Store) (items : list Item) : bool :=
  match items with
  | [] => true
  | IOther (_, r) :: _ => ref_is types.lineEnding store r
  | IData _ :: _ => false
  end.

Definition is_nil (items : list Item) : bool :=
  match items with
  | [] => true
  | _ => false
  end.

Section WithContext.
Variable sliceStream : Token -> list Chunk.

(** The whitespace pass on items. *)
Fixpoint suffix_items (store : Store) (items : list Item)
  : Store * list Item :=
  match items with
  | [] => (store, [])
  | IOther e :: tl =>
      let '(s, r) := suffix_items store tl in (s, IOther e :: r)
  | IData d :: tl =>
      match store !! d with
      | Some data =>
          let sc := scan_chunks (sliceStream data) in
          if next_is_line_end store tl && negb (s_size sc =? 0) then
            let token := suffix_token data sc (is_nil tl) in
            if offset (start data) =? offset (start token) then
              let '(s, r) := suffix_items (<[d := token]> store) tl in
              (s, IOther (Enter, d) :: IOther (Exit, d) :: r)
            else
              let t := List.length store in
              let '(s, r) :=
                suffix_items
                  (<[d := set_end data (start token)]> store ++ [token]) tl in
              (s, IData d :: IOther (Enter, t) :: IOther (Exit, t) :: r)
          else
            let '(s, r) := suffix_items store tl in (s, IData d :: r)
      | None =>
          let '(s, r) := suffix_items store tl in (s, IData d :: r)
      end
  end.

(** No data item before a line ending or the end has trailing whitespace
    left. *)
Fixpoint settled (store : Store) (items : list Item) : bool :=
  match items with
  | [] => true
  | IOther _ :: tl => settled store tl
  | IData d :: tl =>
      match store !! d with
      | Some data =>
          negb (next_is_line_end store tl)
          || (s_size (scan_chunks (sliceStream data)) =? 0)
      | None => true
      end && settled store tl
  end.

(** The two passes on items. *)
Definition resolve_items (store : Store) (items : list Item)
  : Store * list Item :=
  let '(s, its) := merge_items store false items in suffix_items s its.

End WithContext.

(** The codes of a token's slices in order: the code units of the strings
    and the numeric chunks. *)
Inductive Unit : Type :=
| UChar (c : Z)
| UCode (c : Z).

Fixpoint units_of_string (s : string) : list Unit :=
  match s with
  | EmptyString => []
  | String a s' => UChar (Z.of_nat (Ascii.nat_of_ascii a)) :: units_of_string s'
  end.

Fixpoint units_of (chunks : list Chunk) : list Unit :=
  match chunks with
  | [] => []
  | ChStr s :: tl => units_of_string s ++ units_of tl
  | ChNum c :: tl => UCode c :: units_of tl
  end.

(** The trailing whitespace of a token, read from its last code backwards:
    a space or a tab counts one, a tab is remembered, a virtual space counts
    nothing, anything else ends the run. *)
Fixpoint trailing (backwards : list Unit) : Z * bool :=
  match backwards with
  | [] => (0, false)
  | UChar c :: tl =>
      if c =? codes.space
      then let '(n, t) := trailing tl in (n + 1, t)
      else (0, false)
  | UCode c :: tl =>
      if c =? codes.horizontalTab
      then let '(n, _) := trailing tl in (n + 1, true)
      else if c =? codes.virtualSpace then trailing tl
      else (0, false)
  end.

(** Combining the counters of the loop with a run found further back. *)
Definition add_run (size : Z) (tabs : bool) (run : Z * bool) : Z * bool :=
  (size + fst run, tabs || snd run).

Definition trailing_run (chunks : list Chunk) : Z * bool :=
  trailing (rev (units_of chunks)).

End ResolverSpec.


(** ** Fixtures of the resolver examples *)

Module ResolverFixtures.
Import Resolver ResolverSpec.

(** [s.slice(from, to)] and [s.slice(from)] for indices in range. *)
Definition slice (s : string) (from to : Z) : string :=
  String.substring (Z.to_nat from) (Z.to_nat (to - from)) s.

Definition slice_from (s : string) (from : Z) : string :=
  String.substring (Z.to_nat from) (String.length s - Z.to_nat from) s.

Definition str_chunk (c : option Chunk) : string :=
  match c with
  | Some (ChStr s) => s
  | _ => EmptyString
  end.

(** The host's [context.sliceStream] over the chunks of a document,
    after micromark's [sliceChunks]: the chunks between the two positions
    of the token, the first and the last string cut at the buffer indices. *)
Definition sliceChunks (chunks : list Chunk) (token : Token) : list Chunk :=
  let startIndex := Z.to_nat (_index (start token)) in
  let startBufferIndex := _bufferIndex (start token) in
  let endIndex := Z.to_nat (_index (end_ token)) in
  let endBufferIndex := _bufferIndex (end_ token) in
  if (startIndex =? endIndex)%nat
  then [ChStr (slice (str_chunk (chunks !! startIndex))
                     startBufferIndex endBufferIndex)]
  else
    let view := take (endIndex - startIndex) (drop startIndex chunks) in
    let view :=
      if startBufferIndex >? -1 then
        match view with
        | ChStr head :: rest => ChStr (slice_from head startBufferIndex) :: rest
        | _ :: rest => rest
        | [] => []
        end
      else view in
    if endBufferIndex >? 0
    then view ++ [ChStr (slice (str_chunk (chunks !! endIndex))
                               0 endBufferIndex)]
    else view.

Definition lf : Chunk := ChNum codes.lineFeed.

(** [<b>a  ], a line feed, [c</b>]: the tag, the data [a  ], the line
    ending, the data [c], the closing tag. *)
Definition hardBreakChunks : list Chunk := [ChStr "<b>a  "; lf; ChStr "c</b>"].
Definition hardBreakStore : Store :=
  [mkToken "mdxJsxFlowTag" (mkPoint 1 1 0 0 0) (mkPoint 1 4 3 0 3);
   mkToken "data" (mkPoint 1 4 3 0 3) (mkPoint 1 7 6 1 (-1));
   mkToken "lineEnding" (mkPoint 1 7 6 1 (-1)) (mkPoint 2 1 7 2 0);
   mkToken "data" (mkPoint 2 1 7 2 0) (mkPoint 2 2 8 2 1);
   mkToken "mdxJsxFlowTag" (mkPoint 2 2 8 2 1) (mkPoint 2 6 12 3 (-1))].
Definition hardBreakItems : list Item :=
  [IOther (Enter, 0%nat); IOther (Exit, 0%nat); IData 1%nat;
   IOther (Enter, 2%nat); IOther (Exit, 2%nat); IData 3%nat;
   IOther (Enter, 4%nat); IOther (Exit, 4%nat)].

(** The same with one space before the line feed. *)
Definition suffixChunks : list Chunk := [ChStr "<b>a "; lf; ChStr "c</b>"].
Definition suffixStore : Store :=
  [mkToken "mdxJsxFlowTag" (mkPoint 1 1 0 0 0) (mkPoint 1 4 3 0 3);
   mkToken "data" (mkPoint 1 4 3 0 3) (mkPoint 1 6 5 1 (-1));
   mkToken "lineEnding" (mkPoint 1 6 5 1 (-1)) (mkPoint 2 1 6 2 0);
   mkToken "data" (mkPoint 2 1 6 2 0) (mkPoint 2 2 7 2 1);
   mkToken "mdxJsxFlowTag" (mkPoint 2 2 7 2 1) (mkPoint 2 6 11 3 (-1))].

(** [<div>hi</div>] and a line feed, the data scanned as the two bursts [h]
    and [i]. *)
Definition divChunks : list Chunk := [ChStr "<div>hi</div>"; lf].
Definition divStore : Store :=
  [mkToken "mdxJsxFlowTag" (mkPoint 1 1 0 0 0) (mkPoint 1 6 5 0 5);
   mkToken "data" (mkPoint 1 6 5 0 5) (mkPoint 1 7 6 0 6);
   mkToken "data" (mkPoint 1 7 6 0 6) (mkPoint 1 8 7 0 7);
   mkToken "mdxJsxFlowTag" (mkPoint 1 8 7 0 7) (mkPoint 1 14 13 1 (-1));
   mkToken "lineEnding" (mkPoint 1 14 13 1 (-1)) (mkPoint 2 1 14 2 0)].
Definition divItems : list Item :=
  [IOther (Enter, 0%nat); IOther (Exit, 0%nat); IData 1%nat; IData 2%nat;
   IOther (Enter, 3%nat); IOther (Exit, 3%nat);
   IOther (Enter, 4%nat); IOther (Exit, 4%nat)].

End ResolverFixtures.


(** ** Further readings of an item list *)

Module ResolverShape.
Import Resolver ResolverSpec.


End ResolverShape.

(** ** The suppressed registry entries *)

Module RegistryShape.
Import Registry.

(** The calls of [removeConstruct] at the head of [tokenizeJsxFlow], in
    order. *)
Definition suppressed : list (Z * string) :=
  [(codes.lessThan, "mdxJsxTextTag"%string);
   (codes.leftCurlyBrace, "mdxTextExpression"%string);
   (codes.carriageReturn, "lineEnding"%string);
   (codes.lineFeed, "lineEnding"%string);
   (codes.carriageReturnLineFeed, "lineEnding"%string)].

(** A value that is a reference refers to a cell of the heap. *)
Definition refers_into (h : Heap) (v : Value) : bool :=
  match v with
  | VUndefined => true
  | VRef l => (l <? List.length h)%nat
  end.

(** [c.name !== name] for the object at [c]. *)
Definition other_name (h : Heap) (nm : string) (c : loc) : bool :=
  negb (name_is (name_of h c) nm).

(** The calls [calls] of [removeConstruct] on the overlay [ic], in order. *)
Fixpoint remove_all (h : Heap) (ic : loc) (calls : list (Z * string)) : Heap :=
  match calls with
  | [] => h
  | (k, nm) :: rest => remove_all (removeConstruct h ic k nm) ic rest
  end.

(** No call of [calls] is for the property [code]. *)
Definition not_key (code : Code) (calls : list (Z * string)) : bool :=
  forallb (fun c : Z * string => negb (code_is code (fst c))) calls.

(** A registry as the extension leaves it: [<] holds the JSX text construct
    and an autolink, the line feed a line ending. *)
Definition jsxTextTag : Construct :=
  mkConstruct (Some "mdxJsxTextTag"%string) None (fun _ => None).
Definition autolink : Construct :=
  mkConstruct (Some "autolink"%string) None (fun _ => None).
Definition lineEndingConstruct : Construct :=
  mkConstruct (Some "lineEnding"%string) None (fun _ => None).
Definition mdxText : Heap :=
  [CObj {[ Some codes.lessThan := VRef 1%nat;
           Some codes.lineFeed := VRef 4%nat ]};
   CArr [2%nat; 3%nat]; CCon autolink; CCon jsxTextTag;
   CCon lineEndingConstruct].

End RegistryShape.

(** ** Readings of the scanner's configurations *)

Module FlowMore.
Import Registry Flow FlowShape.

(** The step from [c] puts the current code into a data token:
    [notConstruct] opens a token with it, [data] adds it when [isBreak]
    says no. *)
Definition takes_data (h : Heap) (ic : loc) (c : Config) : bool :=
  match state_of c with
  | notConstruct => true
  | data =>
      match isBreak h ic (previous (tstate_of c)) (current (tstate_of c)) with
      | Val false => true
      | _ => false
      end
  | _ => false
  end.

(** A code the dispatch hands on: no [{], no line ending, not the end of
    input. *)
Definition plain_code (code : Code) : bool :=
  negb (code_is code codes.leftCurlyBrace)
  && negb (markdownLineEnding code)
  && negb (is_eof code).

(** At [<] the tag grammar has no match. *)
Definition tag_failed (factoryTag : TState -> option TState) (st : TState)
  : bool :=
  negb (code_is (current st) codes.lessThan)
  || match factoryTag st with
     | None => true
     | Some _ => false
     end.

(** What holds of the code whenever the scanner is about to attempt the
    inline constructs or to open a data token. *)
Definition dispatched (factoryTag : TState -> option TState) (c : Config)
  : bool :=
  match state_of c with
  | notConstruct | tryInlineConstructs =>
      plain_code (current (tstate_of c)) && tag_failed factoryTag (tstate_of c)
  | _ => true
  end.

(** The tokens [evs] leaves open, innermost first, when [open] are open
    before it; [None] when an exit is not that of the innermost open
    token. *)
Fixpoint open_after (open : list string) (evs : list SEvent)
  : option (list string) :=
  match evs with
  | [] => Some open
  | (Enter, ty) :: r => open_after (ty :: open) r
  | (Exit, ty) :: r =>
      match open with
      | ty' :: o => if String.eqb ty ty' then open_after o r else None
      | [] => None
      end
  end.

(** [st] has the events of [st0] and behind them events that leave [open]
    open. *)
Definition extends (st0 : TState) (open : list string) (st : TState) : Prop :=
  exists added,
    events st = events st0 ++ added /\ open_after [] added = Some open.

(** A tokenizer that, when it matches, has added events and closed every
    token it opened. *)
Definition appends_balanced (f : TState -> option TState) : Prop :=
  forall st st', f st = Some st' -> extends st [] st'.

(** The tokens a state function of the scanner holds open. *)
Definition open_of (s : State) : list string :=
  match s with
  | data => [types.data]
  | spacePrefix ty _ => [ty]
  | _ => []
  end.

Definition is_threw (s : State) : bool :=
  match s with
  | threw _ => true
  | _ => false
  end.

(** The events of a configuration are those of [st0] and what the state
    accounts for; the states saved by pending attempts have nothing open. *)
Definition tidy (st0 : TState) (c : Config) : Prop :=
  (is_threw (state_of c) = true \/
   extends st0 (open_of (state_of c)) (tstate_of c)) /\
  Forall (fun f => extends st0 [] (saved f)) (frames_of c).

(** Whether a data token is open after [evs] when [open] says so before
    it; [None] when a data token is entered twice, exited unopened, or
    another event falls between its enter and its exit. *)
Fixpoint pair_after (open : bool) (evs : list SEvent) : option bool :=
  match evs with
  | [] => Some open
  | (k, ty) :: r =>
      if String.eqb ty types.data then
        match k, open with
        | Enter, false => pair_after true r
        | Exit, true => pair_after false r
        | _, _ => None
        end
      else if open then None else pair_after false r
  end.

(** [st] has the events of [st0] and behind them events whose data tokens
    are adjacent pairs, up to one left open when [open]. *)
Definition pairs (st0 : TState) (open : bool) (st : TState) : Prop :=
  exists added,
    events st = events st0 ++ added /\ pair_after false added = Some open.

Definition appends_paired (f : TState -> option TState) : Prop :=
  forall st st', f st = Some st' -> pairs st false st'.

Definition is_data (s : State) : bool :=
  match s with
  | data => true
  | _ => false
  end.

(** [factorySpace] is never asked for a data token. *)
Definition space_typed (s : State) : bool :=
  match s with
  | spaceStart ty _ | spacePrefix ty _ => negb (String.eqb ty types.data)
  | _ => true
  end.

Definition paired (st0 : TState) (c : Config) : Prop :=
  space_typed (state_of c) = true /\
  (is_threw (state_of c) = true \/
   pairs st0 (is_data (state_of c)) (tstate_of c)) /\
  Forall (fun f => pairs st0 false (saved f)) (frames_of c).

(** A tokenizer that, when it matches, has consumed at least one code. *)
Definition shortens (f : TState -> option TState) : Prop :=
  forall st st',
    f st = Some st' ->
    (List.length (input st') < List.length (input st))%nat.

(** The state functions that run inside the attempt of [afterTag]. *)
Definition in_attempt (s : State) : bool :=
  match s with
  | tryLine | attemptOk | attemptNok => true
  | spaceStart _ tryLine | spacePrefix _ tryLine => true
  | _ => false
  end.

(** The configurations of a run: at most one attempt is pending, it is the
    one of [afterTag], exactly the states of its tokenizer run under it,
    and they have consumed from the state it saved. *)
Definition shaped (c : Config) : bool :=
  good c
  && match frames_of c with
     | [] => negb (in_attempt (state_of c))
     | [f] =>
         in_attempt (state_of c)
         && (List.length (input (tstate_of c))
             <=? List.length (input (saved f)))%nat
     | _ => false
     end.

(** The order in which the state functions hand the same code on. *)
Definition weight (s : State) (st : TState) : nat :=
  match s with
  | afterTag => 13
  | tryLine | afterTagLineEnding | afterLineEnding =>
      if markdownSpace (current st) then 12 else 9
  | spaceStart _ _ => 11
  | spacePrefix _ _ => 10
  | data => 9
  | maybeConstruct => 8
  | tryLocalConstructs => 7
  | tryInlineConstructs | mdxExpression => 6
  | notConstruct => 5
  | start | end_ | attemptOk | attemptNok => 1
  | ok | nok | threw _ => 0
  end%nat.

(** What a step makes smaller, in lexicographic order: first the input
    left, counting a pending attempt (and [afterTag], which opens it) by
    the input it can rewind to; then the input left and the weight of the
    state. *)
Definition rank (c : Config) : nat * nat :=
  let l := List.length (input (tstate_of c)) in
  (match frames_of c with
   | f :: _ => 2 * List.length (input (saved f)) + 1
   | [] =>
       match state_of c with
       | afterTag => 2 * l + 1
       | _ => 2 * l
       end
   end,
   13 * l + weight (state_of c) (tstate_of c))%nat.

Definition lex_lt (a b : nat * nat) : Prop :=
  (fst a < fst b)%nat \/ (fst a = fst b /\ (snd a < snd b)%nat).



End FlowMore.

(** ** The identifier sets of script/generate-identifier-regex.js *)

Module IdentifierRegex.

(** [bpm(code)]: the code point lies in the Basic Multilingual Plane. *)
Definition bpm (code : Z) : bool := code <=? 65535.

(** [[36, 95].concat(idStart.filter(bpm))]. *)
Definition start (idStart : list Z) : list Z :=
  [36; 95] ++ List.filter bpm idStart.

(** [[0x200c, 0x200d].concat(idCont.filter(bpm))]. *)
Definition cont (idCont : list Z) : list Z :=
  [8204; 8205] ++ List.filter bpm idCont.

(** A regenerate set is a set of code points; [add] and [remove] take an
    array of them. *)
Definition regenerate : gset Z := ∅.
Definition add (s : gset Z) (l : list Z) : gset Z := s ∪ list_to_set l.
Definition remove (s : gset Z) (l : list Z) : gset Z := s ∖ list_to_set l.

(** The code points [exports.start] matches. *)
Definition startRe (idStart : list Z) : gset Z :=
  add regenerate (start idStart).

(** The code points [exports.cont] matches. *)
Definition contRe (idStart idCont : list Z) : gset Z :=
  remove (add regenerate (cont idCont)) (start idStart).

End IdentifierRegex.

(** ** A registry with a construct that matches *)

Module FlowFixtures.
Import Registry.

(** A construct for [*] that takes one [*] as one token. *)
Definition starMatches : Construct :=
  mkConstruct (Some "attention"%string) None
    (fun st =>
       match input st with
       | c :: r =>
           if c =? codes.asterisk
           then Some (mkTState r
                        (events st ++ [(Enter, "attentionSequence"%string);
                                       (Exit, "attentionSequence"%string)])
                        (Some c))
           else None
       | [] => None
       end).

Definition matchText : Heap :=
  [CObj {[ Some codes.asterisk := VRef 1%nat ]}; CArr [2%nat];
   CCon starMatches].
Definition matchOverlay : loc * Heap := overlay matchText 0%nat.

End FlowFixtures.

(** ** Fixtures of the constructor *)

Module SyntaxFixtures.
Import Syntax.



End SyntaxFixtures.

(** * Properties *)

Module FlowFacts.
Import Registry Flow FlowShape.

Section Scanner.
Variable factoryTag : TState -> option TState.
Variable factoryMdxExpression : TState -> option TState.
Variable h : Heap.
Variable ic : loc.

Local Abbreviation step := (step factoryTag factoryMdxExpression h ic).
Local Abbreviation steps := (steps factoryTag factoryMdxExpression h ic).
Local Abbreviation reaches := (reaches factoryTag factoryMdxExpression h ic).

Lemma steps_add n m c : steps (n + m) c = steps m (steps n c).
Proof. revert c. induction n as [|n IH]; intros c; simpl; auto. Qed.

Lemma reaches_refl c : reaches c c.
Proof. exists O. reflexivity. Qed.

Lemma reaches_trans c1 c2 c3 :
  reaches c1 c2 -> reaches c2 c3 -> reaches c1 c3.
Proof.
  intros [n Hn] [m Hm]. exists (n + m)%nat.
  rewrite steps_add, Hn. exact Hm.
Qed.

Lemma reaches_step c c' : reaches (step c) c' -> reaches c c'.
Proof. intros [n Hn]. exists (S n). exact Hn. Qed.

Lemma skip_space_head inp :
  markdownSpace (head (skip_space inp)) = false.
Proof.
  induction inp as [|c r IH]; simpl; [reflexivity|].
  destruct (markdownSpace (Some c)) eqn:E; simpl; auto.
Qed.

(** [prefix] of [factorySpace] eats every space and exits the token. *)
Lemma spacePrefix_reaches ty k fs inp evs prev :
  reaches (spacePrefix ty k, mkTState inp evs prev, fs)
          (k, mkTState (skip_space inp) (evs ++ [(Exit, ty)])
                       (space_previous prev inp), fs).
Proof.
  revert prev. induction inp as [|c r IH]; intros prev.
  - apply reaches_step. simpl. apply reaches_refl.
  - apply reaches_step. simpl.
    unfold current; simpl.
    destruct (markdownSpace (Some c)) eqn:E.
    + unfold consume, current; simpl. apply IH.
    + unfold exit; simpl. apply reaches_refl.
Qed.

Lemma spaceStart_reaches ty k fs st :
  reaches (spaceStart ty k, st, fs) (k, after_space ty st, fs).
Proof.
  apply reaches_step. simpl. unfold after_space.
  destruct (markdownSpace (current st)) eqn:E.
  - destruct st as [inp evs prev]. unfold enter; simpl.
    eapply reaches_trans; [apply spacePrefix_reaches|].
    rewrite <- app_assoc. simpl. apply reaches_refl.
  - apply reaches_refl.
Qed.

Lemma after_space_current ty st :
  markdownSpace (current (after_space ty st)) = false.
Proof.
  unfold after_space. destruct (markdownSpace (current st)) eqn:E; auto.
  unfold current; simpl. apply skip_space_head.
Qed.

Lemma after_space_input ty st :
  input (after_space ty st) = skip_space (input st).
Proof.
  unfold after_space. destruct (markdownSpace (current st)) eqn:E; auto.
  destruct st as [[|c r] evs prev]; simpl in *; auto.
  unfold current in E; simpl in E. rewrite E. reflexivity.
Qed.



(** A line of spaces only, met in [afterTagLineEnding], ends the block
    with success; the line ending or end of input behind the spaces is
    left unconsumed. *)
Lemma afterTagLineEnding_blank st fs :
  markdownLineEnding (current (after_space types.linePrefix st))
  || is_eof (current (after_space types.linePrefix st)) = true ->
  reaches (afterTagLineEnding, st, fs)
          (ok, after_space types.linePrefix st, fs).
Proof.
  intros Hb.
  pose proof (after_space_current types.linePrefix st) as Hsp.
  assert (Hlast : reaches
            (afterTagLineEnding, after_space types.linePrefix st, fs)
            (ok, after_space types.linePrefix st, fs)).
  { apply reaches_step. simpl. rewrite Hsp, Hb.
    apply reaches_step. simpl. apply reaches_refl. }
  destruct (markdownSpace (current st)) eqn:E.
  - apply reaches_step. simpl. rewrite E.
    eapply reaches_trans; [apply spaceStart_reaches|exact Hlast].
  - unfold after_space in *. rewrite E in *. exact Hlast.
Qed.

(** The same line met in [afterLineEnding] makes the scanner fail. *)
Lemma afterLineEnding_blank st fs :
  markdownLineEnding (current (after_space types.linePrefix st))
  || is_eof (current (after_space types.linePrefix st)) = true ->
  reaches (afterLineEnding, st, fs)
          (nok, after_space types.linePrefix st, fs).
Proof.
  intros Hb.
  pose proof (after_space_current types.linePrefix st) as Hsp.
  assert (Hlast : reaches
            (afterLineEnding, after_space types.linePrefix st, fs)
            (nok, after_space types.linePrefix st, fs)).
  { apply reaches_step. simpl. rewrite Hsp, Hb. apply reaches_refl. }
  destruct (markdownSpace (current st)) eqn:E.
  - apply reaches_step. simpl. rewrite E.
    eapply reaches_trans; [apply spaceStart_reaches|exact Hlast].
  - unfold after_space in *. rewrite E in *. exact Hlast.
Qed.


Lemma good_step c : good c = true -> good (step c) = true.
Proof.
  destruct c as [[s st] fs]. unfold good. simpl.
  intros Hg. apply andb_true_iff in Hg as [Hs Hf].
  destruct s; simpl in *;
    repeat match goal with
    | |- context [match ?x with _ => _ end] => destruct x eqn:?
    | |- context [if ?x then _ else _] => destruct x eqn:?
    end; simpl in *;
    try (apply andb_true_iff in Hf as [Hf1 Hf2]);
    try (unfold good_frame in Hf1);
    repeat match goal with
    | H : context [match ?x with _ => _ end] |- _ => destruct x eqn:?
    end;
    simpl; try congruence; try (rewrite ?Hs, ?Hf, ?Hf2; reflexivity).
Qed.

Lemma good_steps n c : good c = true -> good (steps n c) = true.
Proof.
  revert c. induction n as [|n IH]; intros c Hc; simpl; auto.
  apply IH, good_step, Hc.
Qed.

(** Success is entered from [end_] only, and [end_] from
    [afterTagLineEnding] at a line ending or the end of input only. *)
Lemma ok_from_end c :
  good c = true -> state_of (step c) = ok ->
  state_of c = ok \/ state_of c = end_.
Proof.
  destruct c as [[s st] fs]. unfold good. simpl.
  intros Hg. apply andb_true_iff in Hg as [Hs Hf].
  destruct s; simpl in *; auto;
    repeat match goal with
    | |- context [match ?x with _ => _ end] => destruct x eqn:?
    | |- context [if ?x then _ else _] => destruct x eqn:?
    end; simpl in *; try discriminate;
    try (apply andb_true_iff in Hf as [Hf1 Hf2]);
    try (unfold good_frame in Hf1);
    repeat match goal with
    | H : context [match ?x with _ => _ end] |- _ => destruct x eqn:?
    end; try discriminate; try congruence.
Qed.

Lemma end_from_afterTagLineEnding c :
  good c = true -> state_of (step c) = end_ ->
  state_of c = afterTagLineEnding /\ at_line_end (tstate_of c) = true.
Proof.
  destruct c as [[s st] fs]. unfold good, at_line_end. simpl.
  intros Hg. apply andb_true_iff in Hg as [Hs Hf].
  destruct s; simpl in *; auto;
    repeat match goal with
    | |- context [match ?x with _ => _ end] => destruct x eqn:?
    | |- context [if ?x then _ else _] => destruct x eqn:?
    end; simpl in *; try discriminate;
    try (apply andb_true_iff in Hf as [Hf1 Hf2]);
    try (unfold good_frame in Hf1);
    repeat match goal with
    | H : context [match ?x with _ => _ end] |- _ => destruct x eqn:?
    end; try discriminate; try congruence; auto.
Qed.

Lemma steps_final n s st fs :
  is_final s = true -> steps n (s, st, fs) = (s, st, fs).
Proof.
  intros Hf. induction n as [|n IH]; simpl; auto.
  destruct s; simpl in *; try discriminate; exact IH.
Qed.

Lemma isBreak_eof prev : isBreak h ic prev None = Val true.
Proof. reflexivity. Qed.

(** C3, as the code has it: in the dispatch states the end of input makes
    the scanner fail. [tryLocalConstructs] and [maybeConstruct] reach [nok]
    with the state untouched, [data] after closing its token. The scanner
    succeeds from [afterTagLineEnding] only, at a line ending or the end of
    input: after a clean-closed tag. *)
Theorem eof_in_dispatch_fails evs prev fs :
  reaches (tryLocalConstructs, mkTState [] evs prev, fs)
          (nok, mkTState [] evs prev, fs) /\
  reaches (maybeConstruct, mkTState [] evs prev, fs)
          (nok, mkTState [] evs prev, fs) /\
  reaches (data, mkTState [] evs prev, fs)
          (nok, mkTState [] (evs ++ [(Exit, "data"%string)]) prev, fs) /\
  (forall n st0,
      let c := tokenizeJsxFlow factoryTag factoryMdxExpression h ic n st0 in
      state_of (step (step c)) = ok ->
      state_of (step c) = ok \/
      (state_of c = afterTagLineEnding /\ at_line_end (tstate_of c) = true)).
Proof.
  repeat split.
  - apply reaches_step. simpl. apply reaches_refl.
  - apply reaches_step. simpl.
    apply reaches_step. simpl. apply reaches_refl.
  - apply reaches_step. simpl.
    apply reaches_step. simpl. apply reaches_refl.
  - intros n st0 c Hok.
    assert (Hg : good c = true).
    { unfold c, tokenizeJsxFlow. apply good_steps. reflexivity. }
    destruct (ok_from_end (step c) (good_step c Hg) Hok) as [H1|H1];
      [left; exact H1|right].
    exact (end_from_afterTagLineEnding c Hg H1).
Qed.

(** The dispatch of a code that is none of the four the scanner handles
    itself. *)
Lemma tryLocalConstructs_other st fs :
  code_is (current st) codes.lessThan = false ->
  code_is (current st) codes.leftCurlyBrace = false ->
  markdownLineEnding (current st) = false ->
  is_eof (current st) = false ->
  step (tryLocalConstructs, st, fs) = (tryInlineConstructs, st, fs).
Proof. intros H1 H2 H3 H4. simpl. rewrite H1, H2, H3, H4. reflexivity. Qed.

(** C7, as the code has it. Before a code [c] (none of [<], [{], a line
    ending) is added to the open data token, [isBreak] consults the
    overlay entry [items] of [c]. With no interested construct the code is
    consumed as data. With one, the data token is exited with [c]
    unconsumed and the entry is attempted in order: when a tokenizer
    matches, the dispatch goes on from its state, and when none does, [c]
    opens a new data token. *)
Theorem data_interruption c r evs prev fs l items :
  code_is (Some c) codes.lessThan
  || code_is (Some c) codes.leftCurlyBrace
  || markdownLineEnding (Some c) = false ->
  get h ic (Some c) = VRef l ->
  h !! l = Some (CArr items) ->
  let st := mkTState (c :: r) evs prev in
  (existsb (interested h prev) items = false ->
   step (data, st, fs) = (data, mkTState r evs (Some c), fs)) /\
  (existsb (interested h prev) items = true ->
   reaches (data, st, fs) (tryInlineConstructs, exit "data" st, fs) /\
   (forall st',
      attempt_list h (constructs_at h ic (Some c)) (exit "data" st)
      = Some st' ->
      reaches (data, st, fs) (tryLocalConstructs, st', fs)) /\
   (attempt_list h (constructs_at h ic (Some c)) (exit "data" st) = None ->
    reaches (data, st, fs)
            (data,
             mkTState r (evs ++ [(Exit, "data"%string);
                                 (Enter, "data"%string)]) (Some c),
             fs))).
Proof.
  intros Hc Hget Hl st.
  apply orb_false_iff in Hc as [Hc Hle].
  apply orb_false_iff in Hc as [Hlt Hlc].
  assert (Hbrk : isBreak h ic prev (Some c)
                 = Val (existsb (interested h prev) items)).
  { unfold isBreak. rewrite Hlt, Hlc, Hle. simpl.
    rewrite Hget, Hl. reflexivity. }
  split.
  - intros Hno. simpl. unfold current; simpl.
    change (head (c :: r)) with (Some c).
    rewrite Hbrk, Hno. reflexivity.
  - intros Hyes.
    assert (Hgo : reaches (data, st, fs)
                    (tryInlineConstructs, exit "data" st, fs)).
    { apply reaches_step. simpl. unfold current; simpl.
      change (head (c :: r)) with (Some c).
      rewrite Hbrk, Hyes.
      apply reaches_step.
      rewrite tryLocalConstructs_other by assumption || reflexivity.
      apply reaches_refl. }
    split; [exact Hgo|]. split.
    + intros st' Hok. eapply reaches_trans; [exact Hgo|].
      apply reaches_step. simpl.
      unfold current in *; simpl in *. rewrite Hok. apply reaches_refl.
    + intros Hnone. eapply reaches_trans; [exact Hgo|].
      apply reaches_step. simpl.
      unfold current in *; simpl in *. rewrite Hnone.
      apply reaches_step. simpl. unfold consume, enter, current; simpl.
      rewrite <- app_assoc. apply reaches_refl.
Qed.

End Scanner.

Import Fixtures.


(** C2: a line of spaces only (or nothing) before a line ending or the end
    of input ends the block with success when it is met in
    [afterTagLineEnding], the state after a clean-closed tag line, and the
    line ending behind the spaces stays unconsumed; met in
    [afterLineEnding], after a line ending consumed by the dispatch, it
    makes the scanner fail. Success is entered from no other place: a run
    that steps into [ok] was in [afterTagLineEnding] at a line ending or the
    end of input two steps before. So the scanner succeeds on a tag line
    followed by a blank line, leaving that line, and fails when the blank
    line follows a line of text. *)
Theorem blank_line_termination :
  (forall factoryTag factoryMdxExpression h ic st fs,
      at_line_end (after_space types.linePrefix st) = true ->
      reaches factoryTag factoryMdxExpression h ic
        (afterTagLineEnding, st, fs)
        (ok, after_space types.linePrefix st, fs) /\
      reaches factoryTag factoryMdxExpression h ic
        (afterLineEnding, st, fs)
        (nok, after_space types.linePrefix st, fs)) /\
  (forall factoryTag factoryMdxExpression h ic n st0,
      let c := tokenizeJsxFlow factoryTag factoryMdxExpression h ic n st0 in
      let c1 := step factoryTag factoryMdxExpression h ic c in
      let c2 := step factoryTag factoryMdxExpression h ic c1 in
      state_of c2 = ok ->
      state_of c1 = ok \/
      (state_of c = afterTagLineEnding /\
       at_line_end (tstate_of c) = true /\ state_of c1 = end_)) /\
  tokenizeJsxFlow smallTag noExpression (snd emptyOverlay) (fst emptyOverlay)
    6 (at_start [60; 100; 105; 118; 62; -4; -4])
  = (ok,
     mkTState [-4]
       [(Enter, "mdxJsxFlowTag"%string); (Exit, "mdxJsxFlowTag"%string);
        (Enter, "lineEnding"%string); (Exit, "lineEnding"%string)]
       (Some (-4)), []) /\
  tokenizeJsxFlow smallTag noExpression (snd emptyOverlay) (fst emptyOverlay)
    12 (at_start [60; 100; 105; 118; 62; 104; 105; -4; -4])
  = (nok,
     mkTState [-4]
       [(Enter, "mdxJsxFlowTag"%string); (Exit, "mdxJsxFlowTag"%string);
        (Enter, "data"%string); (Exit, "data"%string);
        (Enter, "lineEnding"%string); (Exit, "lineEnding"%string)]
       (Some (-4)), []).
Proof.
  split; [|split; [|split]].
  - intros. split.
    + apply afterTagLineEnding_blank. assumption.
    + apply afterLineEnding_blank. assumption.
  - intros factoryTag factoryMdxExpression h ic n st0 c c1 c2 Hok.
    assert (Hg : good c = true).
    { unfold c, tokenizeJsxFlow. apply good_steps. reflexivity. }
    assert (Hg1 : good c1 = true) by (apply good_step, Hg).
    destruct (ok_from_end _ _ _ _ c1 Hg1 Hok) as [H1|H1]; [left; exact H1|].
    right.
    destruct (end_from_afterTagLineEnding _ _ _ _ c Hg H1) as [Ha Hb].
    auto.
  - vm_compute. reflexivity.
  - vm_compute. reflexivity.
Qed.

(** A block whose last line is text fails at the end of input. *)
Lemma eof_in_dispatch_counterexample :
  tokenizeJsxFlow smallTag noExpression (snd emptyOverlay) (fst emptyOverlay)
    12 (at_start [60; 100; 105; 118; 62; 104; 105])
  = (nok,
     mkTState []
       [(Enter, "mdxJsxFlowTag"%string); (Exit, "mdxJsxFlowTag"%string);
        (Enter, "data"%string); (Exit, "data"%string)]
       (Some 105), []) /\
  ~ (forall factoryTag factoryMdxExpression h ic evs prev,
        exists n st',
          steps factoryTag factoryMdxExpression h ic n
            (tryLocalConstructs, mkTState [] evs prev, [])
          = (ok, st', [])).
Proof.
  split; [vm_compute; reflexivity|].
  intros H.
  destruct (H smallTag noExpression emptyText 0%nat [] None) as (n & st' & Hn).
  destruct n as [|n]; [discriminate|].
  simpl in Hn. rewrite steps_final in Hn by reflexivity. discriminate.
Qed.

Lemma data_interruption_witness :
  reaches smallTag noExpression (snd starOverlay) (fst starOverlay)
    (data, mkTState [42; 60; 98; 62] [(Enter, "data"%string)] (Some 120), [])
    (tryInlineConstructs,
     mkTState [42; 60; 98; 62]
       [(Enter, "data"%string); (Exit, "data"%string)] (Some 120), []).
Proof.
  exact (proj1 (proj2 (data_interruption smallTag noExpression
                         (snd starOverlay) (fst starOverlay)
                         42 [60; 98; 62] [(Enter, "data"%string)]
                         (Some 120) [] 1%nat [2%nat]
                         eq_refl eq_refl eq_refl) eq_refl)).
Defined.

(** The trigger of an interested construct whose tokenizer does not match
    is consumed into a data token. *)
Lemma data_interruption_counterexample :
  ~ (forall factoryTag factoryMdxExpression h ic c r evs prev fs l items,
        code_is (Some c) codes.lessThan
        || code_is (Some c) codes.leftCurlyBrace
        || markdownLineEnding (Some c) = false ->
        get h ic (Some c) = VRef l ->
        h !! l = Some (CArr items) ->
        existsb (interested h prev) items = true ->
        ~ reaches factoryTag factoryMdxExpression h ic
            (data, mkTState (c :: r) evs prev, fs)
            (data,
             mkTState r (evs ++ [(Exit, "data"%string);
                                 (Enter, "data"%string)]) (Some c),
             fs)).
Proof.
  intros H.
  apply (H smallTag noExpression (snd starOverlay) (fst starOverlay)
           42 [60; 98; 62] [(Enter, "data"%string)] (Some 120) []
           1%nat [2%nat]); try reflexivity.
  exists 4%nat. vm_compute. reflexivity.
Qed.

(** The whole scanner on [<a>x*<b>] with that registry: the [*] is data. *)
Example star_is_data :
  tokenizeJsxFlow smallTag noExpression (snd starOverlay) (fst starOverlay)
    20 (at_start [60; 97; 62; 120; 42; 60; 98; 62])
  = (ok,
     mkTState []
       [(Enter, "mdxJsxFlowTag"%string); (Exit, "mdxJsxFlowTag"%string);
        (Enter, "data"%string); (Exit, "data"%string);
        (Enter, "data"%string); (Exit, "data"%string);
        (Enter, "mdxJsxFlowTag"%string); (Exit, "mdxJsxFlowTag"%string)]
       (Some 62), []).
Proof. vm_compute. reflexivity. Qed.

End FlowFacts.

Module RegistryFacts.
Import Registry Fixtures.

Lemma set_prop_length h o code v :
  List.length (set_prop h o code v) = List.length h.
Proof.
  unfold set_prop. repeat case_match; auto. apply length_insert.
Qed.

(** A write to the record at [o] leaves the cells below [o] alone. *)
Lemma set_prop_take h o code v n :
  (n <= o)%nat -> take n (set_prop h o code v) = take n h.
Proof.
  intros Hn. unfold set_prop. repeat case_match; auto.
  apply take_insert_ge. exact Hn.
Qed.

Lemma removeConstruct_length h ic code nm :
  (List.length h <= List.length (removeConstruct h ic code nm))%nat.
Proof.
  unfold removeConstruct.
  repeat case_match;
    rewrite ?set_prop_length, ?length_app; simpl; lia.
Qed.

(** [removeConstruct] writes to the overlay record and to a fresh array
    only. *)
Lemma removeConstruct_take h ic code nm n :
  (n <= ic)%nat -> (n <= List.length h)%nat ->
  take n (removeConstruct h ic code nm) = take n h.
Proof.
  intros Hic Hlen. unfold removeConstruct.
  repeat case_match;
    rewrite ?set_prop_take by exact Hic; try reflexivity.
  apply take_app_le. exact Hlen.
Qed.

(** C8: the overlay is a fresh record, and building it with its five
    [removeConstruct] calls leaves every cell of the heap it started from
    as it was: [this.parser.constructs.text], the arrays and the
    constructs it refers to. *)
Theorem overlay_frame (h : Heap) (text : loc) :
  fst (overlay h text) = List.length h /\
  take (List.length h) (snd (overlay h text)) = h.
Proof.
  unfold overlay, object_assign_empty. simpl. split; [reflexivity|].
  set (h0 := h ++ [CObj (props_of h text)]).
  assert (H0 : (List.length h <= List.length h0)%nat).
  { unfold h0. rewrite length_app. lia. }
  assert (T0 : take (List.length h) h0 = h).
  { unfold h0. rewrite take_app_le by lia. apply firstn_all. }
  repeat match goal with
  | |- take _ (removeConstruct ?x _ _ _) = _ =>
      rewrite removeConstruct_take;
      [ | lia
        | repeat (etransitivity; [|apply removeConstruct_length]);
          exact H0 ]
  end.
  exact T0.
Qed.

(** The overlay does differ from the registry it copies: the entry of [*]
    is shared, the entries the scanner handles itself are replaced. *)
Example overlay_star :
  get (snd starOverlay) (fst starOverlay) (Some codes.asterisk)
  = get starText 0%nat (Some codes.asterisk) /\
  take 3 (snd starOverlay) = starText.
Proof. vm_compute. split; reflexivity. Qed.




End RegistryFacts.

Module SyntaxFacts.
Import Syntax.

(** C9: [mdxJsx] throws exactly when parser options or a true
    [addResult] come without a parser, or the parser lacks [parse] or
    [parseExpressionAt]; otherwise it returns an extension whose [flow] and
    [text] records map [<], and nothing else, to the flow scanner and to
    the text construct. *)
Theorem mdxJsx_configuration (options : option Options) :
  let settings := settings_of options in
  ((exists msg, mdxJsx options = Throw msg) <->
   (acorn settings = None /\
    (acornOptions settings <> None \/ addResult settings = Some true)) \/
   (exists a, acorn settings = Some a /\
              (parse a = None \/ parseExpressionAt a = None))) /\
  (forall ext, mdxJsx options = Val ext ->
     exists a co,
       flow ext = {[ codes.lessThan := jsxFlow a co ]} /\
       text ext = {[ codes.lessThan := jsxText a co ]} /\
       a = acorn settings).
Proof.
  intros settings. unfold mdxJsx. fold settings.
  destruct (acorn settings) as [a|] eqn:Ha.
  - destruct (parse a) as [p|] eqn:Hp;
      [destruct (parseExpressionAt a) as [q|] eqn:Hq|].
    + split.
      * split.
        -- intros [msg Hm]. discriminate.
        -- intros [[Hn _]|(a' & Ha' & [Hx|Hx])]; [discriminate| |];
             injection Ha' as <-; congruence.
      * intros ext [= <-]. eexists _, _. simpl. eauto.
    + split.
      * split; [|eauto]. intros _. right. exists a. auto.
      * intros ext Hx. discriminate.
    + split.
      * split; [|eauto]. intros _. right. exists a. auto.
      * intros ext Hx. discriminate.
  - destruct (acornOptions settings) as [ao|] eqn:Hao.
    + split.
      * split; [|eauto]. intros _. left. split; [reflexivity|].
        left. discriminate.
      * intros ext Hx. discriminate.
    + destruct (addResult settings) as [[|]|] eqn:Har; simpl.
      * split.
        -- split; [|eauto]. intros _. left. auto.
        -- intros ext Hx. discriminate.
      * split.
        -- split.
           ++ intros [msg Hm]. discriminate.
           ++ intros [[_ [Hx|Hx]]|(a & Hx & _)]; congruence.
        -- intros ext [= <-]. eexists _, _. simpl. eauto.
      * split.
        -- split.
           ++ intros [msg Hm]. discriminate.
           ++ intros [[_ [Hx|Hx]]|(a & Hx & _)]; congruence.
        -- intros ext [= <-]. eexists _, _. simpl. eauto.
Qed.

End SyntaxFacts.

Module ResolverFacts.
Import Resolver ResolverSpec.

(** *** The backward scan against the trailing run of the flat codes *)

Lemma charCodeAt_units s i :
  units_of_string s !! i = UChar <$> charCodeAt s i.
Proof.
  revert i. induction s as [|a s IH]; intros i; simpl.
  - destruct i; reflexivity.
  - destruct i as [|i]; simpl; [reflexivity|].
    rewrite IH. unfold charCodeAt. simpl. reflexivity.
Qed.

Lemma units_of_string_length s :
  List.length (units_of_string s) = String.length s.
Proof. induction s as [|a s IH]; simpl; congruence. Qed.

Lemma units_of_app l1 l2 : units_of (l1 ++ l2) = units_of l1 ++ units_of l2.
Proof.
  induction l1 as [|[s|c] l1 IH]; simpl; rewrite ?IH, ?app_assoc; reflexivity.
Qed.

Lemma strip_spec s before n size :
  (n <= String.length s)%nat ->
  trailing (rev (take n (units_of_string s)) ++ before)
  = (if (fst (strip s n size) =? 0)%nat
     then (fst (trailing before) + (snd (strip s n size) - size),
           snd (trailing before))
     else (snd (strip s n size) - size, false)).
Proof.
  revert size. induction n as [|n IH]; intros size Hn.
  - simpl. destruct (trailing before). simpl. f_equal. lia.
  - assert (Hlt : (n < List.length (units_of_string s))%nat)
      by (rewrite units_of_string_length; lia).
    destruct (lookup_lt_is_Some_2 _ _ Hlt) as [u Hu].
    rewrite (take_S_r _ _ _ Hu), rev_app_distr. simpl.
    rewrite charCodeAt_units in Hu.
    destruct (charCodeAt s n) as [c|] eqn:Hc; [|discriminate].
    injection Hu as <-.
    destruct (c =? codes.space) eqn:Hsp.
    + rewrite (IH (size + 1)) by lia.
      destruct (fst (strip s n (size + 1)) =? 0)%nat;
        destruct (trailing before); simpl; f_equal; lia.
    + simpl. f_equal. lia.
Qed.

Lemma scan_spec chunks index bufferIndex size tabs :
  (index <= List.length chunks)%nat ->
  let sc := scan chunks index bufferIndex size tabs in
  (s_size sc, s_tabs sc)
  = add_run size tabs (trailing (rev (units_of (take index chunks)))).
Proof.
  revert bufferIndex size tabs.
  induction index as [|i IH]; intros bufferIndex size tabs Hi sc.
  - subst sc. unfold add_run. simpl. f_equal; [lia|]. symmetry. apply orb_false_r.
  - assert (Hlt : (i < List.length chunks)%nat) by lia.
    destruct (lookup_lt_is_Some_2 _ _ Hlt) as [chunk Hchunk].
    rewrite (take_S_r _ _ _ Hchunk), units_of_app, rev_app_distr.
    subst sc. simpl scan. rewrite Hchunk.
    destruct chunk as [s|c]; simpl units_of.
    + rewrite app_nil_r.
      pose proof (strip_spec s (rev (units_of (take i chunks)))
                    (String.length s) size (le_n _)) as Hs.
      rewrite <- units_of_string_length in Hs at 1.
      rewrite firstn_all in Hs. rewrite Hs.
      destruct (strip s (String.length s) size) as [b size'] eqn:Hst.
      simpl fst. simpl snd.
      destruct (b =? 0)%nat eqn:Hb; simpl negb; cbv iota.
      * specialize (IH (-1) size' tabs (Nat.lt_le_incl _ _ Hlt)).
        simpl in IH. rewrite IH. unfold add_run. simpl. f_equal. lia.
      * unfold add_run. simpl. f_equal. lia. symmetry. apply orb_false_r.
    + simpl rev. simpl app.
      cbn [trailing].
      destruct (c =? codes.horizontalTab) eqn:Htab.
      * specialize (IH bufferIndex (size + 1) true (Nat.lt_le_incl _ _ Hlt)).
        simpl in IH. rewrite IH. unfold add_run.
        destruct (trailing (rev (units_of (take i chunks)))). simpl.
        f_equal. lia. symmetry. apply orb_true_r.
      * destruct (c =? codes.virtualSpace) eqn:Hv.
        -- apply IH. lia.
        -- unfold add_run. simpl. f_equal. lia. symmetry. apply orb_false_r.
Qed.

(** The scan finds the size and the tab flag of the trailing run. *)
Lemma scan_chunks_spec chunks :
  (s_size (scan_chunks chunks), s_tabs (scan_chunks chunks))
  = trailing_run chunks.
Proof.
  unfold scan_chunks, trailing_run.
  rewrite (scan_spec chunks (List.length chunks) (-1) 0 false (le_n _)).
  rewrite firstn_all. unfold add_run.
  destruct (trailing (rev (units_of chunks))). reflexivity.
Qed.

(** *** One iteration of the first loop *)

Lemma event_at_nat events n : event_at events (Z.of_nat n) = events !! n.
Proof.
  unfold event_at. destruct (Z.ltb_spec (Z.of_nat n) 0); [lia|].
  rewrite Nat2Z.id. reflexivity.
Qed.

Lemma is_type_lookup ty store (events : list Event) (n : nat) k r :
  events !! n = Some (k, r) ->
  is_type ty store events (Z.of_nat n) = ref_is ty store r.
Proof.
  intros H. unfold is_type, token_at, ref_is. rewrite event_at_nat, H.
  reflexivity.
Qed.

Lemma is_type_beyond ty store (events : list Event) (n : nat) :
  events !! n = None -> is_type ty store events (Z.of_nat n) = false.
Proof.
  intros H. unfold is_type, token_at. rewrite event_at_nat, H. reflexivity.
Qed.

Lemma merge_step_exit f n enter store events :
  (List.length events < n)%nat ->
  merge_loop (S f) (Z.of_nat n - 1) enter store events = Some (store, events).
Proof.
  intros H. simpl.
  replace (Z.of_nat n - 1 + 1) with (Z.of_nat n) by lia.
  destruct (Z.leb_spec (Z.of_nat n) (Z.of_nat (List.length events)));
    [lia|].
  reflexivity.
Qed.

Lemma merge_step_out_data f n store events :
  (n <= List.length events)%nat ->
  is_type types.data store events (Z.of_nat n) = true ->
  merge_loop (S f) (Z.of_nat n - 1) None store events
  = merge_loop f (Z.of_nat (n + 2) - 1) (Some (Z.of_nat n)) store events.
Proof.
  intros H Hd. simpl.
  replace (Z.of_nat n - 1 + 1) with (Z.of_nat n) by lia.
  destruct (Z.leb_spec (Z.of_nat n) (Z.of_nat (List.length events)));
    [|lia].
  rewrite Hd. f_equal. lia.
Qed.

Lemma merge_step_out_other f n store events :
  (n <= List.length events)%nat ->
  is_type types.data store events (Z.of_nat n) = false ->
  merge_loop (S f) (Z.of_nat n - 1) None store events
  = merge_loop f (Z.of_nat (n + 1) - 1) None store events.
Proof.
  intros H Hd. simpl.
  replace (Z.of_nat n - 1 + 1) with (Z.of_nat n) by lia.
  destruct (Z.leb_spec (Z.of_nat n) (Z.of_nat (List.length events)));
    [|lia].
  rewrite Hd. f_equal. lia.
Qed.

Lemma merge_step_in_data f n e store events :
  (n <= List.length events)%nat ->
  is_type types.data store events (Z.of_nat n) = true ->
  merge_loop (S f) (Z.of_nat n - 1) (Some e) store events
  = merge_loop f (Z.of_nat (n + 1) - 1) (Some e) store events.
Proof.
  intros H Hd. simpl.
  replace (Z.of_nat n - 1 + 1) with (Z.of_nat n) by lia.
  destruct (Z.leb_spec (Z.of_nat n) (Z.of_nat (List.length events)));
    [|lia].
  rewrite Hd. simpl. f_equal. lia.
Qed.

Lemma merge_step_in_single f n e store events :
  (n <= List.length events)%nat ->
  is_type types.data store events (Z.of_nat n) = false ->
  n = (e + 2)%nat ->
  merge_loop (S f) (Z.of_nat n - 1) (Some (Z.of_nat e)) store events
  = merge_loop f (Z.of_nat (n + 1) - 1) None store events.
Proof.
  intros H Hd He. simpl.
  replace (Z.of_nat n - 1 + 1) with (Z.of_nat n) by lia.
  destruct (Z.leb_spec (Z.of_nat n) (Z.of_nat (List.length events)));
    [|lia].
  rewrite Hd. simpl.
  destruct (Z.eqb_spec (Z.of_nat n) (Z.of_nat e + 2)); [|lia].
  simpl. f_equal. lia.
Qed.

Lemma merge_step_in_merge f n e store events :
  (n <= List.length events)%nat ->
  is_type types.data store events (Z.of_nat n) = false ->
  (e + 2 < n)%nat ->
  merge_loop (S f) (Z.of_nat n - 1) (Some (Z.of_nat e)) store events
  = merge_loop f (Z.of_nat (e + 3) - 1) None
      (assign_end store events (Z.of_nat e) (Z.of_nat (n - 1)))
      (take (e + 2) events ++ drop n events).
Proof.
  intros H Hd He. simpl.
  replace (Z.of_nat n - 1 + 1) with (Z.of_nat n) by lia.
  destruct (Z.leb_spec (Z.of_nat n) (Z.of_nat (List.length events)));
    [|lia].
  rewrite Hd. simpl.
  destruct (Z.eqb_spec (Z.of_nat n) (Z.of_nat e + 2)); [lia|].
  simpl. unfold splice_remove.
  replace (Z.to_nat (Z.of_nat e + 2)) with (e + 2)%nat by lia.
  replace (Z.to_nat (Z.of_nat e + 2 + (Z.of_nat n - Z.of_nat e - 2)))
    with n by lia.
  replace (Z.of_nat n - 1) with (Z.of_nat (n - 1)) by lia.
  f_equal. lia.
Qed.

(** *** The first loop on items *)

Lemma ref_is_alter ty store a p (r : nat) :
  ref_is ty (alter (fun t => set_end t p) a store) r = ref_is ty store r.
Proof.
  unfold ref_is. destruct (decide (a = r)) as [->|Hne].
  - rewrite list_lookup_alter_eq. destruct (store !! r); reflexivity.
  - rewrite list_lookup_alter_ne by exact Hne. reflexivity.
Qed.

Lemma ref_is_copy_end ty store a z r :
  ref_is ty (copy_end store a z) r = ref_is ty store r.
Proof.
  unfold copy_end. destruct (store !! z); [apply ref_is_alter|reflexivity].
Qed.

Lemma ref_is_data_not store (r : nat) :
  match store !! r with
  | Some t => negb (String.eqb (type t) types.data)
  | None => false
  end = true ->
  ref_is types.data store r = false.
Proof.
  unfold ref_is. destruct (store !! r); [|discriminate].
  intros H. apply negb_true_iff in H. exact H.
Qed.

Lemma lookup_copy_end_type store a z (r : nat) :
  type <$> (copy_end store a z !! r) = type <$> (store !! r).
Proof.
  unfold copy_end. destruct (store !! z); [|reflexivity].
  destruct (decide (a = r)) as [->|Hne].
  - rewrite list_lookup_alter_eq. destruct (store !! r); reflexivity.
  - rewrite list_lookup_alter_ne by exact Hne. reflexivity.
Qed.

Lemma item_ok_copy_end store a z it :
  item_ok (copy_end store a z) it = item_ok store it.
Proof.
  destruct it as [r|[k r]]; simpl.
  - apply ref_is_copy_end.
  - pose proof (lookup_copy_end_type store a z r) as H.
    destruct (copy_end store a z !! r), (store !! r); simpl in H;
      try discriminate; try reflexivity.
    injection H as ->. reflexivity.
Qed.

Lemma items_ok_copy_end store a z items :
  forallb (item_ok (copy_end store a z)) items = forallb (item_ok store) items.
Proof.
  induction items as [|it items IH]; simpl; [reflexivity|].
  rewrite item_ok_copy_end, IH. reflexivity.
Qed.

Lemma lookup_boundary (pre mid : list Event) x rest :
  (pre ++ mid ++ x :: rest) !! (List.length pre + List.length mid)%nat = Some x.
Proof.
  rewrite app_assoc. apply list_lookup_middle. rewrite length_app. reflexivity.
Qed.

Lemma lookup_boundary_next (pre mid : list Event) x y rest :
  (pre ++ mid ++ x :: y :: rest) !! (List.length pre + List.length mid + 1)%nat
  = Some y.
Proof.
  replace (pre ++ mid ++ x :: y :: rest) with ((pre ++ mid ++ [x]) ++ y :: rest)
    by (rewrite <- !app_assoc; reflexivity).
  apply list_lookup_middle. rewrite !length_app. simpl. lia.
Qed.

Lemma lookup_boundary_end (pre mid : list Event) :
  (pre ++ mid ++ []) !! (List.length pre + List.length mid)%nat = None.
Proof.
  apply lookup_ge_None_2. rewrite !length_app. simpl. lia.
Qed.

Lemma last_ref_snoc a mid k z : last_ref a (mid ++ [(k, z)]) = z.
Proof. unfold last_ref. rewrite last_snoc. reflexivity. Qed.

(** The assignment of the merge reads the last event of the run. *)
Lemma assign_end_run store pre a (mid rest : list Event) :
  mid <> [] ->
  assign_end store (pre ++ (Enter, a) :: (Exit, a) :: mid ++ rest)
    (Z.of_nat (List.length pre))
    (Z.of_nat (List.length pre + List.length ((Enter, a) :: (Exit, a) :: mid) - 1))
  = copy_end store a (last_ref a mid).
Proof.
  intros Hmid. unfold assign_end, token_at. rewrite !event_at_nat.
  rewrite list_lookup_middle by reflexivity.
  assert (Hl : (pre ++ (Enter, a) :: (Exit, a) :: mid ++ rest)
               !! (List.length pre + List.length ((Enter, a) :: (Exit, a) :: mid) - 1)%nat
               = last mid).
  { rewrite lookup_app_r by (simpl; lia).
    replace (List.length pre + List.length ((Enter, a) :: (Exit, a) :: mid) - 1
             - List.length pre)%nat
      with (S (S (pred (List.length mid)))).
    2:{ destruct mid; [congruence|simpl; lia]. }
    simpl. rewrite lookup_app_l.
    2:{ destruct mid; [congruence|simpl; lia]. }
    symmetry. apply last_lookup. }
  rewrite Hl. unfold copy_end, last_ref.
  destruct (last mid) as [[k z]|] eqn:Hlast; [reflexivity|].
  apply last_None in Hlast. congruence.
Qed.

Lemma splice_run pre a (mid rest : list Event) :
  take (List.length pre + 2) (pre ++ (Enter, a) :: (Exit, a) :: mid ++ rest)
  ++ drop (List.length pre + List.length ((Enter, a) :: (Exit, a) :: mid))
       (pre ++ (Enter, a) :: (Exit, a) :: mid ++ rest)
  = pre ++ (Enter, a) :: (Exit, a) :: rest.
Proof.
  rewrite take_app_add, drop_app_add. simpl.
  rewrite drop_app_length, <- app_assoc. reflexivity.
Qed.

Lemma item_ok_data store r tl :
  forallb (item_ok store) (IData r :: tl) = true ->
  ref_is types.data store r = true /\ forallb (item_ok store) tl = true.
Proof. simpl. intros H. apply andb_true_iff in H. exact H. Qed.

Lemma item_ok_other store k r tl :
  forallb (item_ok store) (IOther (k, r) :: tl) = true ->
  ref_is types.data store r = false /\ forallb (item_ok store) tl = true.
Proof.
  simpl. intros H. apply andb_true_iff in H as [H1 H2].
  split; [apply ref_is_data_not, H1|exact H2].
Qed.

Lemma merge_loop_cong fuel i1 i2 e1 e2 store ev1 ev2 :
  i1 = i2 -> e1 = e2 -> ev1 = ev2 ->
  merge_loop fuel i1 e1 store ev1 = merge_loop fuel i2 e2 store ev2.
Proof. intros -> -> ->. reflexivity. Qed.

(** Continue with a statement [IH] about the loop a few events further. *)
Ltac loop_continue cong IH :=
  eapply eq_trans; [eapply eq_trans; [apply cong|exact IH]|];
  [ simpl; rewrite ?length_app; simpl; lia
  | simpl; try reflexivity; f_equal; rewrite ?length_app; simpl; lia
  | simpl; rewrite <- ?app_assoc; simpl; rewrite <- ?app_assoc; reflexivity
  | ].

Lemma item_ok_other_lt store k r tl :
  forallb (item_ok store) (IOther (k, r) :: tl) = true ->
  (r < List.length store)%nat.
Proof.
  simpl. intros H. apply andb_true_iff in H as [H _].
  destruct (store !! r) eqn:E; [|discriminate].
  eapply lookup_lt_Some. exact E.
Qed.

(** The first loop, standing at the items [tl], completes within its fuel
    and yields what [merge_from] describes. *)
Lemma merge_loop_items tl : forall st pre store fuel,
  forallb (item_ok store) tl = true ->
  (List.length (events_of tl) + 2 <= fuel)%nat ->
  merge_loop fuel
    (Z.of_nat (List.length pre + List.length (prefix_events st)) - 1)
    (enter_of pre st) store (pre ++ prefix_events st ++ events_of tl)
  = Some (fst (merge_from st store tl),
          pre ++ events_of (snd (merge_from st store tl))).
Proof.
  induction tl as [|it tl IH]; intros st pre store fuel Hok Hfuel.
  - (* no item left *)
    simpl in Hfuel. destruct fuel as [|[|fuel]]; try lia.
    destruct st as [|a mid].
    + simpl prefix_events. simpl enter_of.
      rewrite merge_step_out_other.
      2:{ rewrite !length_app. simpl. lia. }
      2:{ apply is_type_beyond. apply lookup_boundary_end. }
      rewrite merge_step_exit by (rewrite !length_app; simpl; lia).
      simpl. rewrite app_nil_r. reflexivity.
    + simpl enter_of. destruct mid as [|m mid].
      * rewrite merge_step_in_single.
        2:{ rewrite !length_app. simpl. lia. }
        2:{ apply is_type_beyond. apply lookup_boundary_end. }
        2:{ simpl. lia. }
        rewrite merge_step_exit by (rewrite !length_app; simpl; lia).
        simpl. reflexivity.
      * rewrite merge_step_in_merge.
        2:{ rewrite !length_app. simpl. lia. }
        2:{ apply is_type_beyond. apply lookup_boundary_end. }
        2:{ simpl. lia. }
        cbn [events_of]. rewrite app_nil_r. unfold prefix_events.
        pose proof (assign_end_run store pre a (m :: mid) []) as Ha.
        rewrite app_nil_r in Ha. rewrite Ha by discriminate.
        pose proof (splice_run pre a (m :: mid) []) as Hs.
        rewrite app_nil_r in Hs. rewrite Hs.
        rewrite merge_step_exit by (rewrite !length_app; simpl; lia).
        simpl. reflexivity.
  - destruct it as [z|[k r]].
    + (* a data item *)
      apply item_ok_data in Hok as [Hz Hok].
      simpl in Hfuel.
      destruct st as [|a mid].
      * destruct fuel as [|fuel]; [lia|].
        simpl prefix_events. simpl enter_of. cbn [events_of events_of_item].
        rewrite merge_step_out_data.
        2:{ rewrite !length_app. simpl. lia. }
        2:{ erewrite is_type_lookup; [exact Hz|].
            apply (lookup_boundary pre []). }
        specialize (IH (In z []) pre store fuel Hok ltac:(lia)).
        loop_continue merge_loop_cong IH.
        simpl.
        destruct tl as [|[z'|e'] tl']; simpl;
          repeat match goal with
          | |- context [let '(_, _) := ?x in _] => destruct x
          end; reflexivity.
      * destruct fuel as [|[|fuel]]; try lia.
        simpl enter_of. cbn [events_of events_of_item].
        rewrite merge_step_in_data.
        2:{ rewrite ?length_app; simpl; rewrite ?length_app; simpl; lia. }
        2:{ erewrite is_type_lookup; [exact Hz|].
            apply (lookup_boundary pre (prefix_events (In a mid))). }
        rewrite merge_step_in_data.
        2:{ rewrite ?length_app; simpl; rewrite ?length_app; simpl; lia. }
        2:{ erewrite is_type_lookup; [exact Hz|].
            apply (lookup_boundary_next pre (prefix_events (In a mid))). }
        specialize (IH (In a (mid ++ [(Enter, z); (Exit, z)])) pre store fuel
                      Hok ltac:(lia)).
        loop_continue merge_loop_cong IH.
        unfold merge_from.
        replace (mid ++ [(Enter, z); (Exit, z)])
          with ((mid ++ [(Enter, z)]) ++ [(Exit, z)])
          by (rewrite <- app_assoc; reflexivity).
        rewrite last_ref_snoc.
        replace (no_events ((mid ++ [(Enter, z)]) ++ [(Exit, z)])) with false
          by (destruct mid; reflexivity).
        simpl. rewrite orb_true_r. reflexivity.
    + (* another event *)
      apply item_ok_other in Hok as [Hr Hok].
      simpl in Hfuel. destruct fuel as [|fuel]; [lia|].
      destruct st as [|a mid].
      * simpl prefix_events. simpl enter_of. cbn [events_of events_of_item].
        rewrite merge_step_out_other.
        2:{ rewrite !length_app. simpl. lia. }
        2:{ erewrite is_type_lookup; [exact Hr|].
            apply (lookup_boundary pre []). }
        specialize (IH Out (pre ++ [(k, r)]) store fuel Hok ltac:(lia)).
        loop_continue merge_loop_cong IH.
        simpl.
        destruct (merge_items store false tl). simpl.
        rewrite <- app_assoc. reflexivity.
      * simpl enter_of. cbn [events_of events_of_item].
        destruct mid as [|m mid].
        -- rewrite merge_step_in_single.
           2:{ rewrite !length_app. simpl. lia. }
           2:{ erewrite is_type_lookup; [exact Hr|].
               apply (lookup_boundary pre (prefix_events (In a []))). }
           2:{ simpl. lia. }
           specialize (IH Out (pre ++ [(Enter, a); (Exit, a); (k, r)]) store
                         fuel Hok ltac:(lia)).
           loop_continue merge_loop_cong IH.
           simpl.
           destruct (merge_items store false tl). simpl.
           rewrite <- app_assoc. reflexivity.
        -- rewrite merge_step_in_merge.
           2:{ rewrite ?length_app; simpl; rewrite ?length_app; simpl; lia. }
           2:{ erewrite is_type_lookup; [exact Hr|].
               apply (lookup_boundary pre (prefix_events (In a (m :: mid)))). }
           2:{ simpl. lia. }
           unfold prefix_events.
           pose proof (assign_end_run store pre a (m :: mid)
                         ((k, r) :: events_of tl)) as Ha.
           pose proof (splice_run pre a (m :: mid)
                         ((k, r) :: events_of tl)) as Hs.
           simpl app. simpl app in Ha. simpl app in Hs.
           rewrite Ha by discriminate.
           simpl List.length in Hs. simpl List.length. rewrite Hs.
           set (store' := copy_end store a (last_ref a (m :: mid))).
           assert (Hok' : forallb (item_ok store') tl = true)
             by (unfold store'; rewrite items_ok_copy_end; exact Hok).
           specialize (IH Out (pre ++ [(Enter, a); (Exit, a); (k, r)]) store'
                         fuel Hok' ltac:(lia)).
           loop_continue merge_loop_cong IH.
           simpl. fold store'.
           destruct (merge_items store' false tl). simpl.
           rewrite <- app_assoc. reflexivity.
Qed.

(** The merge pass on the events of well-typed items. *)
Lemma merge_pass_items store items :
  forallb (item_ok store) items = true ->
  merge_loop (List.length (events_of items) + 2) (-1) None store
    (events_of items)
  = Some (fst (merge_items store false items),
          events_of (snd (merge_items store false items))).
Proof.
  intros Hok.
  exact (merge_loop_items items Out [] store _ Hok (le_n _)).
Qed.

(** *** What the merge pass keeps *)


Lemma copy_end_other store a z (r : nat) :
  r <> a -> copy_end store a z !! r = store !! r.
Proof.
  intros Hne. unfold copy_end. destruct (store !! z); [|reflexivity].
  apply list_lookup_alter_ne. congruence.
Qed.


(** The merge pass assigns to data tokens of the list only. *)
Lemma merge_items_frame items : forall store b (r : nat),
  r ∉ data_refs items ->
  fst (merge_items store b items) !! r = store !! r.
Proof.
  induction items as [|[z|e] tl IH]; intros store b r Hr; simpl.
  - reflexivity.
  - simpl in Hr. apply not_elem_of_cons in Hr as [Hne Hr].
    destruct b; [apply IH, Hr|].
    match goal with
    | |- context [merge_items ?s true tl] =>
        specialize (IH s true r Hr); destruct (merge_items s true tl)
    end.
    simpl in *. rewrite IH.
    destruct tl as [|[z'|e'] tl']; auto using copy_end_other.
  - specialize (IH store false r Hr). destruct (merge_items store false tl).
    exact IH.
Qed.

(** It changes no token type. *)
Lemma merge_items_types items : forall store b (r : nat),
  type <$> (fst (merge_items store b items) !! r) = type <$> (store !! r).
Proof.
  induction items as [|[z|e] tl IH]; intros store b r; simpl.
  - reflexivity.
  - destruct b; [apply IH|].
    match goal with
    | |- context [merge_items ?s true tl] =>
        specialize (IH s true r); destruct (merge_items s true tl)
    end.
    simpl in *. rewrite IH.
    destruct tl as [|[z'|e'] tl']; auto using lookup_copy_end_type.
  - specialize (IH store false r). destruct (merge_items store false tl).
    exact IH.
Qed.

Lemma item_ok_types store store' it :
  (forall r : nat, type <$> (store' !! r) = type <$> (store !! r)) ->
  item_ok store' it = item_ok store it.
Proof.
  intros H. destruct it as [z|[k r]]; simpl; unfold ref_is.
  - specialize (H z). destruct (store' !! z), (store !! z); simpl in H;
      try discriminate; try reflexivity.
    injection H as ->. reflexivity.
  - specialize (H r). destruct (store' !! r), (store !! r); simpl in H;
      try discriminate; try reflexivity.
    injection H as ->. reflexivity.
Qed.

Lemma items_ok_types store store' items :
  (forall r : nat, type <$> (store' !! r) = type <$> (store !! r)) ->
  forallb (item_ok store') items = forallb (item_ok store) items.
Proof.
  intros H. induction items as [|it items IH]; simpl; [reflexivity|].
  rewrite (item_ok_types store store' it H), IH. reflexivity.
Qed.

(** Its items are items of the list, in order. *)
Lemma merge_items_sublist items : forall store b,
  sublist (snd (merge_items store b items)) items.
Proof.
  induction items as [|[z|e] tl IH]; intros store b; simpl.
  - constructor.
  - destruct b; [apply sublist_cons, IH|].
    match goal with
    | |- context [merge_items ?s true tl] =>
        specialize (IH s true); destruct (merge_items s true tl)
    end.
    simpl in *. apply sublist_skip, IH.
  - specialize (IH store false). destruct (merge_items store false tl).
    simpl in *. apply sublist_skip, IH.
Qed.

Lemma data_refs_sublist l1 l2 :
  sublist l1 l2 -> sublist (data_refs l1) (data_refs l2).
Proof.
  induction 1 as [|[z|e] l1 l2 H IH|[z|e] l1 l2 H IH]; simpl.
  - constructor.
  - apply sublist_skip, IH.
  - exact IH.
  - apply sublist_cons, IH.
  - exact IH.
Qed.

Lemma items_ok_sublist store l1 l2 :
  sublist l1 l2 ->
  forallb (item_ok store) l2 = true -> forallb (item_ok store) l1 = true.
Proof.
  induction 1 as [|it l1 l2 H IH|it l1 l2 H IH]; simpl; intros Hok.
  - reflexivity.
  - apply andb_true_iff in Hok as [H1 H2]. rewrite H1. simpl. auto.
  - apply andb_true_iff in Hok as [H1 H2]. auto.
Qed.

(** The merge pass keeps the items well-formed. *)
Lemma merge_items_wf store items :
  wf store items ->
  wf (fst (merge_items store false items)) (snd (merge_items store false items)).
Proof.
  intros [Hnd Hok]. split.
  - eapply sublist_NoDup; [exact Hnd|].
    apply data_refs_sublist, merge_items_sublist.
  - rewrite (items_ok_types store) by (intros r; apply merge_items_types).
    eapply items_ok_sublist; [apply merge_items_sublist|exact Hok].
Qed.

(** After the merge pass no two data items are adjacent. *)
Lemma merge_items_separated items : forall store b,
  separated (snd (merge_items store b items)) = true /\
  (b = true -> starts_data (snd (merge_items store b items)) = false).
Proof.
  induction items as [|[z|e] tl IH]; intros store b; simpl.
  - auto.
  - destruct b; [apply IH|].
    match goal with
    | |- context [merge_items ?s true tl] =>
        specialize (IH s true); destruct (merge_items s true tl)
    end.
    destruct IH as [IH1 IH2]. simpl in *. split; [|discriminate].
    rewrite (IH2 eq_refl), IH1. reflexivity.
  - specialize (IH store false). destruct (merge_items store false tl).
    destruct IH as [IH1 _]. simpl in *. auto.
Qed.

(** On such items the merge pass does nothing. *)
Lemma merge_items_id items : forall store b,
  separated items = true ->
  (b = true -> starts_data items = false) ->
  merge_items store b items = (store, items).
Proof.
  induction items as [|[z|e] tl IH]; intros store b Hsep Hb; simpl.
  - reflexivity.
  - destruct b; [specialize (Hb eq_refl); discriminate|].
    simpl in Hsep. apply andb_true_iff in Hsep as [Hh Hsep].
    apply negb_true_iff in Hh.
    rewrite (IH _ true Hsep (fun _ => Hh)).
    destruct tl as [|[z'|e'] tl']; try reflexivity. discriminate.
  - simpl in Hsep. rewrite (IH store false Hsep ltac:(discriminate)).
    reflexivity.
Qed.

(** *** The merge pass around one maximal run *)

Lemma data_refs_app l1 l2 : data_refs (l1 ++ l2) = data_refs l1 ++ data_refs l2.
Proof.
  induction l1 as [|[z|e] l1 IH]; simpl; rewrite ?IH; reflexivity.
Qed.

Lemma data_refs_map rest : data_refs (map IData rest) = rest.
Proof. induction rest as [|z rest IH]; simpl; rewrite ?IH; reflexivity. Qed.

Lemma events_of_app l1 l2 : events_of (l1 ++ l2) = events_of l1 ++ events_of l2.
Proof.
  induction l1 as [|it l1 IH]; simpl; rewrite ?IH, ?app_assoc; reflexivity.
Qed.

(** The items the merge pass leaves do not depend on the store. *)
Lemma merge_items_snd items : forall s s' b,
  snd (merge_items s b items) = snd (merge_items s' b items).
Proof.
  induction items as [|[z|e] tl IH]; intros s s' b; simpl.
  - reflexivity.
  - destruct b; [apply IH|].
    match goal with
    | |- (let '(_, _) := merge_items ?s1 true tl in _).2
         = (let '(_, _) := merge_items ?s2 true tl in _).2 =>
        specialize (IH s1 s2 true);
        destruct (merge_items s1 true tl), (merge_items s2 true tl)
    end.
    simpl in *. congruence.
  - specialize (IH s s' false).
    destruct (merge_items s false tl), (merge_items s' false tl).
    simpl in *. congruence.
Qed.

Lemma ends_data_cons it l :
  l <> [] -> ends_data (it :: l) = ends_data l.
Proof. destruct l; [congruence|reflexivity]. Qed.

Lemma ends_data_nonempty z l : ends_data (IData z :: l) = false -> l <> [].
Proof. destruct l; [discriminate|discriminate]. Qed.

Lemma run_last_app z l X :
  ends_data l = false -> l <> [] -> run_last z (l ++ X) = run_last z l.
Proof.
  revert z. induction l as [|[z'|e] l IH]; intros z Hend Hne.
  - congruence.
  - simpl. pose proof (ends_data_nonempty _ _ Hend) as Hl.
    rewrite ends_data_cons in Hend by exact Hl. apply IH; assumption.
  - reflexivity.
Qed.

(** A list that does not end inside a run is merged on its own. *)
Lemma merge_items_app before X : forall store b,
  ends_data before = false ->
  (before = [] -> b = false) ->
  merge_items store b (before ++ X)
  = (fst (merge_items (fst (merge_items store b before)) false X),
     snd (merge_items store b before)
     ++ snd (merge_items (fst (merge_items store b before)) false X)).
Proof.
  induction before as [|[z|e] before IH]; intros store b Hend Hb.
  - rewrite (Hb eq_refl). simpl.
    destruct (merge_items store false X). reflexivity.
  - pose proof (ends_data_nonempty _ _ Hend) as Hne.
    rewrite ends_data_cons in Hend by exact Hne.
    simpl. destruct b.
    + apply IH; [exact Hend|congruence].
    + assert (Hst : match before ++ X with
                    | IData _ :: _ =>
                        copy_end store z (run_last z (before ++ X))
                    | _ => store
                    end
                    = match before with
                      | IData _ :: _ => copy_end store z (run_last z before)
                      | _ => store
                      end).
      { rewrite run_last_app by assumption.
        destruct before as [|[z'|e'] before']; [congruence| |]; reflexivity. }
      rewrite Hst.
      rewrite IH by (exact Hend || congruence).
      destruct (merge_items _ true before) as [s1 r1]. simpl.
      reflexivity.
  - simpl.
    assert (Hend' : ends_data before = false)
      by (destruct before; [reflexivity|exact Hend]).
    rewrite IH by (exact Hend' || reflexivity).
    destruct (merge_items store false before) as [s1 r1]. simpl. reflexivity.
Qed.

Lemma last_default (l : list nat) x d1 d2 :
  List.last (x :: l) d1 = List.last (x :: l) d2.
Proof.
  revert x. induction l as [|y l IH]; intros x; [reflexivity|].
  change (List.last (y :: l) d1 = List.last (y :: l) d2). apply IH.
Qed.

Lemma run_last_run a rest after :
  starts_data after = false ->
  run_last a (map IData rest ++ after) = List.last rest a.
Proof.
  intros Hafter. revert a. induction rest as [|z rest IH]; intros a.
  - simpl. destruct after as [|[z|e] after]; [reflexivity|discriminate|
                                               reflexivity].
  - simpl map. simpl app. cbn [run_last]. rewrite IH.
    destruct rest as [|y rest]; [reflexivity|].
    change (List.last (y :: rest) z = List.last (y :: rest) a).
    apply last_default.
Qed.

Lemma merge_items_in_run rest after store :
  starts_data after = false ->
  merge_items store true (map IData rest ++ after)
  = merge_items store false after.
Proof.
  intros Hafter. induction rest as [|z rest IH]; simpl.
  - destruct after as [|[z|e] after]; [reflexivity|discriminate|reflexivity].
  - exact IH.
Qed.

(** The merge pass on a maximal run between [before] and [after]. *)
Lemma merge_items_run store before a rest after :
  ends_data before = false ->
  starts_data after = false ->
  let s1 := fst (merge_items store false before) in
  let s2 := match rest with
            | [] => s1
            | _ => copy_end s1 a (List.last rest a)
            end in
  merge_items store false (before ++ IData a :: map IData rest ++ after)
  = (fst (merge_items s2 false after),
     snd (merge_items store false before)
     ++ IData a :: snd (merge_items store false after)).
Proof.
  intros Hend Hafter s1 s2.
  rewrite merge_items_app by (exact Hend || reflexivity).
  fold s1. cbn [merge_items].
  rewrite merge_items_in_run by exact Hafter.
  assert (Hs2 : match map IData rest ++ after with
                | IData _ :: _ =>
                    copy_end s1 a (run_last a (map IData rest ++ after))
                | _ => s1
                end = s2).
  { rewrite run_last_run by exact Hafter. subst s2.
    destruct rest as [|z rest]; simpl; [|reflexivity].
    destruct after as [|[z|e] after]; [reflexivity|discriminate|reflexivity]. }
  rewrite Hs2.
  rewrite (merge_items_snd after store s2 false).
  destruct (merge_items s2 false after) as [s3 r3]. reflexivity.
Qed.

(** *** Stores that agree on the items to come *)

Lemma ref_is_data_lineEnding store r :
  ref_is types.data store r = true -> ref_is types.lineEnding store r = false.
Proof.
  unfold ref_is. destruct (store !! r) as [t|]; [|discriminate].
  intros H. apply String.eqb_eq in H. rewrite H. reflexivity.
Qed.

Lemma item_ok_insert store d tok it :
  ref_is types.data store d = true ->
  d ∉ data_refs [it] ->
  item_ok store it = true ->
  item_ok (<[d := tok]> store) it = true.
Proof.
  intros Hd Hnot Hok. destruct it as [z|[k r]]; simpl in *.
  - unfold ref_is in *. rewrite list_lookup_insert_ne; [exact Hok|].
    intros ->. apply Hnot. left.
  - destruct (decide (d = r)) as [->|Hne].
    + unfold ref_is in Hd. destruct (store !! r); [|discriminate].
      rewrite Hd in Hok. discriminate.
    + rewrite list_lookup_insert_ne by exact Hne. exact Hok.
Qed.

Lemma item_ok_app store extra it :
  item_ok store it = true -> item_ok (store ++ extra) it = true.
Proof.
  destruct it as [z|[k r]]; simpl; unfold ref_is.
  - destruct (store !! z) eqn:E; [|discriminate].
    rewrite (lookup_app_l_Some _ _ _ _ E). auto.
  - destruct (store !! r) eqn:E; [|discriminate].
    rewrite (lookup_app_l_Some _ _ _ _ E). auto.
Qed.

Lemma items_ok_insert store d tok items :
  ref_is types.data store d = true ->
  d ∉ data_refs items ->
  forallb (item_ok store) items = true ->
  forallb (item_ok (<[d := tok]> store)) items = true.
Proof.
  intros Hd. induction items as [|it items IH]; intros Hnot Hok; simpl in *;
    [reflexivity|].
  apply andb_true_iff in Hok as [H1 H2]. apply andb_true_iff. split.
  - apply item_ok_insert; auto. destruct it as [z|e]; simpl in *.
    + apply not_elem_of_cons in Hnot as [Hne _].
      apply not_elem_of_cons. split; [exact Hne|apply not_elem_of_nil].
    + apply not_elem_of_nil.
  - apply IH; auto. destruct it as [z|e]; simpl in *.
    + apply not_elem_of_cons in Hnot as [_ Hrest]. exact Hrest.
    + exact Hnot.
Qed.

Lemma items_ok_app store extra items :
  forallb (item_ok store) items = true ->
  forallb (item_ok (store ++ extra)) items = true.
Proof.
  induction items as [|it items IH]; simpl; [reflexivity|].
  intros Hok. apply andb_true_iff in Hok as [H1 H2]. apply andb_true_iff.
  split; [apply item_ok_app, H1|apply IH, H2].
Qed.

Lemma no_events_items tl : no_events (events_of tl) = is_nil tl.
Proof. destruct tl as [|[z|e] tl]; reflexivity. Qed.

(** The first half of the test behind a data item is [next_is_line_end]. *)
Lemma line_end_test store pre d tl :
  forallb (item_ok store) tl = true ->
  (Z.of_nat (List.length pre + 1 + 1)
   =? Z.of_nat (List.length (pre ++ (Enter, d) :: (Exit, d) :: events_of tl)))
  || is_type types.lineEnding store
       (pre ++ (Enter, d) :: (Exit, d) :: events_of tl)
       (Z.of_nat (List.length pre + 1 + 1))
  = next_is_line_end store tl.
Proof.
  intros Hok.
  assert (Hat : forall x rest,
             (pre ++ (Enter, d) :: (Exit, d) :: x :: rest)
             !! (List.length pre + 1 + 1)%nat = Some x).
  { intros x rest.
    replace (pre ++ (Enter, d) :: (Exit, d) :: x :: rest)
      with ((pre ++ [(Enter, d); (Exit, d)]) ++ x :: rest)
      by (rewrite <- app_assoc; reflexivity).
    apply list_lookup_middle. rewrite length_app. simpl. lia. }
  destruct tl as [|[z|[k r]] tl]; simpl.
  - rewrite length_app. simpl.
    replace (Z.of_nat (List.length pre + 1 + 1)
             =? Z.of_nat (List.length pre + 2)) with true
      by (symmetry; apply Z.eqb_eq; lia).
    reflexivity.
  - apply item_ok_data in Hok as [Hz _].
    rewrite (is_type_lookup _ _ _ _ _ _ (Hat _ _)).
    rewrite (ref_is_data_lineEnding _ _ Hz), orb_false_r.
    apply Z.eqb_neq. rewrite length_app. simpl. lia.
  - rewrite (is_type_lookup _ _ _ _ _ _ (Hat _ _)).
    replace (Z.of_nat (List.length pre + 1 + 1)
             =? Z.of_nat (List.length
                            (pre ++ (Enter, d) :: (Exit, d) :: (k, r)
                                 :: events_of tl))) with false
      by (symmetry; apply Z.eqb_neq; rewrite length_app; simpl; lia).
    reflexivity.
Qed.

(** *** One iteration of the second loop *)

Section WithContext.
Variable sliceStream : Token -> list Chunk.

Local Abbreviation suffix_loop := (suffix_loop sliceStream).
Local Abbreviation reclassify := (reclassify sliceStream).
Local Abbreviation suffix_items := (suffix_items sliceStream).

(** The test of the second loop at [eventIndex = n]. *)
Lemma suffix_step_exit f n store events :
  (List.length events <= n)%nat ->
  suffix_loop (S f) (Z.of_nat n) store events = Some (store, events).
Proof.
  intros H. simpl.
  destruct (Z.leb_spec (Z.of_nat n + 1) (Z.of_nat (List.length events)));
    [lia|].
  reflexivity.
Qed.

Lemma suffix_step_skip f n store events :
  (n < List.length events)%nat ->
  ((Z.of_nat (n + 1) =? Z.of_nat (List.length events))
   || is_type types.lineEnding store events (Z.of_nat (n + 1)))
  && is_type types.data store events (Z.of_nat n) = false ->
  suffix_loop (S f) (Z.of_nat n) store events
  = suffix_loop f (Z.of_nat (n + 1)) store events.
Proof.
  intros H Hc. simpl.
  destruct (Z.leb_spec (Z.of_nat n + 1) (Z.of_nat (List.length events)));
    [|lia].
  replace (Z.of_nat n + 1) with (Z.of_nat (n + 1)) by lia.
  replace (Z.of_nat (n + 1) - 1) with (Z.of_nat n) by lia.
  rewrite Hc. reflexivity.
Qed.

Lemma suffix_step_hit f n store events :
  (n < List.length events)%nat ->
  ((Z.of_nat (n + 1) =? Z.of_nat (List.length events))
   || is_type types.lineEnding store events (Z.of_nat (n + 1)))
  && is_type types.data store events (Z.of_nat n) = true ->
  suffix_loop (S f) (Z.of_nat n) store events
  = let '(store', events', eventIndex') :=
      reclassify store events (Z.of_nat (n + 1)) in
    suffix_loop f (eventIndex' + 1) store' events'.
Proof.
  intros H Hc. simpl.
  destruct (Z.leb_spec (Z.of_nat n + 1) (Z.of_nat (List.length events)));
    [|lia].
  replace (Z.of_nat n + 1) with (Z.of_nat (n + 1)) by lia.
  replace (Z.of_nat (n + 1) - 1) with (Z.of_nat n) by lia.
  rewrite Hc. reflexivity.
Qed.

(** The body of the [if] right behind the data item [d]. *)
Lemma reclassify_at store pre d (rest : list Event) data :
  store !! d = Some data ->
  reclassify store (pre ++ (Enter, d) :: (Exit, d) :: rest)
    (Z.of_nat (List.length pre + 1 + 1))
  = let sc := scan_chunks (sliceStream data) in
    if negb (s_size sc =? 0) then
      let token := suffix_token data sc (no_events rest) in
      if offset (start data) =? offset (start token)
      then (<[d := token]> store, pre ++ (Enter, d) :: (Exit, d) :: rest,
            Z.of_nat (List.length pre + 2))
      else
        let t := List.length store in
        (<[d := set_end data (start token)]> store ++ [token],
         pre ++ (Enter, d) :: (Exit, d) :: (Enter, t) :: (Exit, t) :: rest,
         Z.of_nat (List.length pre + 4))
    else (store, pre ++ (Enter, d) :: (Exit, d) :: rest,
          Z.of_nat (List.length pre + 2)).
Proof.
  intros Hd. unfold Resolver.reclassify.
  replace (Z.of_nat (List.length pre + 1 + 1) - 1)
    with (Z.of_nat (List.length pre + 1)) by lia.
  rewrite event_at_nat.
  assert (Hl : (pre ++ (Enter, d) :: (Exit, d) :: rest)
               !! (List.length pre + 1)%nat = Some (Exit, d)).
  { replace (pre ++ (Enter, d) :: (Exit, d) :: rest)
      with ((pre ++ [(Enter, d)]) ++ (Exit, d) :: rest)
      by (rewrite <- app_assoc; reflexivity).
    apply list_lookup_middle. rewrite length_app. simpl. lia. }
  rewrite Hl.
  rewrite Hd. cbv zeta.
  assert (Hlast : (Z.of_nat (List.length pre + 1 + 1)
                   =? Z.of_nat (List.length
                                  (pre ++ (Enter, d) :: (Exit, d) :: rest)))
                  = no_events rest).
  { rewrite length_app. simpl. destruct rest; simpl.
    - apply Z.eqb_eq. lia.
    - apply Z.eqb_neq. lia. }
  rewrite Hlast.
  destruct (negb (s_size (scan_chunks (sliceStream data)) =? 0));
    [|f_equal; f_equal; lia].
  destruct (offset (start data)
            =? offset (start (suffix_token data
                                (scan_chunks (sliceStream data))
                                (no_events rest))));
    [f_equal; f_equal; lia|].
  f_equal; [f_equal|lia].
  unfold splice_insert.
  replace (Z.to_nat (Z.of_nat (List.length pre + 1 + 1)))
    with (List.length pre + 2)%nat by lia.
  rewrite take_app_add, drop_app_add. simpl.
  rewrite <- app_assoc. reflexivity.
Qed.

(** [suffix_items] at a data item, with its token looked up. *)
Lemma suffix_items_data store d tl data :
  store !! d = Some data ->
  suffix_items store (IData d :: tl)
  = if next_is_line_end store tl
       && negb (s_size (scan_chunks (sliceStream data)) =? 0)
    then
      if offset (start data)
         =? offset (start (suffix_token data (scan_chunks (sliceStream data))
                             (is_nil tl)))
      then
        (fst (suffix_items
                (<[d := suffix_token data (scan_chunks (sliceStream data))
                          (is_nil tl)]> store) tl),
         IOther (Enter, d) :: IOther (Exit, d)
         :: snd (suffix_items
                   (<[d := suffix_token data (scan_chunks (sliceStream data))
                             (is_nil tl)]> store) tl))
      else
        (fst (suffix_items
                (<[d := set_end data
                          (start (suffix_token data
                                    (scan_chunks (sliceStream data))
                                    (is_nil tl)))]> store
                 ++ [suffix_token data (scan_chunks (sliceStream data))
                       (is_nil tl)]) tl),
         IData d :: IOther (Enter, List.length store)
         :: IOther (Exit, List.length store)
         :: snd (suffix_items
                   (<[d := set_end data
                             (start (suffix_token data
                                       (scan_chunks (sliceStream data))
                                       (is_nil tl)))]> store
                    ++ [suffix_token data (scan_chunks (sliceStream data))
                          (is_nil tl)]) tl))
    else (fst (suffix_items store tl), IData d :: snd (suffix_items store tl)).
Proof.
  intros Hd. cbn [ResolverSpec.suffix_items]. rewrite Hd. cbv zeta.
  repeat match goal with
  | |- context [if ?c then _ else _] => destruct c
  end;
  match goal with
  | |- (let '(_, _) := ?x in _) = _ => destruct x; reflexivity
  end.
Qed.

Lemma suffix_items_other store e tl :
  suffix_items store (IOther e :: tl)
  = (fst (suffix_items store tl), IOther e :: snd (suffix_items store tl)).
Proof.
  cbn [ResolverSpec.suffix_items]. destruct (suffix_items store tl).
  reflexivity.
Qed.

Lemma suffix_items_data_none store d tl :
  store !! d = None ->
  suffix_items store (IData d :: tl)
  = (fst (suffix_items store tl), IData d :: snd (suffix_items store tl)).
Proof.
  intros Hd. cbn [ResolverSpec.suffix_items]. rewrite Hd.
  destruct (suffix_items store tl). reflexivity.
Qed.

(** The cases of [suffix_items] at a data item. *)
Ltac suffix_cases store d tl :=
  let data := fresh "data" in
  let Hdata := fresh "Hdata" in
  let Hhit := fresh "Hhit" in
  let Hoff := fresh "Hoff" in
  destruct (store !! d) as [data|] eqn:Hdata;
  [ rewrite (suffix_items_data store d tl data Hdata);
    destruct (next_is_line_end store tl
              && negb (s_size (scan_chunks (sliceStream data)) =? 0)) eqn:Hhit;
    [ destruct (offset (start data)
                =? offset (start (suffix_token data
                                    (scan_chunks (sliceStream data))
                                    (is_nil tl)))) eqn:Hoff
    | ]
  | rewrite (suffix_items_data_none store d tl Hdata) ].


(** The whitespace pass assigns to data tokens of the list and to tokens
    it creates only. *)
Lemma suffix_items_frame items : forall store (r : nat),
  (r < List.length store)%nat ->
  r ∉ data_refs items ->
  fst (suffix_items store items) !! r = store !! r.
Proof.
  induction items as [|[d|e] tl IH]; intros store r Hlt Hr.
  - reflexivity.
  - simpl in Hr. apply not_elem_of_cons in Hr as [Hne Hr].
    suffix_cases store d tl; cbn [fst].
    + rewrite IH by (rewrite ?length_insert; auto).
      apply list_lookup_insert_ne. congruence.
    + rewrite IH by (rewrite ?length_app, ?length_insert; auto; lia).
      rewrite lookup_app_l by (rewrite length_insert; exact Hlt).
      apply list_lookup_insert_ne. congruence.
    + apply IH; auto.
    + apply IH; auto.
  - rewrite suffix_items_other. apply IH; auto.
Qed.

Lemma ref_is_lt ty store r :
  ref_is ty store r = true -> (r < List.length store)%nat.
Proof.
  unfold ref_is. destruct (store !! r) eqn:E; [|discriminate].
  intros _. eapply lookup_lt_Some. exact E.
Qed.

Lemma data_refs_ok store items r :
  forallb (item_ok store) items = true ->
  r ∈ data_refs items -> ref_is types.data store r = true.
Proof.
  induction items as [|[z|e] tl IH]; simpl; intros Hok Hin.
  - apply elem_of_nil in Hin. contradiction.
  - apply andb_true_iff in Hok as [H1 H2].
    apply elem_of_cons in Hin as [->|Hin]; auto.
  - apply andb_true_iff in Hok as [H1 H2]. auto.
Qed.

Lemma not_data_not_ref store items r :
  forallb (item_ok store) items = true ->
  ref_is types.data store r = false -> r ∉ data_refs items.
Proof.
  intros Hok Hr Hin. rewrite (data_refs_ok _ _ _ Hok Hin) in Hr. discriminate.
Qed.

Lemma suffix_token_not_data data sc last :
  String.eqb (type (suffix_token data sc last)) types.data = false.
Proof.
  unfold suffix_token. simpl.
  destruct (last || s_tabs sc || (s_size sc <? constants.hardBreakPrefixSizeMin));
    reflexivity.
Qed.

Lemma suffix_token_not_lineEnding data sc last :
  String.eqb (type (suffix_token data sc last)) types.lineEnding = false.
Proof.
  unfold suffix_token. simpl.
  destruct (last || s_tabs sc || (s_size sc <? constants.hardBreakPrefixSizeMin));
    reflexivity.
Qed.

Lemma after_inplace store d tok tl :
  (d < List.length store)%nat -> d ∉ data_refs tl ->
  fst (suffix_items (<[d := tok]> store) tl) !! d = Some tok.
Proof.
  intros Hlt Hnot.
  rewrite suffix_items_frame by (rewrite ?length_insert; auto).
  apply list_lookup_insert_eq, Hlt.
Qed.

Lemma after_split_data store d tok new tl :
  (d < List.length store)%nat -> d ∉ data_refs tl ->
  fst (suffix_items (<[d := tok]> store ++ [new]) tl) !! d = Some tok.
Proof.
  intros Hlt Hnot.
  rewrite suffix_items_frame
    by (rewrite ?length_app, ?length_insert; auto; lia).
  rewrite lookup_app_l by (rewrite length_insert; exact Hlt).
  apply list_lookup_insert_eq, Hlt.
Qed.

Lemma after_split_new store d tok new tl :
  forallb (item_ok store) tl = true ->
  fst (suffix_items (<[d := tok]> store ++ [new]) tl) !! List.length store
  = Some new.
Proof.
  intros Hok.
  rewrite suffix_items_frame.
  - apply list_lookup_middle. rewrite length_insert. reflexivity.
  - rewrite length_app, length_insert. simpl. lia.
  - intros Hin. pose proof (data_refs_ok _ _ _ Hok Hin) as Hr.
    apply ref_is_lt in Hr. lia.
Qed.

(** The data items it leaves are data items of the list, in order. *)
Lemma suffix_items_refs items : forall store,
  sublist (data_refs (snd (suffix_items store items))) (data_refs items).
Proof.
  induction items as [|[d|e] tl IH]; intros store.
  - constructor.
  - suffix_cases store d tl; cbn [snd data_refs].
    + apply sublist_cons, IH.
    + apply sublist_skip, IH.
    + apply sublist_skip, IH.
    + apply sublist_skip, IH.
  - rewrite suffix_items_other. cbn [snd data_refs]. apply IH.
Qed.

(** It makes nothing start with a data item, and puts no line ending
    first. *)
Lemma suffix_items_starts items store :
  starts_data (snd (suffix_items store items)) = true ->
  starts_data items = true.
Proof.
  destruct items as [|[d|e] tl]; [discriminate|reflexivity|].
  rewrite suffix_items_other. discriminate.
Qed.

Lemma suffix_items_next items store :
  NoDup (data_refs items) ->
  forallb (item_ok store) items = true ->
  next_is_line_end (fst (suffix_items store items))
                   (snd (suffix_items store items)) = true ->
  next_is_line_end store items = true.
Proof.
  intros Hnd Hok.
  destruct items as [|[d|[k r]] tl]; [reflexivity| |].
  - apply item_ok_data in Hok as [Hd Hok].
    simpl in Hnd. apply NoDup_cons in Hnd as [Hnot Hnd].
    pose proof (ref_is_lt _ _ _ Hd) as Hlt.
    suffix_cases store d tl; cbn [fst snd next_is_line_end]; try discriminate.
    unfold ref_is. rewrite after_inplace by assumption.
    rewrite suffix_token_not_lineEnding. discriminate.
  - pose proof (item_ok_other_lt _ _ _ _ Hok) as Hlt.
    apply item_ok_other in Hok as [Hr Hok].
    rewrite suffix_items_other. cbn [fst snd next_is_line_end].
    unfold ref_is at 1.
    rewrite suffix_items_frame; auto.
    eapply not_data_not_ref; eauto.
Qed.

(** The whitespace pass keeps the items well-typed. *)
Lemma suffix_items_ok items : forall store,
  NoDup (data_refs items) ->
  forallb (item_ok store) items = true ->
  forallb (item_ok (fst (suffix_items store items)))
          (snd (suffix_items store items)) = true.
Proof.
  induction items as [|[d|[k r]] tl IH]; intros store Hnd Hok.
  - reflexivity.
  - apply item_ok_data in Hok as [Hd Hok].
    simpl in Hnd. apply NoDup_cons in Hnd as [Hnot Hnd].
    pose proof (ref_is_lt _ _ _ Hd) as Hlt.
    suffix_cases store d tl; cbn [fst snd forallb item_ok].
    + rewrite after_inplace by assumption.
      rewrite suffix_token_not_data. cbn [negb andb].
      apply IH; [exact Hnd|]. apply items_ok_insert; assumption.
    + unfold ref_is. rewrite after_split_data by assumption.
      rewrite after_split_new by exact Hok.
      rewrite suffix_token_not_data. cbn [negb andb].
      pose proof Hd as Hty. unfold ref_is in Hty. rewrite Hdata in Hty.
      cbn [type set_end]. rewrite Hty. cbn [andb].
      apply IH; [exact Hnd|]. apply items_ok_app, items_ok_insert; assumption.
    + unfold ref_is at 1. rewrite suffix_items_frame by assumption.
      fold (ref_is types.data store d). rewrite Hd. cbn [andb].
      apply IH; assumption.
    + unfold ref_is in Hd. rewrite Hdata in Hd. discriminate.
  - pose proof (item_ok_other_lt _ _ _ _ Hok) as Hlt.
    pose proof Hok as Hok0.
    apply item_ok_other in Hok as [Hr Hok].
    rewrite suffix_items_other. cbn [fst snd forallb item_ok].
    rewrite suffix_items_frame;
      [|exact Hlt|eapply not_data_not_ref; eauto].
    simpl in Hok0. apply andb_true_iff in Hok0 as [H1 _]. rewrite H1.
    cbn [andb]. apply IH; assumption.
Qed.

(** After it no data item before a line ending or the end has trailing
    whitespace left. *)
Lemma suffix_items_settled items : forall store,
  NoDup (data_refs items) ->
  forallb (item_ok store) items = true ->
  settled sliceStream (fst (suffix_items store items))
          (snd (suffix_items store items)) = true.
Proof.
  induction items as [|[d|[k r]] tl IH]; intros store Hnd Hok.
  - reflexivity.
  - apply item_ok_data in Hok as [Hd Hok].
    simpl in Hnd. apply NoDup_cons in Hnd as [Hnot Hnd].
    pose proof (ref_is_lt _ _ _ Hd) as Hlt.
    suffix_cases store d tl; cbn [fst snd settled].
    + apply IH; [exact Hnd|]. apply items_ok_insert; assumption.
    + rewrite after_split_data by assumption.
      cbn [next_is_line_end]. unfold ref_is.
      rewrite after_split_new by exact Hok.
      rewrite suffix_token_not_lineEnding. cbn [negb orb andb].
      apply IH; [exact Hnd|]. apply items_ok_app, items_ok_insert; assumption.
    + rewrite suffix_items_frame by assumption. rewrite Hdata.
      rewrite IH by assumption. rewrite andb_true_r.
      destruct (s_size (scan_chunks (sliceStream data)) =? 0) eqn:Hsz;
        [apply orb_true_r|].
      simpl in Hhit. rewrite andb_true_r in Hhit.
      destruct (next_is_line_end (fst (suffix_items store tl))
                                 (snd (suffix_items store tl))) eqn:Hn;
        [|reflexivity].
      rewrite (suffix_items_next tl store Hnd Hok Hn) in Hhit. discriminate.
    + unfold ref_is in Hd. rewrite Hdata in Hd. discriminate.
  - apply item_ok_other in Hok as [Hr Hok].
    rewrite suffix_items_other. cbn [fst snd settled]. apply IH; assumption.
Qed.

(** It leaves no two data items adjacent. *)
Lemma suffix_items_separated items : forall store,
  separated items = true ->
  separated (snd (suffix_items store items)) = true.
Proof.
  induction items as [|[d|e] tl IH]; intros store Hsep.
  - reflexivity.
  - simpl in Hsep. apply andb_true_iff in Hsep as [Hh Hsep].
    apply negb_true_iff in Hh.
    suffix_cases store d tl; cbn [snd separated is_data starts_data andb negb];
      auto.
    + rewrite IH by exact Hsep.
      destruct (starts_data (snd (suffix_items store tl))) eqn:Hs;
        [|reflexivity].
      rewrite (suffix_items_starts _ _ Hs) in Hh. discriminate.
    + rewrite IH by exact Hsep.
      destruct (starts_data (snd (suffix_items store tl))) eqn:Hs;
        [|reflexivity].
      rewrite (suffix_items_starts _ _ Hs) in Hh. discriminate.
  - rewrite suffix_items_other. cbn [snd separated is_data andb negb].
    apply IH. exact Hsep.
Qed.

(** On settled items the whitespace pass does nothing. *)
Lemma suffix_items_id items : forall store,
  settled sliceStream store items = true ->
  suffix_items store items = (store, items).
Proof.
  induction items as [|[d|e] tl IH]; intros store Hset.
  - reflexivity.
  - simpl in Hset. apply andb_true_iff in Hset as [Hh Hset].
    destruct (store !! d) as [data|] eqn:Hdata.
    + rewrite (suffix_items_data store d tl data Hdata).
      replace (next_is_line_end store tl
               && negb (s_size (scan_chunks (sliceStream data)) =? 0))
        with false.
      * rewrite (IH store Hset). reflexivity.
      * destruct (next_is_line_end store tl),
          (s_size (scan_chunks (sliceStream data)) =? 0);
          simpl in *; congruence.
    + rewrite (suffix_items_data_none store d tl Hdata).
      rewrite (IH store Hset). reflexivity.
  - rewrite suffix_items_other. simpl in Hset. rewrite (IH store Hset).
    reflexivity.
Qed.

Lemma suffix_loop_cong fuel i1 i2 store ev1 ev2 :
  i1 = i2 -> ev1 = ev2 ->
  suffix_loop fuel i1 store ev1 = suffix_loop fuel i2 store ev2.
Proof. intros -> ->. reflexivity. Qed.

Ltac suffix_continue IH :=
  eapply eq_trans; [eapply eq_trans; [apply suffix_loop_cong|exact IH]|];
  [ simpl; rewrite ?length_app; simpl; lia
  | simpl; rewrite <- ?app_assoc; simpl; rewrite <- ?app_assoc; reflexivity
  | ].

(** The second loop, standing at the items [items] ([skip] when the
    [eventIndex++] of the iteration before is still to be accounted for),
    completes within its fuel and yields what [suffix_items] describes. *)
Lemma suffix_loop_items items : forall (skip : bool) pre store fuel,
  NoDup (data_refs items) ->
  forallb (item_ok store) items = true ->
  (skip = true -> starts_data items = false) ->
  (List.length (events_of items) + 1 <= fuel)%nat ->
  suffix_loop fuel (Z.of_nat (List.length pre + (if skip then 1 else 0)))
    store (pre ++ events_of items)
  = Some (fst (suffix_items store items),
          pre ++ events_of (snd (suffix_items store items))).
Proof.
  induction items as [|it tl IH]; intros skip pre store fuel Hnd Hok Hskip Hfuel.
  - destruct fuel as [|fuel]; [simpl in Hfuel; lia|].
    rewrite suffix_step_exit by (rewrite length_app; simpl; lia).
    simpl. reflexivity.
  - destruct it as [d|[k r]].
    + (* a data item *)
      destruct skip; [specialize (Hskip eq_refl); discriminate|].
      apply item_ok_data in Hok as [Hd Hok].
      simpl in Hnd. apply NoDup_cons in Hnd as [Hnot Hnd].
      simpl in Hfuel. destruct fuel as [|[|fuel]]; try lia.
      cbn [events_of events_of_item app].
      replace (List.length pre + 0)%nat with (List.length pre) by lia.
      assert (Hlen : List.length (pre ++ (Enter, d) :: (Exit, d) :: events_of tl)
                     = (List.length pre + 2 + List.length (events_of tl))%nat)
        by (rewrite length_app; simpl; lia).
      assert (Hat0 : (pre ++ (Enter, d) :: (Exit, d) :: events_of tl)
                     !! List.length pre = Some (Enter, d))
        by (apply list_lookup_middle; reflexivity).
      assert (Hat1 : (pre ++ (Enter, d) :: (Exit, d) :: events_of tl)
                     !! (List.length pre + 1)%nat = Some (Exit, d)).
      { replace (pre ++ (Enter, d) :: (Exit, d) :: events_of tl)
          with ((pre ++ [(Enter, d)]) ++ (Exit, d) :: events_of tl)
          by (rewrite <- app_assoc; reflexivity).
        apply list_lookup_middle. rewrite length_app. simpl. lia. }
      rewrite suffix_step_skip.
      2:{ lia. }
      2:{ rewrite (is_type_lookup _ _ _ _ _ _ Hat1).
          rewrite (ref_is_data_lineEnding _ _ Hd), orb_false_r.
          apply andb_false_iff. left. apply Z.eqb_neq. lia. }
      assert (Hdata : exists data, store !! d = Some data).
      { unfold ref_is in Hd. destruct (store !! d); [eauto|discriminate]. }
      destruct Hdata as [data Hdata].
      destruct (next_is_line_end store tl) eqn:Hnext.
      * (* a line ending or the end follows *)
        assert (Htl : starts_data tl = false)
          by (destruct tl as [|[z|e] tl']; [reflexivity|discriminate|reflexivity]).
        rewrite suffix_step_hit.
        2:{ lia. }
        2:{ rewrite line_end_test by exact Hok. rewrite Hnext.
            rewrite (is_type_lookup _ _ _ _ _ _ Hat1). rewrite Hd.
            reflexivity. }
        rewrite (reclassify_at _ _ _ _ _ Hdata). cbv zeta.
        rewrite no_events_items.
        rewrite (suffix_items_data _ _ _ _ Hdata), Hnext.
        destruct (negb (s_size (scan_chunks (sliceStream data)) =? 0)) eqn:Hsz;
          cbn [andb].
        -- destruct (offset (start data)
                     =? offset (start (suffix_token data
                                         (scan_chunks (sliceStream data))
                                         (is_nil tl)))) eqn:Hoff.
           ++ (* the whole token is the run *)
              set (store' := <[d := suffix_token data
                                       (scan_chunks (sliceStream data))
                                       (is_nil tl)]> store).
              assert (Hok' : forallb (item_ok store') tl = true)
                by (apply items_ok_insert; assumption).
              specialize (IH true (pre ++ [(Enter, d); (Exit, d)]) store' fuel
                            Hnd Hok' (fun _ => Htl) ltac:(lia)).
              suffix_continue IH.
              fold store'. cbn [fst snd events_of events_of_item app].
              rewrite <- app_assoc. reflexivity.
           ++ (* the run is split off *)
              set (token := suffix_token data
                              (scan_chunks (sliceStream data)) (is_nil tl)).
              set (store' := <[d := set_end data (start token)]> store
                             ++ [token]).
              assert (Hok' : forallb (item_ok store') tl = true)
                by (apply items_ok_app, items_ok_insert; assumption).
              specialize (IH true
                            (pre ++ [(Enter, d); (Exit, d);
                                     (Enter, List.length store);
                                     (Exit, List.length store)])
                            store' fuel Hnd Hok' (fun _ => Htl) ltac:(lia)).
              suffix_continue IH.
              fold store'. cbn [fst snd events_of events_of_item app].
              rewrite <- app_assoc. reflexivity.
        -- specialize (IH true (pre ++ [(Enter, d); (Exit, d)]) store fuel
                         Hnd Hok (fun _ => Htl) ltac:(lia)).
           suffix_continue IH.
           cbn [fst snd events_of events_of_item app].
           rewrite <- app_assoc. reflexivity.
      * (* something else follows *)
        rewrite suffix_step_skip.
        2:{ lia. }
        2:{ rewrite line_end_test by exact Hok. rewrite Hnext. reflexivity. }
        specialize (IH false (pre ++ [(Enter, d); (Exit, d)]) store fuel
                      Hnd Hok ltac:(discriminate) ltac:(lia)).
        suffix_continue IH.
        rewrite (suffix_items_data _ _ _ _ Hdata), Hnext.
        cbn [andb fst snd events_of events_of_item app].
        rewrite <- app_assoc. reflexivity.
    + (* another event *)
      apply item_ok_other in Hok as [Hr Hok].
      simpl in Hnd. simpl in Hfuel.
      cbn [events_of events_of_item app].
      destruct skip.
      * specialize (IH false (pre ++ [(k, r)]) store fuel Hnd Hok
                      ltac:(discriminate) ltac:(lia)).
        suffix_continue IH.
        rewrite suffix_items_other.
        cbn [fst snd events_of events_of_item app].
        rewrite <- app_assoc. reflexivity.
      * destruct fuel as [|fuel]; [lia|].
        replace (List.length pre + 0)%nat with (List.length pre) by lia.
        rewrite suffix_step_skip.
        2:{ rewrite length_app. simpl. lia. }
        2:{ apply andb_false_iff. right.
            erewrite is_type_lookup; [exact Hr|].
            apply list_lookup_middle. reflexivity. }
        specialize (IH false (pre ++ [(k, r)]) store fuel Hnd Hok
                      ltac:(discriminate) ltac:(lia)).
        suffix_continue IH.
        rewrite suffix_items_other.
        cbn [fst snd events_of events_of_item app].
        rewrite <- app_assoc. reflexivity.
Qed.

Lemma events_of_length_pos items :
  (List.length (events_of items) + 1 <= List.length (events_of items) + 2)%nat.
Proof. lia. Qed.

(** [resolveJsxFlow] on the events of well-formed items completes, and
    computes the two passes on the items. *)
Lemma resolveJsxFlow_items store items :
  wf store items ->
  resolveJsxFlow sliceStream store (events_of items)
  = Some (fst (resolve_items sliceStream store items),
          events_of (snd (resolve_items sliceStream store items))).
Proof.
  intros Hwf. unfold resolveJsxFlow, resolve_items.
  rewrite (merge_pass_items store items (proj2 Hwf)).
  destruct (merge_items_wf store items Hwf) as [Hnd1 Hok1].
  destruct (merge_items store false items) as [s1 i1] eqn:Hm.
  cbn [fst snd] in *.
  exact (suffix_loop_items i1 false [] s1 _ Hnd1 Hok1 ltac:(discriminate)
           (events_of_length_pos i1)).
Qed.

(** The result of the two passes is well-formed again. *)
Lemma resolve_items_wf store items :
  wf store items ->
  wf (fst (resolve_items sliceStream store items))
     (snd (resolve_items sliceStream store items)).
Proof.
  intros Hwf. unfold resolve_items.
  destruct (merge_items_wf store items Hwf) as [Hnd1 Hok1].
  destruct (merge_items store false items) as [s1 i1] eqn:Hm.
  cbn [fst snd] in *. split.
  - eapply sublist_NoDup; [exact Hnd1|]. apply suffix_items_refs.
  - apply suffix_items_ok; assumption.
Qed.

(** The two passes change nothing in their own result. *)
Lemma resolve_items_fixed store items :
  wf store items ->
  resolve_items sliceStream
    (fst (resolve_items sliceStream store items))
    (snd (resolve_items sliceStream store items))
  = resolve_items sliceStream store items.
Proof.
  intros Hwf. unfold resolve_items at 1.
  assert (Hsep : separated (snd (resolve_items sliceStream store items)) = true).
  { unfold resolve_items.
    pose proof (merge_items_separated items store false) as [Hs _].
    destruct (merge_items store false items) as [s1 i1]. cbn [snd] in *.
    apply suffix_items_separated, Hs. }
  assert (Hset : settled sliceStream
                   (fst (resolve_items sliceStream store items))
                   (snd (resolve_items sliceStream store items)) = true).
  { unfold resolve_items.
    destruct (merge_items_wf store items Hwf) as [Hnd1 Hok1].
    destruct (merge_items store false items) as [s1 i1]. cbn [fst snd] in *.
    apply suffix_items_settled; assumption. }
  rewrite merge_items_id by (exact Hsep || discriminate).
  rewrite suffix_items_id by exact Hset.
  destruct (resolve_items sliceStream store items). reflexivity.
Qed.

(** C6: on the events of well-formed items (each data token one object
    entered and exited by adjacent events) [resolveJsxFlow] completes, and
    run again on its result it returns the same store and the same events:
    no further merge, no further reclassification. *)
Theorem resolveJsxFlow_idempotent store items :
  wf store items ->
  exists store' events',
    resolveJsxFlow sliceStream store (events_of items) = Some (store', events')
    /\ resolveJsxFlow sliceStream store' events' = Some (store', events').
Proof.
  intros Hwf.
  exists (fst (resolve_items sliceStream store items)),
         (events_of (snd (resolve_items sliceStream store items))).
  split; [apply resolveJsxFlow_items, Hwf|].
  rewrite resolveJsxFlow_items by (apply resolve_items_wf, Hwf).
  rewrite resolve_items_fixed by exact Hwf. reflexivity.
Qed.

(** The second loop on the events of well-formed items. *)
Lemma suffix_pass_items store items :
  wf store items ->
  suffix_loop (List.length (events_of items) + 2) 0 store (events_of items)
  = Some (fst (suffix_items store items),
          events_of (snd (suffix_items store items))).
Proof.
  intros [Hnd Hok].
  exact (suffix_loop_items items false [] store _ Hnd Hok ltac:(discriminate)
           (events_of_length_pos items)).
Qed.

(** C4: the second loop handles every data item of a well-formed list as
    [suffix_items] describes, and at a data token [data] that is followed by
    a line-ending event or by the end of the events: the size [n] and the tab
    flag the backward scan finds are those of the trailing run of the codes of
    its slices (a space or a tab counts one, a virtual space nothing, any
    other code ends the run); with [n = 0], or without a line ending or the
    end behind it, the token stays; otherwise a token of type line suffix
    (when [n < 2], or the run has a tab, or the token is the last) or hard
    break trailing (otherwise) is made, ending where the data ended and
    starting [n] columns and offsets before; it replaces the data token when
    the data starts at that offset, and else the data is cut there and the
    new token is entered and exited right behind it. Two trailing spaces
    before a line ending give a hard break, one gives a line suffix. *)
Theorem trailing_whitespace_reclassified store d tl data :
  store !! d = Some data ->
  let n := fst (trailing_run (sliceStream data)) in
  let tabs := snd (trailing_run (sliceStream data)) in
  let ty := if (n <? constants.hardBreakPrefixSizeMin) || tabs || is_nil tl
            then types.lineSuffix else types.hardBreakTrailing in
  (forall store0 items,
      wf store0 items ->
      suffix_loop (List.length (events_of items) + 2) 0 store0 (events_of items)
      = Some (fst (suffix_items store0 items),
              events_of (snd (suffix_items store0 items)))) /\
  (next_is_line_end store tl = false \/ n = 0 ->
   suffix_items store (IData d :: tl)
   = (fst (suffix_items store tl), IData d :: snd (suffix_items store tl))) /\
  (next_is_line_end store tl = true -> n <> 0 ->
   exists token,
     type token = ty /\
     end_ token = end_ data /\
     line (start token) = line (end_ data) /\
     column (start token) = column (end_ data) - n /\
     offset (start token) = offset (end_ data) - n /\
     suffix_items store (IData d :: tl)
     = if offset (start data) =? offset (end_ data) - n
       then (fst (suffix_items (<[d := token]> store) tl),
             IOther (Enter, d) :: IOther (Exit, d)
             :: snd (suffix_items (<[d := token]> store) tl))
       else (fst (suffix_items
                    (<[d := set_end data (start token)]> store ++ [token]) tl),
             IData d :: IOther (Enter, List.length store)
             :: IOther (Exit, List.length store)
             :: snd (suffix_items
                       (<[d := set_end data (start token)]> store ++ [token])
                       tl))) /\
  (fun r => (snd r, type <$> fst r !! 5%nat))
    <$> resolveJsxFlow
          (ResolverFixtures.sliceChunks ResolverFixtures.hardBreakChunks)
          ResolverFixtures.hardBreakStore
          (events_of ResolverFixtures.hardBreakItems)
  = Some ([(Enter, 0%nat); (Exit, 0%nat); (Enter, 1%nat); (Exit, 1%nat);
           (Enter, 5%nat); (Exit, 5%nat); (Enter, 2%nat); (Exit, 2%nat);
           (Enter, 3%nat); (Exit, 3%nat); (Enter, 4%nat); (Exit, 4%nat)],
          Some types.hardBreakTrailing) /\
  (fun r => (snd r, type <$> fst r !! 5%nat))
    <$> resolveJsxFlow
          (ResolverFixtures.sliceChunks ResolverFixtures.suffixChunks)
          ResolverFixtures.suffixStore
          (events_of ResolverFixtures.hardBreakItems)
  = Some ([(Enter, 0%nat); (Exit, 0%nat); (Enter, 1%nat); (Exit, 1%nat);
           (Enter, 5%nat); (Exit, 5%nat); (Enter, 2%nat); (Exit, 2%nat);
           (Enter, 3%nat); (Exit, 3%nat); (Enter, 4%nat); (Exit, 4%nat)],
          Some types.lineSuffix).
Proof.
  intros Hdata n tabs ty.
  pose proof (scan_chunks_spec (sliceStream data)) as Hscan.
  assert (Hn : s_size (scan_chunks (sliceStream data)) = n)
    by (unfold n; rewrite <- Hscan; reflexivity).
  assert (Ht : s_tabs (scan_chunks (sliceStream data)) = tabs)
    by (unfold tabs; rewrite <- Hscan; reflexivity).
  split; [|split; [|split; [|split]]].
  - intros store0 items Hwf. apply suffix_pass_items, Hwf.
  - intros Hnot. rewrite (suffix_items_data store d tl data Hdata), Hn.
    replace (next_is_line_end store tl && negb (n =? 0)) with false;
      [reflexivity|].
    destruct Hnot as [->| ->]; [reflexivity|].
    rewrite andb_false_r. reflexivity.
  - intros Hnext Hnz.
    exists (suffix_token data (scan_chunks (sliceStream data)) (is_nil tl)).
    split; [|split; [|split; [|split; [|split]]]]; try reflexivity.
    + unfold suffix_token, ty. cbn [type]. rewrite Hn, Ht.
      destruct (is_nil tl), tabs, (n <? constants.hardBreakPrefixSizeMin);
        reflexivity.
    + cbn. rewrite Hn. reflexivity.
    + cbn. rewrite Hn. reflexivity.
    + rewrite (suffix_items_data store d tl data Hdata), Hn, Hnext.
      replace (negb (n =? 0)) with true
        by (symmetry; apply negb_true_iff, Z.eqb_neq, Hnz).
      cbn [andb].
      replace (offset (start (suffix_token data
                                 (scan_chunks (sliceStream data)) (is_nil tl))))
        with (offset (end_ data) - n) by (cbn; rewrite Hn; reflexivity).
      reflexivity.
  - vm_compute. reflexivity.
  - vm_compute. reflexivity.
Qed.

End WithContext.

Lemma last_in (rest : list nat) a : rest <> [] -> List.last rest a ∈ rest.
Proof.
  induction rest as [|y rest IH]; intros Hne; [congruence|].
  destruct rest as [|y' rest'].
  - simpl. left.
  - right. apply IH. discriminate.
Qed.

(** C5: the first loop collapses a maximal run of data items, between
    items [before] that do not end with a data item and items [after] that do
    not start with one, into the one data token [a], the first of the run,
    which keeps its start and takes the end of the last token of the run; the
    other events of the run are removed. No two data items are adjacent
    after the pass. For [<div>hi</div>] scanned with the data in the two
    bursts [h] and [i], the resolved events hold one data token, from offset 5
    to offset 7, whose slice is [hi]. *)
Theorem merge_pass_runs store before a rest after :
  wf store (before ++ IData a :: map IData rest ++ after) ->
  ends_data before = false ->
  starts_data after = false ->
  (exists store' ta tz,
      merge_loop
        (List.length (events_of (before ++ IData a :: map IData rest ++ after))
         + 2)
        (-1) None store
        (events_of (before ++ IData a :: map IData rest ++ after))
      = Some (store',
              events_of (snd (merge_items store false before))
              ++ (Enter, a) :: (Exit, a)
              :: events_of (snd (merge_items store false after)))
      /\ store !! a = Some ta
      /\ store !! List.last rest a = Some tz
      /\ store' !! a = Some (mkToken types.data (start ta) (end_ tz))) /\
  (forall items, separated (snd (merge_items store false items)) = true) /\
  (fun r => (snd r, fst r !! 1%nat))
    <$> resolveJsxFlow (ResolverFixtures.sliceChunks ResolverFixtures.divChunks)
          ResolverFixtures.divStore (events_of ResolverFixtures.divItems)
  = Some ([(Enter, 0%nat); (Exit, 0%nat); (Enter, 1%nat); (Exit, 1%nat);
           (Enter, 3%nat); (Exit, 3%nat); (Enter, 4%nat); (Exit, 4%nat)],
          Some (mkToken "data" (mkPoint 1 6 5 0 5) (mkPoint 1 8 7 0 7))) /\
  ResolverFixtures.sliceChunks ResolverFixtures.divChunks
    (mkToken "data" (mkPoint 1 6 5 0 5) (mkPoint 1 8 7 0 7))
  = [ChStr "hi"].
Proof.
  intros [Hnd Hok] Hend Hafter.
  split; [|split; [|split]].
  2:{ intros items. apply merge_items_separated. }
  2:{ vm_compute. reflexivity. }
  2:{ vm_compute. reflexivity. }
  rewrite data_refs_app in Hnd. cbn [data_refs] in Hnd.
  rewrite data_refs_app, data_refs_map in Hnd.
  apply NoDup_app in Hnd as (Hnd1 & Hdisj & Hnd2).
  apply NoDup_cons in Hnd2 as [Ha2 Hnd2].
  apply NoDup_app in Hnd2 as (Hnd3 & Hdisj2 & Hnd4).
  assert (Ha_before : a ∉ data_refs before).
  { intros Hin. apply (Hdisj a Hin). left. }
  assert (Ha_after : a ∉ data_refs after).
  { intros Hin. apply Ha2. apply elem_of_app. right. exact Hin. }
  assert (Ha_rest : a ∉ rest).
  { intros Hin. apply Ha2. apply elem_of_app. left. exact Hin. }
  assert (Hda : ref_is types.data store a = true).
  { eapply data_refs_ok; [exact Hok|].
    rewrite data_refs_app. apply elem_of_app. right. left. }
  assert (Hta : exists ta, store !! a = Some ta /\ type ta = types.data).
  { unfold ref_is in Hda. destruct (store !! a) as [ta|]; [|discriminate].
    exists ta. split; [reflexivity|]. apply String.eqb_eq, Hda. }
  destruct Hta as (ta & Hta & Htype).
  set (z := List.last rest a).
  assert (Hz : exists tz, store !! z = Some tz /\ z ∉ data_refs before).
  { destruct rest as [|y rest'] eqn:Hrest.
    - exists ta. split; [exact Hta|exact Ha_before].
    - assert (Hin : z ∈ y :: rest') by (apply last_in; discriminate).
      assert (Hdz : ref_is types.data store z = true).
      { eapply data_refs_ok; [exact Hok|].
        rewrite data_refs_app. apply elem_of_app. right.
        cbn [data_refs]. right. rewrite data_refs_app, data_refs_map.
        apply elem_of_app. left. exact Hin. }
      unfold ref_is in Hdz. destruct (store !! z) as [tz|]; [|discriminate].
      exists tz. split; [reflexivity|].
      intros Hb. apply (Hdisj z Hb). right. apply elem_of_app. left. exact Hin. }
  destruct Hz as (tz & Htz & Hz_before).
  exists (fst (merge_items store false
                 (before ++ IData a :: map IData rest ++ after))), ta, tz.
  split; [|split; [exact Hta|split; [exact Htz|]]].
  - rewrite (merge_pass_items _ _ Hok).
    rewrite (merge_items_run store before a rest after Hend Hafter).
    cbn [fst snd]. rewrite events_of_app. reflexivity.
  - rewrite (merge_items_run store before a rest after Hend Hafter).
    cbn [fst]. rewrite merge_items_frame by exact Ha_after.
    set (s1 := fst (merge_items store false before)).
    assert (Hs1a : s1 !! a = Some ta)
      by (unfold s1; rewrite merge_items_frame by exact Ha_before; exact Hta).
    assert (Hs1z : s1 !! z = Some tz)
      by (unfold s1; rewrite merge_items_frame by exact Hz_before; exact Htz).
    destruct rest as [|y rest'] eqn:Hrest.
    + rewrite Hs1a. simpl in z. subst z. rewrite Hta in Htz.
      injection Htz as <-. rewrite <- Htype. destruct ta; reflexivity.
    + fold z. unfold copy_end. rewrite Hs1z.
      rewrite list_lookup_alter_eq, Hs1a. simpl.
      unfold set_end. rewrite Htype. reflexivity.
Qed.

Lemma merge_pass_runs_witness :
  exists store' ta tz,
    merge_loop 12 (-1) None ResolverFixtures.divStore
      (events_of ResolverFixtures.divItems)
    = Some (store',
            [(Enter, 0%nat); (Exit, 0%nat); (Enter, 1%nat); (Exit, 1%nat);
             (Enter, 3%nat); (Exit, 3%nat); (Enter, 4%nat); (Exit, 4%nat)])
    /\ ResolverFixtures.divStore !! 1%nat = Some ta
    /\ ResolverFixtures.divStore !! 2%nat = Some tz
    /\ store' !! 1%nat = Some (mkToken types.data (start ta) (end_ tz)).
Proof.
  refine (proj1 (merge_pass_runs ResolverFixtures.divStore
                   [IOther (Enter, 0%nat); IOther (Exit, 0%nat)]
                   1%nat [2%nat]
                   [IOther (Enter, 3%nat); IOther (Exit, 3%nat);
                    IOther (Enter, 4%nat); IOther (Exit, 4%nat)]
                   _ eq_refl eq_refl)).
  split; [|reflexivity].
  apply (bool_decide_unpack _). vm_compute. exact I.
Defined.

Import ResolverFixtures.

Lemma trailing_whitespace_reclassified_witness :
  exists token,
    type token = types.hardBreakTrailing /\
    end_ token = mkPoint 1 7 6 1 (-1) /\
    line (start token) = 1 /\
    column (start token) = 5 /\
    offset (start token) = 4.
Proof.
  destruct (proj1 (proj2 (proj2
              (trailing_whitespace_reclassified (sliceChunks hardBreakChunks)
                 hardBreakStore 1%nat
                 [IOther (Enter, 2%nat); IOther (Exit, 2%nat); IData 3%nat;
                  IOther (Enter, 4%nat); IOther (Exit, 4%nat)]
                 (mkToken "data" (mkPoint 1 4 3 0 3) (mkPoint 1 7 6 1 (-1)))
                 eq_refl)))
              eq_refl ltac:(vm_compute; discriminate))
    as (token & H1 & H2 & H3 & H4 & H5 & _).
  exists token. repeat split; assumption.
Defined.

Lemma resolveJsxFlow_idempotent_witness :
  exists store' events',
    resolveJsxFlow (sliceChunks hardBreakChunks) hardBreakStore
      (events_of hardBreakItems) = Some (store', events')
    /\ resolveJsxFlow (sliceChunks hardBreakChunks) store' events'
       = Some (store', events').
Proof.
  refine (resolveJsxFlow_idempotent (sliceChunks hardBreakChunks)
            hardBreakStore hardBreakItems _).
  split; [|reflexivity].
  apply (bool_decide_unpack _). vm_compute. exact I.
Defined.

End ResolverFacts.

(** * Further properties of the resolver *)

Module ResolverTotal.
Import Resolver.

Lemma splice_remove_length (events : list Event) from count :
  0 <= from -> 0 <= count ->
  from + count <= Z.of_nat (List.length events) ->
  Z.of_nat (List.length (splice_remove events from count))
  = Z.of_nat (List.length events) - count.
Proof.
  intros H1 H2 H3. unfold splice_remove.
  rewrite length_app, length_take, length_drop. lia.
Qed.

(** The first loop ends within [length events - index + 2] iterations,
    whatever the events: an iteration that merges does not advance, but it
    follows one that advanced by two. *)
Lemma merge_loop_total fuel : forall index enter store events,
  -1 <= index ->
  match enter with
  | Some e => 0 <= e /\ e + 1 <= index
  | None => True
  end ->
  Z.max 0 (Z.of_nat (List.length events) - index)
  + match enter with Some _ => 1 | None => 0 end + 1 <= Z.of_nat fuel ->
  exists r, merge_loop fuel index enter store events = Some r.
Proof.
  induction fuel as [|fuel IH]; intros index enter store events Hi He Hf.
  - destruct enter; lia.
  - cbn [merge_loop].
    destruct (Z.leb_spec (index + 1) (Z.of_nat (List.length events)));
      [|eauto].
    destruct enter as [e|].
    + destruct (is_type types.data store events (index + 1)); cbn [negb].
      * apply IH; lia.
      * destruct (Z.eqb_spec (index + 1) (e + 2)); cbn [negb].
        -- apply IH; [lia|exact I|lia].
        -- apply IH; [lia|exact I|].
           rewrite splice_remove_length by lia. lia.
    + destruct (is_type types.data store events (index + 1)) eqn:Hd.
      * assert (index + 1 < Z.of_nat (List.length events)).
        { unfold is_type, token_at, event_at in Hd.
          destruct (Z.ltb_spec (index + 1) 0); [discriminate|].
          destruct (events !! Z.to_nat (index + 1)) eqn:E; [|discriminate].
          apply lookup_lt_Some in E. lia. }
        apply IH; lia.
      * apply IH; [lia|exact I|lia].
Qed.

Section WithContext.
Variable sliceStream : Token -> list Chunk.

(** What the body of the second loop does to the distance between the index
    and the end of the events. *)
Lemma reclassify_distance store (events : list Event) i :
  0 <= i <= Z.of_nat (List.length events) ->
  let '(_, events', i') := reclassify sliceStream store events i in
  Z.of_nat (List.length events') - i' = Z.of_nat (List.length events) - i.
Proof.
  intros Hi. unfold reclassify.
  repeat case_match; try reflexivity;
    simplify_eq; unfold splice_insert;
    rewrite ?length_app, ?length_take, ?length_drop; simpl; lia.
Qed.

Lemma suffix_loop_total fuel : forall eventIndex store events,
  0 <= eventIndex ->
  Z.max 0 (Z.of_nat (List.length events) - eventIndex) + 1 <= Z.of_nat fuel ->
  exists r, suffix_loop sliceStream fuel eventIndex store events = Some r.
Proof.
  induction fuel as [|fuel IH]; intros eventIndex store events Hi Hf.
  - lia.
  - cbn [suffix_loop].
    destruct (Z.leb_spec (eventIndex + 1) (Z.of_nat (List.length events)));
      [|eauto].
    destruct (((eventIndex + 1 =? Z.of_nat (List.length events))
               || is_type types.lineEnding store events (eventIndex + 1))
              && is_type types.data store events (eventIndex + 1 - 1)).
    + pose proof (reclassify_distance store events (eventIndex + 1)
                    ltac:(lia)) as Hd.
      destruct (reclassify sliceStream store events (eventIndex + 1))
        as [[store' events'] i'] eqn:Hre.
      assert (eventIndex + 1 <= i').
      { unfold reclassify in Hre.
        repeat case_match; injection Hre as <- <- <-; lia. }
      apply IH; lia.
    + apply IH; lia.
Qed.

(** X1: [resolveJsxFlow] completes on every store and every event list,
    well-formed or not: the fuel its two loops are given, the number of
    events plus two, always suffices. *)
Theorem resolveJsxFlow_total store events :
  exists store' events',
    resolveJsxFlow sliceStream store events = Some (store', events').
Proof.
  unfold resolveJsxFlow.
  destruct (merge_loop_total (List.length events + 2) (-1) None store events
              ltac:(lia) I ltac:(lia)) as [[s1 e1] H1].
  rewrite H1.
  destruct (suffix_loop_total (List.length e1 + 2) 0 s1 e1
              ltac:(lia) ltac:(lia)) as [[s2 e2] H2].
  exists s2, e2. exact H2.
Qed.

End WithContext.
End ResolverTotal.

Module ResolverKeeps.
Import Resolver ResolverSpec ResolverShape ResolverFacts.


Section WithContext.
Variable sliceStream : Token -> list Chunk.



(** X3: the result of [resolveJsxFlow] on a well-formed event list is
    well-formed again (every data token still one object entered and exited
    by adjacent events), holds no two adjacent data tokens, and holds no data
    token that is followed by a line ending or by the end of the events and
    still has trailing whitespace. *)
Theorem resolveJsxFlow_result_shape store items :
  wf store items ->
  exists store' items',
    resolveJsxFlow sliceStream store (events_of items)
    = Some (store', events_of items') /\
    wf store' items' /\
    separated items' = true /\
    settled sliceStream store' items' = true.
Proof.
  intros Hwf.
  exists (fst (resolve_items sliceStream store items)),
         (snd (resolve_items sliceStream store items)).
  split; [apply resolveJsxFlow_items, Hwf|].
  split; [apply resolve_items_wf, Hwf|].
  unfold resolve_items.
  destruct (merge_items_wf store items Hwf) as [Hnd1 Hok1].
  pose proof (merge_items_separated items store false) as [Hs _].
  destruct (merge_items store false items) as [s1 i1]. cbn [fst snd] in *.
  split.
  - apply suffix_items_separated, Hs.
  - apply suffix_items_settled; assumption.
Qed.

End WithContext.

Import ResolverFixtures.


Lemma resolveJsxFlow_result_shape_witness :
  exists store' items',
    resolveJsxFlow (sliceChunks divChunks) divStore (events_of divItems)
    = Some (store', events_of items') /\
    separated items' = true.
Proof.
  destruct (resolveJsxFlow_result_shape (sliceChunks divChunks)
              divStore divItems)
    as (store' & items' & Hres & _ & Hsep & _).
  { split; [|reflexivity].
    apply (bool_decide_unpack _). vm_compute. exact I. }
  exists store', items'. split; assumption.
Defined.

End ResolverKeeps.

Module ResolverEdges.
Import Resolver ResolverSpec ResolverFacts.

Lemma trailing_bounds l :
  0 <= fst (trailing l) <= Z.of_nat (List.length l) /\
  (snd (trailing l) = true -> 1 <= fst (trailing l)).
Proof.
  induction l as [|[c|c] l IH]; simpl.
  - split; [lia|discriminate].
  - destruct (c =? codes.space); [|simpl; split; [lia|discriminate]].
    destruct (trailing l) as [n t]. simpl in *. split; [lia|intros; lia].
  - destruct (c =? codes.horizontalTab).
    + destruct (trailing l) as [n t]. simpl in *. split; [lia|intros; lia].
    + destruct (c =? codes.virtualSpace); [|simpl; split; [lia|discriminate]].
      destruct IH as [IH1 IH2]. split; [lia|exact IH2].
Qed.

(** X4: the size the backward scan counts is never negative and never more
    than the number of codes in the slices; a tab seen means a size of at
    least one. So the token made for the run ends where the data ended,
    starts on the same line, and does not start after it ends. *)
Theorem scan_chunks_bounds chunks data last :
  let sc := scan_chunks chunks in
  let token := suffix_token data sc last in
  0 <= s_size sc <= Z.of_nat (List.length (units_of chunks)) /\
  (s_tabs sc = true -> 1 <= s_size sc) /\
  end_ token = end_ data /\
  line (start token) = line (end_ token) /\
  column (start token) <= column (end_ token) /\
  offset (start token) <= offset (end_ token).
Proof.
  intros sc token.
  pose proof (scan_chunks_spec chunks) as Hs.
  pose proof (trailing_bounds (rev (units_of chunks))) as [Hb Ht].
  unfold trailing_run in Hs. rewrite <- Hs in Hb, Ht. simpl in Hb, Ht.
  rewrite length_rev in Hb. fold sc in Hb, Ht.
  repeat split; try lia; try exact Ht; subst token; simpl; lia.
Qed.

Lemma is_type_no_data store (events : list Event) i :
  forallb (fun e : Event => negb (ref_is types.data store (snd e))) events
  = true ->
  is_type types.data store events i = false.
Proof.
  intros Hall. unfold is_type, token_at, event_at.
  destruct (i <? 0); [reflexivity|].
  destruct (events !! Z.to_nat i) as [[k r]|] eqn:E; [|reflexivity].
  rewrite forallb_forall in Hall.
  specialize (Hall (k, r)). simpl in Hall.
  apply list_elem_of_lookup_2, list_elem_of_In in E.
  specialize (Hall E). apply negb_true_iff in Hall.
  unfold ref_is in Hall. exact Hall.
Qed.

Lemma merge_loop_no_data store events fuel : forall index,
  (forall i, is_type types.data store events i = false) ->
  -1 <= index ->
  Z.max 0 (Z.of_nat (List.length events) - index) + 1 <= Z.of_nat fuel ->
  merge_loop fuel index None store events = Some (store, events).
Proof.
  induction fuel as [|fuel IH]; intros index Hno Hi Hf; [lia|].
  cbn [merge_loop].
  destruct (Z.leb_spec (index + 1) (Z.of_nat (List.length events)));
    [|reflexivity].
  rewrite Hno. apply IH; [exact Hno|lia|lia].
Qed.

Section WithContext.
Variable sliceStream : Token -> list Chunk.

Lemma suffix_loop_no_data store events fuel : forall eventIndex,
  (forall i, is_type types.data store events i = false) ->
  0 <= eventIndex ->
  Z.max 0 (Z.of_nat (List.length events) - eventIndex) + 1 <= Z.of_nat fuel ->
  suffix_loop sliceStream fuel eventIndex store events = Some (store, events).
Proof.
  induction fuel as [|fuel IH]; intros eventIndex Hno Hi Hf; [lia|].
  cbn [suffix_loop].
  destruct (Z.leb_spec (eventIndex + 1) (Z.of_nat (List.length events)));
    [|reflexivity].
  rewrite Hno, andb_false_r. apply IH; [exact Hno|lia|lia].
Qed.

(** X5: on events none of which belongs to a data token, the empty list
    among them, [resolveJsxFlow] returns the store and the events as they
    are, whatever else the list holds. *)
Theorem resolveJsxFlow_no_data store events :
  forallb (fun e : Event => negb (ref_is types.data store (snd e))) events
  = true ->
  resolveJsxFlow sliceStream store events = Some (store, events).
Proof.
  intros Hall. unfold resolveJsxFlow.
  rewrite merge_loop_no_data;
    [|intros i; apply is_type_no_data, Hall|lia|lia].
  apply suffix_loop_no_data;
    [intros i; apply is_type_no_data, Hall|lia|lia].
Qed.

End WithContext.

Import ResolverFixtures.

Lemma resolveJsxFlow_no_data_witness :
  resolveJsxFlow (sliceChunks divChunks) divStore
    [(Enter, 0%nat); (Enter, 4%nat); (Exit, 4%nat); (Exit, 0%nat)]
  = Some (divStore,
          [(Enter, 0%nat); (Enter, 4%nat); (Exit, 4%nat); (Exit, 0%nat)]).
Proof.
  exact (resolveJsxFlow_no_data (sliceChunks divChunks) divStore
           [(Enter, 0%nat); (Enter, 4%nat); (Exit, 4%nat); (Exit, 0%nat)]
           eq_refl).
Defined.

End ResolverEdges.

(** * Further properties of the overlay *)

Module RegistryMore.
Import Registry RegistryShape Flow RegistryFacts.

Lemma get_set_prop_other h o code v code' :
  code' <> code -> get (set_prop h o code v) o code' = get h o code'.
Proof.
  intros Hne. unfold get, props_of, set_prop, Heap, loc in *.
  destruct (h !! o) as [[p|items|c]|] eqn:E; rewrite ?E; try reflexivity.
  rewrite list_lookup_insert_eq by (eapply lookup_lt_Some; exact E).
  rewrite lookup_insert_ne by congruence. reflexivity.
Qed.

Lemma get_set_prop_same h o code v p :
  h !! o = Some (CObj p) -> get (set_prop h o code v) o code = v.
Proof.
  intros E. unfold get, props_of, set_prop, Heap, loc in *. rewrite E.
  rewrite list_lookup_insert_eq by (eapply lookup_lt_Some; exact E).
  rewrite lookup_insert_eq. reflexivity.
Qed.

Lemma set_prop_lookup_other h o code v (l : loc) :
  l <> o -> set_prop h o code v !! l = h !! l.
Proof.
  intros Hne. unfold set_prop, Heap, loc in *.
  destruct (h !! o) as [[p|items|c]|]; try reflexivity.
  apply list_lookup_insert_ne. congruence.
Qed.

Lemma set_prop_is_obj h o code v p :
  h !! o = Some (CObj p) -> exists p', set_prop h o code v !! o = Some (CObj p').
Proof.
  intros E. unfold set_prop, Heap, loc in *. rewrite E. eexists.
  apply list_lookup_insert_eq. eapply lookup_lt_Some. exact E.
Qed.

Lemma get_app h extra o code :
  (o < List.length h)%nat -> get (h ++ extra) o code = get h o code.
Proof.
  intros Hlt. unfold get, props_of, Heap, loc in *.
  rewrite lookup_app_l by exact Hlt.
  reflexivity.
Qed.

(** [removeConstruct] keeps the overlay a record. *)
Lemma removeConstruct_is_obj h ic k nm p :
  h !! ic = Some (CObj p) ->
  exists p', removeConstruct h ic k nm !! ic = Some (CObj p').
Proof.
  intros E. unfold removeConstruct.
  unfold Heap, loc in *.
  repeat case_match; eauto;
    eapply set_prop_is_obj;
    first [exact E | apply lookup_app_l_Some; exact E].
Qed.

(** It assigns to the property of its code only. *)
Lemma removeConstruct_get_other h ic k nm code p :
  h !! ic = Some (CObj p) ->
  code <> Some k ->
  get (removeConstruct h ic k nm) ic code = get h ic code.
Proof.
  intros E Hne. unfold removeConstruct.
  assert (Hlt : (ic < List.length h)%nat) by (eapply lookup_lt_Some; exact E).
  repeat case_match; try reflexivity;
    rewrite get_set_prop_other by exact Hne;
    first [reflexivity | apply get_app, Hlt].
Qed.

(** It changes no cell but the overlay. *)
Lemma removeConstruct_lookup_old h ic k nm (l : loc) :
  (l < List.length h)%nat -> l <> ic ->
  removeConstruct h ic k nm !! l = h !! l.
Proof.
  intros Hlt Hne. unfold removeConstruct.
  unfold Heap, loc in *.
  repeat case_match; try reflexivity;
    rewrite set_prop_lookup_other by exact Hne;
    first [reflexivity | apply lookup_app_l, Hlt].
Qed.

Lemma set_prop_name_of h o code v c :
  name_of (set_prop h o code v) c = name_of h c.
Proof.
  unfold name_of, set_prop, Heap, loc in *.
  destruct (h !! o) as [[p|items|c0]|] eqn:E; try reflexivity.
  destruct (decide (c = o)) as [->|Hne].
  - rewrite list_lookup_insert_eq by (eapply lookup_lt_Some; exact E).
    rewrite E. reflexivity.
  - rewrite list_lookup_insert_ne by congruence. reflexivity.
Qed.

Lemma app_arr_name_of h items c :
  name_of (h ++ [CArr items]) c = name_of h c.
Proof.
  unfold name_of, Heap, loc in *.
  destruct (decide (c < List.length h)%nat) as [Hlt|Hge].
  - rewrite lookup_app_l by exact Hlt. reflexivity.
  - rewrite lookup_app_r by lia.
    rewrite (lookup_ge_None_2 h c) by lia.
    destruct (c - List.length h)%nat as [|n]; [reflexivity|].
    simpl. destruct n; reflexivity.
Qed.

(** It changes no name. *)
Lemma removeConstruct_name_of h ic k nm c :
  name_of (removeConstruct h ic k nm) c = name_of h c.
Proof.
  unfold removeConstruct.
  repeat case_match; try reflexivity;
    rewrite set_prop_name_of, ?app_arr_name_of; reflexivity.
Qed.

Lemma entry_list_old h h' v :
  refers_into h v = true ->
  (forall l : loc, (l < List.length h)%nat -> VRef l = v -> h' !! l = h !! l) ->
  entry_list h' v = entry_list h v.
Proof.
  intros Hv Hsame. destruct v as [|l]; [reflexivity|].
  simpl in *. apply Nat.ltb_lt in Hv.
  rewrite (Hsame l Hv eq_refl). reflexivity.
Qed.

Lemma code_is_neq code k : code_is code k = false -> code <> Some k.
Proof.
  intros H ->. simpl in H. rewrite Z.eqb_refl in H. discriminate.
Qed.

(** The five calls together: the record stays one, old cells and names
    stay, and properties no call is for keep their value. *)
Lemma remove_all_keeps calls : forall h ic p,
  h !! ic = Some (CObj p) ->
  (exists p', remove_all h ic calls !! ic = Some (CObj p')) /\
  (List.length h <= List.length (remove_all h ic calls))%nat /\
  (forall l : loc, (l < List.length h)%nat -> l <> ic ->
                   remove_all h ic calls !! l = h !! l) /\
  (forall c, name_of (remove_all h ic calls) c = name_of h c) /\
  (forall code, not_key code calls = true ->
                get (remove_all h ic calls) ic code = get h ic code).
Proof.
  induction calls as [|[k nm] calls IH]; intros h ic p E.
  - simpl. repeat split; eauto.
  - cbn [remove_all].
    destruct (removeConstruct_is_obj h ic k nm p E) as [p1 E1].
    destruct (IH _ ic p1 E1) as (Hobj & Hlen & Hold & Hname & Hget).
    pose proof (removeConstruct_length h ic k nm) as Hlen1.
    split; [exact Hobj|]. split; [lia|]. split; [|split].
    + intros l Hl Hne. rewrite Hold by (auto; lia).
      apply removeConstruct_lookup_old; assumption.
    + intros c. rewrite Hname. apply removeConstruct_name_of.
    + intros code Hk. simpl in Hk. apply andb_true_iff in Hk as [Hk1 Hk2].
      apply negb_true_iff in Hk1.
      rewrite Hget by exact Hk2.
      eapply removeConstruct_get_other; [exact E|].
      apply code_is_neq, Hk1.
Qed.

Lemma filter_other_name h h' nm items :
  (forall c, name_of h' c = name_of h c) ->
  List.filter (other_name h' nm) items = List.filter (other_name h nm) items.
Proof.
  intros Hn. induction items as [|c items IH]; simpl; [reflexivity|].
  rewrite IH. unfold other_name. rewrite Hn. reflexivity.
Qed.

(** One call on its own property: the constructs the entry yields are those
    it yielded before whose name is another. *)
Lemma removeConstruct_entry h ic k nm p :
  h !! ic = Some (CObj p) ->
  refers_into h (get h ic (Some k)) = true ->
  get h ic (Some k) <> VRef ic ->
  let h' := removeConstruct h ic k nm in
  entry_list h' (get h' ic (Some k))
  = List.filter (other_name h nm) (entry_list h (get h ic (Some k))) /\
  refers_into h' (get h' ic (Some k)) = true /\
  get h' ic (Some k) <> VRef ic.
Proof.
  intros E Hv Hne h'. subst h'. unfold Heap, loc in *.
  assert (Hic : (ic < List.length h)%nat) by (eapply lookup_lt_Some; exact E).
  destruct (get h ic (Some k)) as [|l] eqn:Hget.
  - unfold removeConstruct. rewrite Hget. rewrite Hget. simpl. auto.
  - simpl in Hv. apply Nat.ltb_lt in Hv.
    assert (Hl : l <> ic) by congruence.
    destruct (h !! l) as [cell|] eqn:Hcell;
      [|apply lookup_ge_None_1 in Hcell; lia].
    destruct cell as [props|items|c].
    + (* a record: not an array, no name *)
      assert (Hrc : removeConstruct h ic k nm = h).
      { unfold removeConstruct, name_of. unfold Heap, loc in *.
        rewrite Hget, Hcell. reflexivity. }
      rewrite Hrc, Hget. simpl. unfold Heap, loc in *. rewrite Hcell.
      simpl. unfold other_name, name_of. unfold Heap, loc in *.
      rewrite Hcell. simpl.
      repeat split; auto; apply Nat.ltb_lt, Hv.
    + (* an array *)
      assert (Hrc : removeConstruct h ic k nm
                    = set_prop (h ++ [CArr (List.filter (other_name h nm) items)])
                        ic (Some k) (VRef (List.length h))).
      { unfold removeConstruct. unfold Heap, loc in *.
        rewrite Hget, Hcell. reflexivity. }
      rewrite Hrc.
      assert (E' : (h ++ [CArr (List.filter (other_name h nm) items)]) !! ic
                   = Some (CObj p))
        by (apply lookup_app_l_Some, E).
      rewrite (get_set_prop_same _ _ _ _ _ E').
      simpl entry_list. unfold Heap, loc in *. rewrite Hcell.
      rewrite set_prop_lookup_other by lia.
      unfold Heap, loc in *.
      rewrite list_lookup_middle by reflexivity.
      repeat split; auto.
      * simpl. apply Nat.ltb_lt. rewrite set_prop_length, length_app.
        simpl. lia.
      * intros [= Heq]. lia.
    + (* one construct *)
      destruct (name_is (name_of h l) nm) eqn:Hnm.
      * assert (Hrc : removeConstruct h ic k nm
                      = set_prop h ic (Some k) VUndefined).
        { unfold removeConstruct. unfold Heap, loc in *.
          rewrite Hget, Hcell, Hnm. reflexivity. }
        rewrite Hrc, (get_set_prop_same _ _ _ _ _ E). simpl.
        unfold Heap, loc in *. rewrite Hcell.
        simpl. unfold other_name. rewrite Hnm. simpl.
        repeat split; auto; discriminate.
      * assert (Hrc : removeConstruct h ic k nm = h).
        { unfold removeConstruct. unfold Heap, loc in *.
          rewrite Hget, Hcell, Hnm. reflexivity. }
        rewrite Hrc, Hget. simpl. unfold Heap, loc in *. rewrite Hcell. simpl.
        unfold other_name. rewrite Hnm. simpl.
        repeat split; auto; apply Nat.ltb_lt, Hv.
Qed.

Lemma entry_list_same (h h' : Heap) v :
  refers_into h v = true ->
  (forall l : loc, v = VRef l -> h' !! l = h !! l) ->
  entry_list h' v = entry_list h v.
Proof.
  intros Hv Hsame. destruct v as [|l]; [reflexivity|].
  simpl. rewrite (Hsame l eq_refl). reflexivity.
Qed.

(** The calls before and after the one for [k] do not touch its entry. *)
Lemma remove_all_entry pre k nm post h ic p :
  h !! ic = Some (CObj p) ->
  refers_into h (get h ic (Some k)) = true ->
  get h ic (Some k) <> VRef ic ->
  not_key (Some k) pre = true ->
  not_key (Some k) post = true ->
  let h' := remove_all h ic (pre ++ (k, nm) :: post) in
  entry_list h' (get h' ic (Some k))
  = List.filter (other_name h nm) (entry_list h (get h ic (Some k))).
Proof.
  intros E Hv Hne Hpre Hpost h'. subst h'.
  assert (Happ : forall a b h0,
             remove_all h0 ic (a ++ b) = remove_all (remove_all h0 ic a) ic b).
  { induction a as [|[k0 n0] a IHa]; intros b h0; simpl; auto. }
  rewrite Happ. cbn [remove_all].
  destruct (remove_all_keeps pre h ic p E)
    as ((p1 & E1) & Hlen1 & Hold1 & Hname1 & Hget1).
  set (h1 := remove_all h ic pre) in *.
  assert (Hv1 : refers_into h1 (get h1 ic (Some k)) = true).
  { rewrite Hget1 by exact Hpre.
    destruct (get h ic (Some k)) as [|l]; [reflexivity|].
    simpl in *. apply Nat.ltb_lt. apply Nat.ltb_lt in Hv. lia. }
  assert (Hne1 : get h1 ic (Some k) <> VRef ic)
    by (rewrite Hget1 by exact Hpre; exact Hne).
  destruct (removeConstruct_entry h1 ic k nm p1 E1 Hv1 Hne1)
    as (Hent & Hv2 & Hne2).
  set (h2 := removeConstruct h1 ic k nm) in *.
  destruct (removeConstruct_is_obj h1 ic k nm p1 E1) as [p2 E2].
  fold h2 in E2.
  destruct (remove_all_keeps post h2 ic p2 E2)
    as (_ & Hlen3 & Hold3 & Hname3 & Hget3).
  rewrite Hget3 by exact Hpost.
  rewrite (entry_list_same h2).
  - rewrite Hent, Hget1 by exact Hpre.
    rewrite (filter_other_name h h1) by exact Hname1.
    f_equal. apply entry_list_same; [exact Hv|].
    intros l Hl. apply Hold1.
    + rewrite Hl in Hv. simpl in Hv. apply Nat.ltb_lt, Hv.
    + congruence.
  - exact Hv2.
  - intros l Hl. apply Hold3.
    + rewrite Hl in Hv2. simpl in Hv2. apply Nat.ltb_lt, Hv2.
    + congruence.
Qed.

Lemma overlay_remove_all h text :
  overlay h text
  = (List.length h,
     remove_all (h ++ [CObj (props_of h text)]) (List.length h) suppressed).
Proof. reflexivity. Qed.

Lemma copy_is_obj (h : Heap) text :
  (h ++ [CObj (props_of h text)]) !! List.length h
  = Some (CObj (props_of h text)).
Proof. unfold Heap in *. apply list_lookup_middle. reflexivity. Qed.

Lemma copy_get h text code :
  get (h ++ [CObj (props_of h text)]) (List.length h) code = get h text code.
Proof.
  unfold get at 1. unfold props_of at 1. rewrite copy_is_obj. reflexivity.
Qed.

Lemma copy_name_of h p c : name_of (h ++ [CObj p]) c = name_of h c.
Proof.
  unfold name_of, Heap, loc in *.
  destruct (decide (c < List.length h)%nat) as [Hlt|Hge].
  - rewrite lookup_app_l by exact Hlt. reflexivity.
  - rewrite lookup_app_r by lia.
    rewrite (lookup_ge_None_2 h c) by lia.
    destruct (c - List.length h)%nat as [|n]; [reflexivity|].
    simpl. destruct n; reflexivity.
Qed.

Lemma copy_entry_list (h : Heap) extra v :
  refers_into h v = true -> entry_list (h ++ extra) v = entry_list h v.
Proof.
  intros Hv. destruct v as [|l]; [reflexivity|].
  simpl in *. apply Nat.ltb_lt in Hv. unfold Heap, loc in *.
  rewrite lookup_app_l by exact Hv. reflexivity.
Qed.

Lemma copy_refers (h : Heap) extra v :
  refers_into h v = true ->
  refers_into (h ++ extra) v = true /\ v <> VRef (List.length h).
Proof.
  intros Hv. destruct v as [|l]; [split; [reflexivity|discriminate]|].
  simpl in *. apply Nat.ltb_lt in Hv. split.
  - apply Nat.ltb_lt. rewrite length_app. lia.
  - intros [= ->]. lia.
Qed.

(** A property the five calls do not name reads in the overlay as in the
    registry. *)
Lemma overlay_get_other h text code :
  not_key code suppressed = true ->
  get (snd (overlay h text)) (fst (overlay h text)) code = get h text code.
Proof.
  intros Hkey. rewrite overlay_remove_all. cbn [fst snd].
  destruct (remove_all_keeps suppressed _ _ _ (copy_is_obj h text))
    as (_ & _ & _ & _ & Hget).
  rewrite Hget by exact Hkey. apply copy_get.
Qed.

(** X6: the overlay [inlineConstructs] differs from
    [this.parser.constructs.text] at the five suppressed codes only: for
    every other code (the key "null" among them) the overlay holds the very
    value of the registry, and the host finds the same constructs under
    it. *)
Theorem overlay_other_entries h text code :
  not_key code suppressed = true ->
  refers_into h (get h text code) = true ->
  get (snd (overlay h text)) (fst (overlay h text)) code = get h text code /\
  entry_list (snd (overlay h text)) (get h text code)
  = entry_list h (get h text code).
Proof.
  intros Hkey Hv. split; [apply overlay_get_other, Hkey|].
  rewrite overlay_remove_all. cbn [fst snd].
  destruct (remove_all_keeps suppressed _ _ _ (copy_is_obj h text))
    as (_ & _ & Hold & _ & _).
  destruct (copy_refers h [CObj (props_of h text)] _ Hv) as [Hv0 Hne].
  rewrite (entry_list_same (h ++ [CObj (props_of h text)])).
  - apply copy_entry_list, Hv.
  - exact Hv0.
  - intros l Hl. apply Hold.
    + rewrite Hl in Hv0. simpl in Hv0. apply Nat.ltb_lt, Hv0.
    + congruence.
Qed.

(** X7: at a suppressed code the host finds under the overlay the
    constructs it finds under the registry, in their order, but for those
    with the suppressed name: the entry may be an array, one construct or
    nothing. *)
Theorem overlay_suppressed_entries h text k nm :
  In (k, nm) suppressed ->
  refers_into h (get h text (Some k)) = true ->
  entry_list (snd (overlay h text))
             (get (snd (overlay h text)) (fst (overlay h text)) (Some k))
  = List.filter (other_name h nm) (entry_list h (get h text (Some k))).
Proof.
  intros Hin Hv. rewrite overlay_remove_all. cbn [fst snd].
  set (h0 := h ++ [CObj (props_of h text)]).
  pose proof (copy_is_obj h text) as E0. fold h0 in E0.
  pose proof (copy_get h text (Some k)) as Hg0. fold h0 in Hg0.
  destruct (copy_refers h [CObj (props_of h text)] _ Hv) as [Hv0 Hne0].
  fold h0 in Hv0.
  assert (Hgoal : forall pre post,
             suppressed = pre ++ (k, nm) :: post ->
             not_key (Some k) pre = true ->
             not_key (Some k) post = true ->
             entry_list (remove_all h0 (List.length h) suppressed)
               (get (remove_all h0 (List.length h) suppressed)
                    (List.length h) (Some k))
             = List.filter (other_name h nm)
                 (entry_list h (get h text (Some k)))).
  { intros pre post -> Hpre Hpost.
    rewrite (remove_all_entry pre k nm post h0 (List.length h) _ E0);
      [|rewrite Hg0; exact Hv0|rewrite Hg0; exact Hne0|exact Hpre|exact Hpost].
    rewrite Hg0.
    rewrite (filter_other_name h h0) by (intros c; apply copy_name_of).
    f_equal. apply copy_entry_list, Hv. }
  simpl in Hin.
  destruct Hin as [H|[H|[H|[H|[H|[]]]]]]; injection H as <- <-.
  - apply (Hgoal [] (tl suppressed)); reflexivity.
  - apply (Hgoal (firstn 1 suppressed) (skipn 2 suppressed)); reflexivity.
  - apply (Hgoal (firstn 2 suppressed) (skipn 3 suppressed)); reflexivity.
  - apply (Hgoal (firstn 3 suppressed) (skipn 4 suppressed)); reflexivity.
  - apply (Hgoal (firstn 4 suppressed) (skipn 5 suppressed)); reflexivity.
Qed.

Lemma set_prop_previous_of h o code v c :
  previous_of (set_prop h o code v) c = previous_of h c.
Proof.
  unfold previous_of, set_prop, Heap, loc in *.
  destruct (h !! o) as [[p|items|c0]|] eqn:E; try reflexivity.
  destruct (decide (c = o)) as [->|Hne].
  - rewrite list_lookup_insert_eq by (eapply lookup_lt_Some; exact E).
    rewrite E. reflexivity.
  - rewrite list_lookup_insert_ne by congruence. reflexivity.
Qed.

Lemma app_previous_of h cell c :
  (forall k, cell <> CCon k) ->
  previous_of (h ++ [cell]) c = previous_of h c.
Proof.
  intros Hcell. unfold previous_of, Heap, loc in *.
  destruct (decide (c < List.length h)%nat) as [Hlt|Hge].
  - rewrite lookup_app_l by exact Hlt. reflexivity.
  - rewrite lookup_app_r by lia.
    rewrite (lookup_ge_None_2 h c) by lia.
    destruct (c - List.length h)%nat as [|n].
    + simpl. destruct cell; try reflexivity. exfalso. eapply Hcell. reflexivity.
    + simpl. destruct n; reflexivity.
Qed.

Lemma removeConstruct_previous_of h ic k nm c :
  previous_of (removeConstruct h ic k nm) c = previous_of h c.
Proof.
  unfold removeConstruct.
  repeat case_match; try reflexivity;
    rewrite set_prop_previous_of, ?app_previous_of by discriminate;
    reflexivity.
Qed.

Lemma remove_all_previous_of calls : forall h ic c,
  previous_of (remove_all h ic calls) c = previous_of h c.
Proof.
  induction calls as [|[k nm] calls IH]; intros h ic c; [reflexivity|].
  cbn [remove_all]. rewrite IH. apply removeConstruct_previous_of.
Qed.

Lemma overlay_interested h text prev items :
  existsb (interested (snd (overlay h text)) prev) items
  = existsb (interested h prev) items.
Proof.
  rewrite overlay_remove_all. cbn [snd].
  induction items as [|c items IH]; [reflexivity|].
  cbn [existsb]. rewrite IH. unfold interested.
  rewrite remove_all_previous_of, app_previous_of by discriminate.
  reflexivity.
Qed.

(** X8: the five removals change no answer of [isBreak]: at a code that is
    not itself a break it consults the overlay, and finds there what the
    registry [this.parser.constructs.text] holds, so it answers, or fails
    its assertion, as it would on the registry. *)
Theorem isBreak_overlay h text prev code :
  refers_into h (get h text code) = true ->
  isBreak (snd (overlay h text)) (fst (overlay h text)) prev code
  = isBreak h text prev code.
Proof.
  intros Hv. unfold isBreak.
  destruct (code_is code codes.lessThan) eqn:H1; [reflexivity|].
  destruct (code_is code codes.leftCurlyBrace) eqn:H2; [reflexivity|].
  destruct (is_eof code) eqn:H3; [reflexivity|].
  destruct (markdownLineEnding code) eqn:H4; [reflexivity|].
  cbn [orb].
  assert (Hkey : not_key code suppressed = true).
  { destruct code as [c|]; [|discriminate]. simpl in *.
    unfold codes.lessThan, codes.leftCurlyBrace, codes.carriageReturn,
      codes.lineFeed, codes.carriageReturnLineFeed, codes.horizontalTab in *.
    rewrite H1, H2.
    apply Z.ltb_ge in H4.
    rewrite !(proj2 (Z.eqb_neq _ _)) by lia. reflexivity. }
  rewrite (overlay_get_other h text code Hkey).
  destruct (get h text code) as [|l] eqn:Hg; [reflexivity|].
  simpl in Hv. apply Nat.ltb_lt in Hv.
  assert (Hl : snd (overlay h text) !! l = h !! l).
  { rewrite overlay_remove_all. cbn [snd].
    destruct (remove_all_keeps suppressed _ _ _ (copy_is_obj h text))
      as (_ & _ & Hold & _).
    unfold Heap, loc in *.
    rewrite Hold by (rewrite ?length_app; simpl; lia).
    apply lookup_app_l. exact Hv. }
  unfold Heap, loc in *. rewrite Hl.
  destruct (h !! l) as [[p|items|c0]|]; try reflexivity.
  f_equal. apply overlay_interested.
Qed.

Import Fixtures.

Lemma overlay_other_entries_witness :
  get (snd starOverlay) (fst starOverlay) (Some codes.asterisk) = VRef 1%nat /\
  entry_list (snd starOverlay) (VRef 1%nat) = [2%nat].
Proof.
  exact (overlay_other_entries starText 0%nat (Some codes.asterisk)
           eq_refl eq_refl).
Defined.

Lemma overlay_suppressed_entries_witness :
  entry_list (snd (overlay mdxText 0%nat))
    (get (snd (overlay mdxText 0%nat)) (fst (overlay mdxText 0%nat))
         (Some codes.lessThan))
  = [2%nat].
Proof.
  exact (overlay_suppressed_entries mdxText 0%nat codes.lessThan
           "mdxJsxTextTag" (or_introl eq_refl) eq_refl).
Defined.

Lemma isBreak_overlay_witness :
  isBreak (snd starOverlay) (fst starOverlay) None (Some codes.asterisk)
  = Val true.
Proof.
  exact (isBreak_overlay starText 0%nat None (Some codes.asterisk) eq_refl).
Defined.

End RegistryMore.

Module SyntaxMore.
Import Syntax.



End SyntaxMore.

Module IdentifierRegexFacts.
Import IdentifierRegex.

Lemma bpm_spec c : bpm c = true <-> c <= 65535.
Proof. unfold bpm. apply Z.leb_le. Qed.

Lemma elem_of_start idStart c :
  c ∈ start idStart <-> c = 36 \/ c = 95 \/ (c ∈ idStart /\ c <= 65535).
Proof.
  unfold start. rewrite elem_of_app, !elem_of_cons, elem_of_nil.
  rewrite list_elem_of_In, filter_In, <- list_elem_of_In, bpm_spec. tauto.
Qed.

Lemma elem_of_cont idCont c :
  c ∈ cont idCont <-> c = 8204 \/ c = 8205 \/ (c ∈ idCont /\ c <= 65535).
Proof.
  unfold cont. rewrite elem_of_app, !elem_of_cons, elem_of_nil.
  rewrite list_elem_of_In, filter_In, <- list_elem_of_In, bpm_spec. tauto.
Qed.

Lemma elem_of_startRe idStart c : c ∈ startRe idStart <-> c ∈ start idStart.
Proof.
  unfold startRe, add, regenerate.
  rewrite elem_of_union, elem_of_list_to_set, elem_of_empty. tauto.
Qed.

Lemma elem_of_contRe idStart idCont c :
  c ∈ contRe idStart idCont <-> c ∈ cont idCont /\ c ∉ start idStart.
Proof.
  unfold contRe, remove, add, regenerate.
  rewrite elem_of_difference, elem_of_union, !elem_of_list_to_set,
    elem_of_empty.
  tauto.
Qed.

(** X10: the two sets the script writes, for any tables [idStart] and
    [idCont]. Both lie in the Basic Multilingual Plane and they are
    disjoint: [cont] holds only what [start] does not. [start] is [$], [_]
    and the BMP part of [idStart]; together the two sets are [$], [_], the
    two joiners and the BMP parts of both tables. *)
Theorem identifier_sets (idStart idCont : list Z) :
  (forall c, c ∈ startRe idStart -> c <= 65535) /\
  (forall c, c ∈ contRe idStart idCont -> c <= 65535) /\
  startRe idStart ## contRe idStart idCont /\
  (forall c, c ∈ startRe idStart <->
             c = 36 \/ c = 95 \/ (c ∈ idStart /\ c <= 65535)) /\
  (forall c, c ∈ startRe idStart ∪ contRe idStart idCont <->
             c = 36 \/ c = 95 \/ c = 8204 \/ c = 8205 \/
             ((c ∈ idStart \/ c ∈ idCont) /\ c <= 65535)).
Proof.
  split; [|split; [|split; [|split]]].
  - intros c. rewrite elem_of_startRe, elem_of_start. lia.
  - intros c. rewrite elem_of_contRe, elem_of_cont. lia.
  - intros c. rewrite elem_of_startRe, elem_of_contRe. tauto.
  - intros c. rewrite elem_of_startRe. apply elem_of_start.
  - intros c. rewrite elem_of_union, elem_of_startRe, elem_of_contRe.
    rewrite elem_of_cont.
    destruct (decide (c ∈ start idStart)) as [Hs|Hs].
    + pose proof (proj1 (elem_of_start idStart c) Hs). tauto.
    + rewrite elem_of_start in Hs |- *. tauto.
Qed.

End IdentifierRegexFacts.

Module FlowDispatch.
Import Registry Flow FlowShape FlowMore.

Section Scanner.
Variable factoryTag : TState -> option TState.
Variable factoryMdxExpression : TState -> option TState.
Variable h : Heap.
Variable ic : loc.

Local Abbreviation step := (step factoryTag factoryMdxExpression h ic).
Local Abbreviation steps := (steps factoryTag factoryMdxExpression h ic).

Lemma isBreak_false prev code :
  isBreak h ic prev code = Val false ->
  code_is code codes.lessThan = false /\ plain_code code = true.
Proof.
  unfold isBreak, plain_code.
  destruct (code_is code codes.lessThan); [discriminate|].
  destruct (code_is code codes.leftCurlyBrace); [discriminate|].
  destruct (is_eof code); [discriminate|].
  destruct (markdownLineEnding code); [discriminate|].
  auto.
Qed.

Ltac split_matches :=
  repeat (cbn [state_of tstate_of frames_of fst snd] in *;
          match goal with
          | |- context [match ?x with _ => _ end] =>
              lazymatch x with
              | state_of _ => fail
              | _ => destruct x eqn:?
              end
          | |- context [if ?x then _ else _] => destruct x eqn:?
          end).

Lemma dispatched_step c :
  good c = true -> dispatched factoryTag c = true ->
  dispatched factoryTag (step c) = true.
Proof.
  destruct c as [[s st] fs]. unfold good, dispatched. simpl.
  intros Hg Hd. apply andb_true_iff in Hg as [Hs Hf].
  destruct s; simpl in *; try exact Hd; try reflexivity.
  - (* start *) split_matches; reflexivity.
  - (* tryLine *) split_matches; reflexivity.
  - (* afterTagLineEnding *) split_matches; reflexivity.
  - (* maybeConstruct *)
    destruct (isBreak h ic (previous st) (current st)) as [[|]|m] eqn:Hb;
      cbn [state_of tstate_of fst snd]; try reflexivity.
    destruct (isBreak_false _ _ Hb) as [H1 H2].
    unfold tag_failed. rewrite H1, H2. reflexivity.
  - (* tryLocalConstructs *)
    destruct (code_is (current st) codes.lessThan) eqn:H1.
    + unfold tokenizeJsxFlowTag. rewrite H1.
      destruct (factoryTag st) eqn:Ht; cbn [state_of tstate_of fst snd];
        try reflexivity.
      unfold plain_code, tag_failed. rewrite H1, Ht.
      destruct (current st) as [c|] eqn:Hc; [|discriminate].
      simpl in H1 |- *. apply Z.eqb_eq in H1. subst c. reflexivity.
    + split_matches; try reflexivity.
      cbn [state_of tstate_of fst snd]. unfold plain_code, tag_failed.
      repeat match goal with
             | H : _ = false |- _ => rewrite H
             end.
      reflexivity.
  - (* tryInlineConstructs *) split_matches; try reflexivity. exact Hd.
  - (* data *) split_matches; reflexivity.
  - (* mdxExpression *) split_matches; reflexivity.
  - (* afterLineEnding *) split_matches; reflexivity.
  - (* spaceStart *) destruct s; try discriminate; split_matches; reflexivity.
  - (* spacePrefix *) destruct s; try discriminate; split_matches; reflexivity.
  - (* attemptOk *)
    destruct fs as [|f fs']; [reflexivity|]. simpl in *.
    apply andb_true_iff in Hf as [Hf1 _]. unfold good_frame in Hf1.
    destruct (on_ok f); try discriminate; reflexivity.
  - (* attemptNok *)
    destruct fs as [|f fs']; [reflexivity|]. simpl in *.
    apply andb_true_iff in Hf as [Hf1 _]. unfold good_frame in Hf1.
    destruct (on_ok f); try discriminate.
    destruct (on_nok f); try discriminate; reflexivity.
Qed.

Lemma dispatched_steps n c :
  good c = true -> dispatched factoryTag c = true ->
  dispatched factoryTag (steps n c) = true.
Proof.
  revert c. induction n as [|n IH]; intros c Hg Hd; simpl; auto.
  apply IH.
  - apply FlowFacts.good_step, Hg.
  - apply dispatched_step; assumption.
Qed.

(** X11: what the scanner puts into data tokens. The code it adds is
    never [{], never a line ending and never the end of input; it is [<]
    only as the first code of a token, and only when the tag grammar has
    just failed on it. *)
Theorem data_codes n st0 :
  let c := tokenizeJsxFlow factoryTag factoryMdxExpression h ic n st0 in
  let code := current (tstate_of c) in
  takes_data h ic c = true ->
  code_is code codes.leftCurlyBrace = false /\
  markdownLineEnding code = false /\
  is_eof code = false /\
  (code_is code codes.lessThan = true ->
   state_of c = notConstruct /\ factoryTag (tstate_of c) = None).
Proof.
  intros c code Ht.
  assert (Hd : dispatched factoryTag c = true).
  { unfold c, tokenizeJsxFlow. apply dispatched_steps; reflexivity. }
  assert (Hp : plain_code code = true /\
               tag_failed factoryTag (tstate_of c) = true /\
               (code_is code codes.lessThan = true -> state_of c = notConstruct)).
  { unfold takes_data, dispatched in *. fold code in Hd, Ht.
    destruct (state_of c); try discriminate.
    - apply andb_true_iff in Hd as [Hd1 Hd2]. auto.
    - destruct (isBreak h ic (previous (tstate_of c)) code) as [[|]|m] eqn:Hb;
        try discriminate.
      destruct (isBreak_false _ _ Hb) as [H1 H2].
      unfold tag_failed. fold code. rewrite H1. repeat split; auto.
      discriminate. }
  destruct Hp as (Hp & Hf & Hs). unfold plain_code in Hp.
  apply andb_true_iff in Hp as [Hp H3]. apply andb_true_iff in Hp as [H1 H2].
  apply negb_true_iff in H1, H2, H3. repeat split; auto.
  unfold tag_failed in Hf. fold code in Hf. rewrite H in Hf. simpl in Hf.
  destruct (factoryTag (tstate_of c)); [discriminate|reflexivity].
Qed.

End Scanner.

Import Fixtures.

Lemma data_codes_witness :
  let c := tokenizeJsxFlow smallTag noExpression (snd emptyOverlay)
             (fst emptyOverlay) 7 (at_start [60; 97; 62; 60; 98]) in
  state_of c = notConstruct /\
  current (tstate_of c) = Some codes.lessThan /\
  smallTag (tstate_of c) = None.
Proof.
  intros c.
  destruct (data_codes smallTag noExpression (snd emptyOverlay)
              (fst emptyOverlay) 7 (at_start [60; 97; 62; 60; 98]) eq_refl)
    as (_ & _ & _ & Hlt).
  destruct (Hlt eq_refl) as [Hs Hn].
  split; [exact Hs|]. split; [reflexivity|exact Hn].
Defined.

End FlowDispatch.

Module FlowEvents.
Import Registry Flow FlowShape FlowMore.

Lemma open_after_app a : forall o b,
  open_after o (a ++ b) = open_after o a ≫= (fun o' => open_after o' b).
Proof.
  induction a as [|[[|] ty] a IH]; intros o b; simpl; [reflexivity|apply IH|].
  destruct o as [|ty' o]; [reflexivity|].
  destruct (String.eqb ty ty'); [apply IH|reflexivity].
Qed.

Lemma extends_refl st : extends st [] st.
Proof. exists []. rewrite app_nil_r. auto. Qed.

Lemma extends_enter st0 o ty st :
  extends st0 o st -> extends st0 (ty :: o) (enter ty st).
Proof.
  intros (added & He & Ho). exists (added ++ [(Enter, ty)]). simpl.
  rewrite He, <- app_assoc, open_after_app, Ho. auto.
Qed.

Lemma extends_exit st0 o ty st :
  extends st0 (ty :: o) st -> extends st0 o (exit ty st).
Proof.
  intros (added & He & Ho). exists (added ++ [(Exit, ty)]). simpl.
  rewrite He, <- app_assoc, open_after_app, Ho. simpl.
  rewrite String.eqb_refl. auto.
Qed.

Lemma extends_consume st0 o st : extends st0 o st -> extends st0 o (consume st).
Proof. intros (added & He & Ho). exists added. auto. Qed.

Lemma extends_trans st0 st st' :
  extends st0 [] st -> extends st [] st' -> extends st0 [] st'.
Proof.
  intros (a & He & Ho) (b & He' & Ho'). exists (a ++ b).
  rewrite He', He, <- app_assoc, open_after_app, Ho. auto.
Qed.

Lemma extends_line_ending st0 st :
  extends st0 [] st -> extends st0 [] (eat_line_ending st).
Proof.
  intros H. unfold eat_line_ending.
  apply extends_exit, extends_consume, extends_enter, H.
Qed.

Lemma attempt_list_some h ls : forall st st',
  attempt_list h ls st = Some st' ->
  exists l c, h !! l = Some (CCon c) /\ tokenize c st = Some st'.
Proof.
  induction ls as [|l ls IH]; intros st st' H; simpl in H; [discriminate|].
  destruct (tokenize_at h l st) as [st1|] eqn:Ht; [|eauto].
  injection H as <-. unfold tokenize_at in Ht.
  destruct (h !! l) as [[p|items|c]|] eqn:E; try discriminate. eauto.
Qed.

Section Scanner.
Variable factoryTag : TState -> option TState.
Variable factoryMdxExpression : TState -> option TState.
Variable h : Heap.
Variable ic : loc.
Hypothesis tag_balanced : appends_balanced factoryTag.
Hypothesis expression_balanced : appends_balanced factoryMdxExpression.
Hypothesis constructs_balanced :
  forall l c, h !! l = Some (CCon c) -> appends_balanced (tokenize c).

Local Abbreviation step := (step factoryTag factoryMdxExpression h ic).
Local Abbreviation steps := (steps factoryTag factoryMdxExpression h ic).

Ltac split_matches :=
  repeat (cbn [state_of tstate_of frames_of fst snd] in *;
          match goal with
          | |- context [match ?x with _ => _ end] =>
              lazymatch x with
              | state_of _ => fail
              | _ => destruct x eqn:?
              end
          | |- context [if ?x then _ else _] => destruct x eqn:?
          end).

Lemma tag_extends st0 st st' :
  extends st0 [] st -> tokenizeJsxFlowTag factoryTag st = Val (Some st') ->
  extends st0 [] st'.
Proof.
  intros He Ht. unfold tokenizeJsxFlowTag in Ht.
  destruct (code_is (current st) codes.lessThan); [|discriminate].
  injection Ht as Ht. eapply extends_trans; [exact He|].
  apply tag_balanced, Ht.
Qed.

Lemma tidy_step st0 c :
  good c = true -> tidy st0 c -> tidy st0 (step c).
Proof.
  destruct c as [[s st] fs]. unfold good, tidy.
  cbn [state_of tstate_of frames_of fst snd].
  intros Hg [[Ht|He] Hfs]; [destruct s; try discriminate; simpl; auto|].
  apply andb_true_iff in Hg as [Hs Hf].
  destruct s; cbn [Flow.step open_of] in *.
  - (* start *)
    destruct (tokenizeJsxFlowTag factoryTag st) as [[st'|]|m] eqn:Ht;
      cbn [state_of tstate_of frames_of fst snd open_of is_threw]; auto.
    split; [right|exact Hfs]. eapply tag_extends; eassumption.
  - (* afterTag *)
    cbn [state_of tstate_of frames_of fst snd open_of].
    split; [auto|]. constructor; [exact He|exact Hfs].
  - (* tryLine *)
    split_matches; cbn [open_of]; split; auto.
    right. apply extends_line_ending, He.
  - (* afterTagLineEnding *)
    split_matches; cbn [open_of]; split; auto.
  - (* maybeConstruct *)
    split_matches; cbn [open_of is_threw]; split; auto.
  - (* tryLocalConstructs *)
    destruct (code_is (current st) codes.lessThan) eqn:H1.
    + destruct (tokenizeJsxFlowTag factoryTag st) as [[st'|]|m] eqn:Ht;
        cbn [state_of tstate_of frames_of fst snd open_of is_threw]; auto.
      split; [right|exact Hfs]. eapply tag_extends; eassumption.
    + split_matches; cbn [open_of]; split; auto.
      right. apply extends_line_ending, He.
  - (* tryInlineConstructs *)
    destruct (attempt_list h (constructs_at h ic (current st)) st)
      as [st'|] eqn:Ha;
      cbn [state_of tstate_of frames_of fst snd open_of]; [|auto].
    split; [right|exact Hfs].
    destruct (attempt_list_some _ _ _ _ Ha) as (l & c & Hl & Hc).
    eapply extends_trans; [exact He|].
    eapply constructs_balanced; eassumption.
  - (* notConstruct *)
    cbn [state_of tstate_of frames_of fst snd open_of].
    split; [right|exact Hfs]. apply extends_consume, extends_enter, He.
  - (* data *)
    split_matches; cbn [open_of is_threw]; split; auto; right.
    cbn [state_of tstate_of fst snd open_of]. apply extends_exit, He.
  - (* mdxExpression *)
    destruct (factoryMdxExpression st) as [st'|] eqn:Hx;
      cbn [state_of tstate_of frames_of fst snd open_of is_threw]; auto.
    split; [right|exact Hfs].
    eapply extends_trans; [exact He|]. apply expression_balanced, Hx.
  - (* afterLineEnding *)
    split_matches; cbn [open_of]; split; auto.
  - (* end_ *)
    cbn [state_of tstate_of frames_of fst snd open_of]. auto.
  - (* spaceStart *)
    simpl in Hs.
    destruct (markdownSpace (current st));
      cbn [state_of tstate_of frames_of fst snd open_of].
    + split; [right|exact Hfs]. apply extends_enter, He.
    + split; [right|exact Hfs]. destruct s; try discriminate; exact He.
  - (* spacePrefix *)
    simpl in Hs.
    destruct (markdownSpace (current st));
      cbn [state_of tstate_of frames_of fst snd open_of].
    + split; [right|exact Hfs]. apply extends_consume, He.
    + split; [right|exact Hfs].
      destruct s; try discriminate; apply extends_exit, He.
  - (* attemptOk *)
    destruct fs as [|f fs'];
      cbn [state_of tstate_of frames_of fst snd open_of is_threw]; auto.
    simpl in Hf. apply andb_true_iff in Hf as [Hf1 _].
    unfold good_frame in Hf1. inversion Hfs; subst.
    destruct (on_ok f); try discriminate. cbn [open_of]. auto.
  - (* attemptNok *)
    destruct fs as [|f fs'];
      cbn [state_of tstate_of frames_of fst snd open_of is_threw]; auto.
    simpl in Hf. apply andb_true_iff in Hf as [Hf1 _].
    unfold good_frame in Hf1. inversion Hfs; subst.
    destruct (on_ok f); try discriminate.
    destruct (on_nok f); try discriminate. cbn [open_of]. auto.
  - (* ok *) cbn [state_of tstate_of frames_of fst snd open_of]. auto.
  - (* nok *) cbn [state_of tstate_of frames_of fst snd open_of]. auto.
  - (* threw *) cbn [state_of tstate_of frames_of fst snd is_threw]. auto.
Qed.

Lemma tidy_steps st0 n : forall c,
  good c = true -> tidy st0 c -> tidy st0 (steps n c).
Proof.
  induction n as [|n IH]; intros c Hg Ht; simpl; auto.
  apply IH; [apply FlowFacts.good_step, Hg|apply tidy_step; assumption].
Qed.

(** X12: the scanner nests its tokens. When the tag grammar, the
    expression grammar and the registered constructs close what they open,
    the events the scanner has added at any point of a run that has not
    thrown leave open exactly the token of the state it is in: the data
    token in [data], the prefix or suffix inside [factorySpace], none
    elsewhere. At [ok] and [nok] every token is closed. *)
Theorem scanner_events_nested n st0 :
  let c := tokenizeJsxFlow factoryTag factoryMdxExpression h ic n st0 in
  is_threw (state_of c) = false ->
  exists added,
    events (tstate_of c) = events st0 ++ added /\
    open_after [] added = Some (open_of (state_of c)) /\
    (is_final (state_of c) = true -> open_after [] added = Some []).
Proof.
  intros c Hn.
  assert (Ht : tidy st0 c).
  { unfold c, tokenizeJsxFlow. apply tidy_steps; [reflexivity|].
    split; [right; apply extends_refl|constructor]. }
  destruct Ht as [[Ht|(added & He & Ho)] _]; [congruence|].
  exists added. repeat split; auto.
  intros Hf. rewrite Ho. destruct (state_of c); try discriminate; reflexivity.
Qed.

End Scanner.

Import Fixtures FlowFixtures.

Lemma smallTag_balanced : appends_balanced smallTag.
Proof.
  intros st st' H. unfold smallTag in H.
  destruct (input st) as [|c r]; [discriminate|].
  destruct (c =? codes.lessThan); [|discriminate].
  destruct (tag_rest r); [|discriminate].
  injection H as <-. eexists. split; reflexivity.
Qed.

Lemma noExpression_balanced : appends_balanced noExpression.
Proof. intros st st' H. discriminate. Qed.

Lemma starMatches_balanced : appends_balanced (tokenize starMatches).
Proof.
  intros st st' H. simpl in H.
  destruct (input st) as [|c r]; [discriminate|].
  destruct (c =? codes.asterisk); [|discriminate].
  injection H as <-. eexists. split; reflexivity.
Qed.

Lemma matchOverlay_constructs l c :
  snd matchOverlay !! l = Some (CCon c) -> c = starMatches.
Proof.
  intros H.
  do 4 (destruct l as [|l];
        [vm_compute in H;
         first [discriminate | injection H as <-; reflexivity]|]).
  vm_compute in H. discriminate.
Qed.

Lemma scanner_events_nested_witness :
  let c := tokenizeJsxFlow smallTag noExpression (snd matchOverlay)
             (fst matchOverlay) 30
             (at_start [60; 97; 62; 120; 42; 60; 98; 62]) in
  state_of c = ok /\
  exists added,
    events (tstate_of c) = [] ++ added /\ open_after [] added = Some [].
Proof.
  intros c. split; [reflexivity|].
  destruct (scanner_events_nested smallTag noExpression (snd matchOverlay)
              (fst matchOverlay) smallTag_balanced noExpression_balanced
              (fun l k H =>
                 eq_ind_r (fun k => appends_balanced (tokenize k))
                   starMatches_balanced (matchOverlay_constructs l k H))
              30 (at_start [60; 97; 62; 120; 42; 60; 98; 62]) eq_refl)
    as (added & He & Ho & _).
  exists added. split; [exact He|exact Ho].
Defined.

End FlowEvents.

Module FlowPairs.
Import Registry Flow FlowShape FlowMore.

Lemma pair_after_app a : forall o b,
  pair_after o (a ++ b) = pair_after o a ≫= (fun o' => pair_after o' b).
Proof.
  induction a as [|[k ty] a IH]; intros o b; simpl; [reflexivity|].
  destruct (String.eqb ty types.data).
  - destruct k, o; try reflexivity; apply IH.
  - destruct o; [reflexivity|apply IH].
Qed.

Lemma pairs_refl st : pairs st false st.
Proof. exists []. rewrite app_nil_r. auto. Qed.

Lemma pairs_other st0 k ty st :
  String.eqb ty types.data = false ->
  pairs st0 false st ->
  pairs st0 false (mkTState (input st) (events st ++ [(k, ty)]) (previous st)).
Proof.
  intros Hty (added & He & Ho). exists (added ++ [(k, ty)]). simpl.
  rewrite He, <- app_assoc, pair_after_app, Ho. simpl. rewrite Hty. auto.
Qed.

Lemma pairs_enter_data st0 st :
  pairs st0 false st -> pairs st0 true (enter types.data st).
Proof.
  intros (added & He & Ho). exists (added ++ [(Enter, types.data)]). simpl.
  rewrite He, <- app_assoc, pair_after_app, Ho. auto.
Qed.

Lemma pairs_exit_data st0 st :
  pairs st0 true st -> pairs st0 false (exit "data" st).
Proof.
  intros (added & He & Ho). exists (added ++ [(Exit, "data"%string)]). simpl.
  rewrite He, <- app_assoc, pair_after_app, Ho. auto.
Qed.

Lemma pairs_consume st0 o st : pairs st0 o st -> pairs st0 o (consume st).
Proof. intros (added & He & Ho). exists added. auto. Qed.

Lemma pairs_trans st0 st st' :
  pairs st0 false st -> pairs st false st' -> pairs st0 false st'.
Proof.
  intros (a & He & Ho) (b & He' & Ho'). exists (a ++ b).
  rewrite He', He, <- app_assoc, pair_after_app, Ho. auto.
Qed.

Lemma pairs_line_ending st0 st :
  pairs st0 false st -> pairs st0 false (eat_line_ending st).
Proof.
  intros H. unfold eat_line_ending.
  apply (pairs_other st0 Exit types.lineEnding); [reflexivity|].
  apply pairs_consume.
  apply (pairs_other st0 Enter types.lineEnding); [reflexivity|exact H].
Qed.

Section Scanner.
Variable factoryTag : TState -> option TState.
Variable factoryMdxExpression : TState -> option TState.
Variable h : Heap.
Variable ic : loc.
Hypothesis tag_paired : appends_paired factoryTag.
Hypothesis expression_paired : appends_paired factoryMdxExpression.
Hypothesis constructs_paired :
  forall l c, h !! l = Some (CCon c) -> appends_paired (tokenize c).

Local Abbreviation step := (step factoryTag factoryMdxExpression h ic).
Local Abbreviation steps := (steps factoryTag factoryMdxExpression h ic).

Ltac split_matches :=
  repeat (cbn [state_of tstate_of frames_of fst snd] in *;
          match goal with
          | |- context [match ?x with _ => _ end] =>
              lazymatch x with
              | state_of _ => fail
              | _ => destruct x eqn:?
              end
          | |- context [if ?x then _ else _] => destruct x eqn:?
          end).

Lemma tag_pairs st0 st st' :
  pairs st0 false st -> tokenizeJsxFlowTag factoryTag st = Val (Some st') ->
  pairs st0 false st'.
Proof.
  intros He Ht. unfold tokenizeJsxFlowTag in Ht.
  destruct (code_is (current st) codes.lessThan); [|discriminate].
  injection Ht as Ht. eapply pairs_trans; [exact He|].
  apply tag_paired, Ht.
Qed.

Ltac known :=
  cbn [state_of tstate_of frames_of fst snd is_data is_threw space_typed].

Lemma paired_step st0 c :
  good c = true -> paired st0 c -> paired st0 (step c).
Proof.
  destruct c as [[s st] fs]. unfold good, paired.
  cbn [state_of tstate_of frames_of fst snd].
  intros Hg (Hty & [Ht|He] & Hfs);
    [destruct s; try discriminate; simpl; auto|].
  apply andb_true_iff in Hg as [Hs Hf].
  destruct s; cbn [Flow.step is_data] in *.
  - (* start *)
    destruct (tokenizeJsxFlowTag factoryTag st) as [[st'|]|m] eqn:Ht;
      known; auto.
    repeat split; auto. right. eapply tag_pairs; eassumption.
  - (* afterTag *)
    known. repeat split; auto.
  - (* tryLine *)
    split_matches; known; repeat split; auto.
    right. apply pairs_line_ending, He.
  - (* afterTagLineEnding *)
    split_matches; known; repeat split; auto.
  - (* maybeConstruct *)
    split_matches; known; repeat split; auto.
  - (* tryLocalConstructs *)
    destruct (code_is (current st) codes.lessThan) eqn:H1.
    + destruct (tokenizeJsxFlowTag factoryTag st) as [[st'|]|m] eqn:Ht;
        known; auto.
      repeat split; auto. right. eapply tag_pairs; eassumption.
    + split_matches; known; repeat split; auto.
      right. apply pairs_line_ending, He.
  - (* tryInlineConstructs *)
    destruct (attempt_list h (constructs_at h ic (current st)) st)
      as [st'|] eqn:Ha; known; [|auto].
    repeat split; auto. right.
    destruct (FlowEvents.attempt_list_some _ _ _ _ Ha) as (l & c & Hl & Hc).
    eapply pairs_trans; [exact He|].
    eapply constructs_paired; eassumption.
  - (* notConstruct *)
    known. repeat split; auto. right.
    apply pairs_consume, pairs_enter_data, He.
  - (* data *)
    split_matches; known; repeat split; auto; right.
    apply pairs_exit_data, He.
  - (* mdxExpression *)
    destruct (factoryMdxExpression st) as [st'|] eqn:Hx; known; auto.
    repeat split; auto. right.
    eapply pairs_trans; [exact He|]. apply expression_paired, Hx.
  - (* afterLineEnding *)
    split_matches; known; repeat split; auto.
  - (* end_ *)
    known. auto.
  - (* spaceStart *)
    simpl in Hs, Hty. apply negb_true_iff in Hty.
    destruct (markdownSpace (current st)); known.
    + repeat split; auto; [rewrite Hty; reflexivity|].
      right. apply (pairs_other st0 Enter ty); assumption.
    + destruct s; try discriminate; known; auto.
  - (* spacePrefix *)
    simpl in Hs, Hty. apply negb_true_iff in Hty.
    destruct (markdownSpace (current st)); known.
    + repeat split; auto. rewrite Hty. reflexivity.
    + assert (Hx : pairs st0 false (exit ty st))
        by (apply (pairs_other st0 Exit ty); assumption).
      destruct s; try discriminate; known; auto.
  - (* attemptOk *)
    destruct fs as [|f fs']; known; auto.
    simpl in Hf. apply andb_true_iff in Hf as [Hf1 _].
    unfold good_frame in Hf1. inversion Hfs; subst.
    destruct (on_ok f); try discriminate. known. auto.
  - (* attemptNok *)
    destruct fs as [|f fs']; known; auto.
    simpl in Hf. apply andb_true_iff in Hf as [Hf1 _].
    unfold good_frame in Hf1. inversion Hfs; subst.
    destruct (on_ok f); try discriminate.
    destruct (on_nok f); try discriminate. known. auto.
  - (* ok *) known. auto.
  - (* nok *) known. auto.
  - (* threw *) known. auto.
Qed.

Lemma paired_steps st0 n : forall c,
  good c = true -> paired st0 c -> paired st0 (steps n c).
Proof.
  induction n as [|n IH]; intros c Hg Ht; simpl; auto.
  apply IH; [apply FlowFacts.good_step, Hg|apply paired_step; assumption].
Qed.

(** X14: the scanner hands the resolver data tokens as adjacent pairs.
    When the tag grammar, the expression grammar and the registered
    constructs add no event between the enter and the exit of a data
    token, neither does the scanner: in the events it has added at any
    point of a run that has not thrown, every data token is an enter
    followed at once by its exit, but for the one still open in [data]. *)
Theorem scanner_data_adjacent n st0 :
  let c := tokenizeJsxFlow factoryTag factoryMdxExpression h ic n st0 in
  is_threw (state_of c) = false ->
  exists added,
    events (tstate_of c) = events st0 ++ added /\
    pair_after false added = Some (is_data (state_of c)).
Proof.
  intros c Hn.
  assert (Ht : paired st0 c).
  { unfold c, tokenizeJsxFlow. apply paired_steps; [reflexivity|].
    repeat split; [right; apply pairs_refl|constructor]. }
  destruct Ht as (_ & [Ht|Hp] & _); [congruence|exact Hp].
Qed.

End Scanner.

Import Fixtures FlowFixtures.

Lemma smallTag_paired : appends_paired smallTag.
Proof.
  intros st st' H. unfold smallTag in H.
  destruct (input st) as [|c r]; [discriminate|].
  destruct (c =? codes.lessThan); [|discriminate].
  destruct (tag_rest r); [|discriminate].
  injection H as <-. eexists. split; reflexivity.
Qed.

Lemma noExpression_paired : appends_paired noExpression.
Proof. intros st st' H. discriminate. Qed.

Lemma starMatches_paired : appends_paired (tokenize starMatches).
Proof.
  intros st st' H. simpl in H.
  destruct (input st) as [|c r]; [discriminate|].
  destruct (c =? codes.asterisk); [|discriminate].
  injection H as <-. eexists. split; reflexivity.
Qed.

Lemma scanner_data_adjacent_witness :
  let c := tokenizeJsxFlow smallTag noExpression (snd matchOverlay)
             (fst matchOverlay) 30
             (at_start [60; 97; 62; 120; 42; 60; 98; 62]) in
  exists added,
    events (tstate_of c) = [] ++ added /\ pair_after false added = Some false.
Proof.
  intros c.
  exact (scanner_data_adjacent smallTag noExpression (snd matchOverlay)
           (fst matchOverlay) smallTag_paired noExpression_paired
           (fun l k H =>
              eq_ind_r (fun k => appends_paired (tokenize k))
                starMatches_paired
                (FlowEvents.matchOverlay_constructs l k H))
           30 (at_start [60; 97; 62; 120; 42; 60; 98; 62]) eq_refl).
Defined.

End FlowPairs.

Module FlowHalts.
Import Registry Flow FlowShape FlowMore.

Section Scanner.
Variable factoryTag : TState -> option TState.
Variable factoryMdxExpression : TState -> option TState.
Variable h : Heap.
Variable ic : loc.
Hypothesis tag_shortens : shortens factoryTag.
Hypothesis expression_shortens : shortens factoryMdxExpression.
Hypothesis constructs_shorten :
  forall l c, h !! l = Some (CCon c) -> shortens (tokenize c).

Local Abbreviation step := (step factoryTag factoryMdxExpression h ic).
Local Abbreviation steps := (steps factoryTag factoryMdxExpression h ic).

Ltac split_matches :=
  repeat (cbn [state_of tstate_of frames_of fst snd] in *;
          match goal with
          | |- context [match ?x with _ => _ end] =>
              lazymatch x with
              | state_of _ => fail
              | frames_of _ => fail
              | _ => destruct x eqn:?
              end
          | |- context [if ?x then _ else _] => destruct x eqn:?
          end).

Lemma shaped_step c : shaped c = true -> shaped (step c) = true.
Proof.
  destruct c as [[s st] fs]. unfold shaped.
  intros H. apply andb_true_iff in H as [Hg Hfr].
  apply andb_true_iff; split; [apply FlowFacts.good_step, Hg|].
  unfold good in Hg. cbn [state_of tstate_of frames_of fst snd] in *.
  apply andb_true_iff in Hg as [Hs Hf].
  destruct st as [inp evs prev].
  destruct fs as [|f [|f' fs]]; [| |discriminate].
  - destruct s; try discriminate; cbn [Flow.step];
      try (split_matches; reflexivity).
    + cbn. apply Nat.leb_refl.
    + destruct s; try discriminate; split_matches; reflexivity.
    + destruct s; try discriminate; split_matches; reflexivity.
  - apply andb_true_iff in Hfr as [Ha Hl]. apply Nat.leb_le in Hl.
    simpl in Hf. apply andb_true_iff in Hf as [Hf _].
    unfold good_frame in Hf.
    destruct (on_ok f) eqn:Hok; try discriminate.
    destruct (on_nok f) eqn:Hnok; try discriminate.
    destruct s; try discriminate; cbn [Flow.step].
    + split_matches; cbn [in_attempt andb]; apply Nat.leb_le;
        destruct inp; simpl in *; lia.
    + destruct s; try discriminate.
      split_matches; cbn [in_attempt andb]; apply Nat.leb_le;
        destruct inp; simpl in *; lia.
    + destruct s; try discriminate.
      split_matches; cbn [in_attempt andb]; apply Nat.leb_le;
        destruct inp; simpl in *; lia.
    + rewrite Hok. reflexivity.
    + rewrite Hnok. reflexivity.
Qed.

Lemma shaped_steps n : forall c, shaped c = true -> shaped (steps n c) = true.
Proof.
  induction n as [|n IH]; intros c Hc; simpl; auto.
  apply IH, shaped_step, Hc.
Qed.

Lemma tag_progress st st' :
  tokenizeJsxFlowTag factoryTag st = Val (Some st') ->
  (List.length (input st') < List.length (input st))%nat.
Proof.
  unfold tokenizeJsxFlowTag.
  destruct (code_is (current st) codes.lessThan); [|discriminate].
  intros [= H]. apply tag_shortens, H.
Qed.

Lemma attempt_progress ls st st' :
  attempt_list h ls st = Some st' ->
  (List.length (input st') < List.length (input st))%nat.
Proof.
  intros H. destruct (FlowEvents.attempt_list_some _ _ _ _ H)
    as (l & c & Hl & Hc).
  eapply constructs_shorten; eassumption.
Qed.

Ltac progress_facts :=
  repeat match goal with
  | H : tokenizeJsxFlowTag _ _ = Val (Some _) |- _ => apply tag_progress in H
  | H : factoryMdxExpression _ = Some _ |- _ =>
      apply expression_shortens in H
  | H : attempt_list _ _ _ = Some _ |- _ => apply attempt_progress in H
  end.

Ltac fin :=
  progress_facts; unfold lex_lt, rank;
  cbn [state_of tstate_of frames_of fst snd weight current input head saved
       enter exit consume eat_line_ending tail List.length] in *;
  repeat match goal with
         | H : ?x = _ |- context [?x] => rewrite H
         end;
  cbn [weight];
  repeat match goal with
         | |- context [if ?x then _ else _] => destruct x
         end;
  first [lia | simpl in *; discriminate].

Lemma rank_step c :
  shaped c = true -> dispatched factoryTag c = true ->
  is_final (state_of c) = false ->
  lex_lt (rank (step c)) (rank c).
Proof.
  destruct c as [[s st] fs]. unfold shaped, good, dispatched.
  cbn [state_of tstate_of frames_of fst snd].
  intros H Hd Hn. apply andb_true_iff in H as [Hg Hfr].
  apply andb_true_iff in Hg as [Hs Hf].
  destruct st as [inp evs prev].
  destruct fs as [|f [|f' fs]]; [| |discriminate].
  - destruct s; try discriminate; cbn [Flow.step];
      try (destruct s; try discriminate);
      try (destruct inp as [|z r]; split_matches; fin).
  - apply andb_true_iff in Hfr as [Ha Hl]. apply Nat.leb_le in Hl.
    simpl in Hf. apply andb_true_iff in Hf as [Hf _].
    unfold good_frame in Hf.
    destruct (on_ok f) eqn:Hok; try discriminate.
    destruct (on_nok f) eqn:Hnok; try discriminate.
    destruct s; try discriminate; cbn [Flow.step];
      try (destruct s; try discriminate);
      try rewrite Hok; try rewrite Hnok;
      try (destruct inp as [|z r]; split_matches; fin).
Qed.




Lemma halts_from : forall p q c,
  fst (rank c) = p -> snd (rank c) = q ->
  shaped c = true -> dispatched factoryTag c = true ->
  exists n, is_final (state_of (steps n c)) = true.
Proof.
  induction p as [p IHp] using lt_wf_ind.
  induction q as [q IHq] using lt_wf_ind.
  intros c Hp Hq Hs Hd.
  destruct (is_final (state_of c)) eqn:Hf; [exists 0%nat; exact Hf|].
  assert (Hg : good c = true).
  { unfold shaped in Hs. apply andb_true_iff in Hs as [Hg _]. exact Hg. }
  pose proof (shaped_step c Hs) as Hs'.
  pose proof (FlowDispatch.dispatched_step factoryTag factoryMdxExpression
                h ic c Hg Hd) as Hd'.
  destruct (rank_step c Hs Hd Hf) as [Hlt|[Heq Hlt]].
  - destruct (IHp _ ltac:(rewrite <- Hp; exact Hlt) _ (step c)
                eq_refl eq_refl Hs' Hd') as [n Hn].
    exists (S n). exact Hn.
  - destruct (IHq _ ltac:(rewrite <- Hq; exact Hlt) (step c)
                ltac:(rewrite <- Hp; exact Heq) eq_refl Hs' Hd') as [n Hn].
    exists (S n). exact Hn.
Qed.

(** X13: the scanner halts. When the tag grammar, the expression grammar
    and the registered constructs consume at least one code whenever they
    match, every run from [start] comes to [ok], [nok] or a throw after
    finitely many steps, and stays there: the attempt of [afterTag] may
    rewind the input once, but what follows the rewind consumes. *)
Theorem scanner_halts st0 :
  exists n,
    is_final
      (state_of (tokenizeJsxFlow factoryTag factoryMdxExpression h ic n st0))
    = true /\
    forall m, (n <= m)%nat ->
      tokenizeJsxFlow factoryTag factoryMdxExpression h ic m st0
      = tokenizeJsxFlow factoryTag factoryMdxExpression h ic n st0.
Proof.
  destruct (halts_from _ _ (start, st0, []) eq_refl eq_refl
              eq_refl eq_refl) as [n Hn].
  exists n. split; [exact Hn|].
  intros m Hm. unfold tokenizeJsxFlow in *.
  replace m with (n + (m - n))%nat by lia.
  rewrite FlowFacts.steps_add.
  destruct (steps n (start, st0, [])) as [[s st] fs].
  apply FlowFacts.steps_final. exact Hn.
Qed.

End Scanner.

Section Asserts.
Variable factoryTag : TState -> option TState.
Variable factoryMdxExpression : TState -> option TState.
Variable h : Heap.
Variable ic : loc.


End Asserts.

Import Fixtures FlowFixtures.

Lemma tag_rest_length inp : forall rest,
  tag_rest inp = Some rest -> (List.length rest < List.length inp)%nat.
Proof.
  induction inp as [|c r IH]; intros rest H; simpl in H; [discriminate|].
  destruct (c =? 62).
  - injection H as <-. simpl. lia.
  - apply IH in H. simpl. lia.
Qed.

Lemma smallTag_shortens : shortens smallTag.
Proof.
  intros st st' H. unfold smallTag in H.
  destruct (input st) as [|c r]; [discriminate|].
  destruct (c =? codes.lessThan); [|discriminate].
  destruct (tag_rest r) as [rest|] eqn:Hr; [|discriminate].
  injection H as <-. apply tag_rest_length in Hr. simpl. lia.
Qed.

Lemma noExpression_shortens : shortens noExpression.
Proof. intros st st' H. discriminate. Qed.

Lemma starMatches_shortens : shortens (tokenize starMatches).
Proof.
  intros st st' H. simpl in H.
  destruct (input st) as [|c r]; [discriminate|].
  destruct (c =? codes.asterisk); [|discriminate].
  injection H as <-. simpl. lia.
Qed.

Lemma scanner_halts_witness :
  exists n,
    is_final
      (state_of
         (tokenizeJsxFlow smallTag noExpression (snd matchOverlay)
            (fst matchOverlay) n
            (at_start [60; 97; 62; 120; 42; 60; 98; 62])))
    = true.
Proof.
  destruct (scanner_halts smallTag noExpression (snd matchOverlay)
              (fst matchOverlay) smallTag_shortens noExpression_shortens
              (fun l k H =>
                 eq_ind_r (fun k => shortens (tokenize k))
                   starMatches_shortens
                   (FlowEvents.matchOverlay_constructs l k H))
              (at_start [60; 97; 62; 120; 42; 60; 98; 62]))
    as (n & Hn & _).
  exists n. exact Hn.
Defined.


End FlowHalts.
